(** * The Polyglot Cloud interface (pgc_interface) as an event-driven machine

    A shallow embedding of the [Interface] class of the Node.js interface
    module: the device registry reconciled by [_onConfig], the ledger of
    correlated requests of [sendMessageAsync] and [_onResult], the poll
    timers of [_checkPollingInterval], the message dispatch of [_onMessage]
    and [_onMessageQueued], and [addNode], [delNode] and [stop].

    JavaScript runs one task at a time.  A task is the synchronous body of
    a callback (an MQTT event, a timer, a call made by the node server)
    followed by the continuations of the awaits it made ready.  The state
    below holds the fields of [this] together with what the run time keeps:
    promises, suspended calls, armed timers, and the traces of what was
    published, emitted and logged. *)

From stdpp Require Import gmap strings list fin_maps pretty.
From Stdlib Require Import ZArith Lia Ascii.

Open Scope string_scope.
Open Scope list_scope.
Open Scope nat_scope.

(** ** JavaScript values *)

(** The values that configuration properties and arguments take.  Objects
    other than the ones given a record below are kept by their JSON text.
    [JConverted d] is what [convertDrivers] leaves in place of the drivers
    [d]: Node.js is not among the sources, so its result stays symbolic. *)
Inductive jsval :=
| JUndefined
| JNull
| JBool (b : bool)
| JNum (z : Z)
| JNaN
| JStr (s : string)
| JDate (t : option Z)        (* None: Invalid Date *)
| JObject (json : string)
| JConverted (d : jsval).

(** ToBoolean. *)
Definition truthy (v : jsval) : bool :=
  match v with
  | JUndefined | JNull | JNaN => false
  | JBool b => b
  | JNum z => negb (z =? 0)%Z
  | JStr s => negb (String.eqb s "")
  | JDate _ | JObject _ | JConverted _ => true
  end.

(** [typeof v === 'string']. *)
Definition is_string (v : jsval) : bool :=
  match v with JStr _ => true | _ => false end.

(** *** parseInt(s, 10) *)

Definition is_space (c : ascii) : bool :=
  let n := nat_of_ascii c in
  ((n =? 32) || ((9 <=? n) && (n <=? 13)))%nat.

Definition digit_of (c : ascii) : option Z :=
  let n := nat_of_ascii c in
  if ((48 <=? n) && (n <=? 57))%nat then Some (Z.of_nat (n - 48)) else None.

Fixpoint skip_spaces (s : string) : string :=
  match s with
  | String c s' => if is_space c then skip_spaces s' else s
  | EmptyString => s
  end.

(** The digits read so far are in [acc]; stops at the first other character. *)
Fixpoint read_digits (s : string) (acc : option Z) : option Z :=
  match s with
  | String c s' =>
      match digit_of c with
      | Some d => read_digits s' (Some (10 * default 0%Z acc + d)%Z)
      | None => acc
      end
  | EmptyString => acc
  end.

(** [None] is NaN. *)
Definition parseInt10 (s : string) : option Z :=
  match skip_spaces s with
  | String "-"%char s' => Z.opp <$> read_digits s' None
  | String "+"%char s' => read_digits s' None
  | s' => read_digits s' None
  end.

(** [new Date(n)]: a time value outside of +-8.64e15 ms is an Invalid Date. *)
Definition new_Date (n : option Z) : jsval :=
  match n with
  | Some z => if (Z.abs z <=? 8640000000000000)%Z then JDate (Some z) else JDate None
  | None => JDate None
  end.

(** [s.slice(n)] for [0 <= n]. *)
Fixpoint slice (n : nat) (s : string) : string :=
  match n, s with
  | S n', String _ s' => slice n' s'
  | _, _ => s
  end.

(** String conversion of a property that may be undefined, as in
    ['addnode-' + node.address]. *)
Definition to_str (o : option string) : string := default "undefined" o.

(** ** Configuration snapshots *)

(** One entry of [config.nodes].  [cn_props] holds the optional properties
    ([prop in n] is [is_Some (cn_props !! prop)]). *)
Record NodeCfg := mkNodeCfg {
  nodedefid : string;
  primary : string;
  name : string;
  cn_props : gmap string jsval
}.

(** A configuration: [customParams] values are strings, compared with
    [===]; a missing [shortPoll] or [longPoll] is [None]. *)
Record Config := mkConfig {
  nodes : gmap string NodeCfg;
  customParams : option (gmap string string);
  shortPoll : option Z;
  longPoll : option Z;
  newParamsDetected : option bool
}.

(** ** Device records *)

(** Modelled from the spec: Node.js, the class of the device records, is
    not among the sources.  A record holds what the constructor
    [new NodeClass(polyInterface, primary, address, name)] is given, the
    definition id of its class, and the properties [_onConfig] assigns. *)
Record Node := mkNode {
  n_id : string;
  n_primary : string;
  n_address : string;
  n_name : string;
  n_props : gmap string jsval
}.

(** Modelled from the spec: [convertDrivers] of the absent Node.js rewrites
    the drivers of a record in place; its result is kept symbolic. *)
Definition convertDrivers (node : Node) : Node :=
  {| n_id := n_id node; n_primary := n_primary node;
     n_address := n_address node; n_name := n_name node;
     n_props := alter JConverted "drivers" (n_props node) |}.

Definition set_prop (prop : string) (v : jsval) (node : Node) : Node :=
  {| n_id := n_id node; n_primary := n_primary node;
     n_address := n_address node; n_name := n_name node;
     n_props := <[prop := v]> (n_props node) |}.

(** ** Arguments of addNode and delNode *)

(** What the node server may pass as [node]: any value.  An object is
    described by what the two methods look at: whether [Node.prototype] is
    on its prototype chain, whether it has a callable [convertDrivers], and
    the properties read to build the message. *)
Record ObjArg := mkObjArg {
  o_isNode : bool;
  o_hasConvertDrivers : bool;
  o_address : option string;
  o_name : option string;
  o_id : option string;
  o_primary : option string;
  o_isController : jsval;
  o_drivers : jsval;
  o_hint : jsval
}.

Inductive jsarg :=
| APrim (v : jsval)     (* a primitive: undefined, null, boolean, number, string *)
| AObj (o : ObjArg).

Definition arg_truthy (a : jsarg) : bool :=
  match a with APrim v => truthy v | AObj _ => true end.

(** [!a]: always a primitive boolean. *)
Definition js_not (a : jsarg) : jsarg := APrim (JBool (negb (arg_truthy a))).

(** [a instanceof Node]: false for every primitive. *)
Definition instanceof_Node (a : jsarg) : bool :=
  match a with APrim _ => false | AObj o => o_isNode o end.

(** ** Messages *)

(** Bodies of outbound messages. *)
Inductive Body :=
| BConnected (connected : bool)
| BAddnode (address name nodedefid primary : option string)
           (isController drivers : jsval) (hint : option string)
| BRemovenode (address : option string)
| BReport (requestId : string) (success : bool)
| BOther (json : string).

Record Identity := mkIdentity {
  _userId : string;
  _recvTopic : string;
  _sendTopic : string;
  _profileNum : string;
  _id : string;
  _stage : string
}.

(** A published message: the MQTT topic, the body, and the identity fields
    [_sendMessage] stamps on it. *)
Record Published := mkPublished {
  p_mqtt_topic : string;
  p_body : Body;
  p_userId : string;
  p_topic : string;
  p_profileNum : string;
  p_id : string
}.

(** One entry of a result message, [messageContent[key]]. *)
Record ResultEntry := mkResultEntry {
  r_address : option string;
  r_success : bool;
  r_reason : string
}.

(** The payload found under a key of an inbound message. *)
Inductive Content :=
| CResult (entries : list (string * ResultEntry))
| CConfig (config : Config)
| CAddress (address : jsval) (requestId : option string)
| CPolls (shortPoll longPoll : option Z)
| COther (json : string).

(** An inbound message: its keys in order, each with its payload, as
    [Object.keys(message)] lists them. *)
Definition Envelope := list (string * Content).

Record QItem := mkQItem {
  messageKey : string;
  messageContent : Content;
  clientId : option string
}.

(** ** Promises and timers *)

(** What a promise is settled with: the reason text of a result message, or
    an [Error] object with its [name] and [message]. *)
Inductive Settled :=
| Reason (reason : string)
| JsError (err_name err_message : string).

Inductive PState :=
| Pending
| Fulfilled (v : Settled)
| Rejected (v : Settled).

Definition timeout_error : Settled :=
  JsError "timeout" "Polyglot result message not received".
Definition not_connected_error : Settled :=
  JsError "Error" "Polyglot not connected".

(** An entry of the ledger: [has_callbacks] tells whether [resolve] and
    [reject] were stored (they are only when connected). *)
Record Tracker := mkTracker {
  promise : nat;
  has_callbacks : bool
}.

(** A call of [sendMessageAsync], as suspended at its await. *)
Record Call := mkCall {
  call_id : nat;
  call_key : string;
  call_message : Body;
  call_timeout : Z
}.

Inductive TimeoutAction :=
| DecrementConfigCounter          (* of _detectConfigLoop *)
| RejectTimeout (p : nat).        (* of sendMessageAsync *)

Inductive Event :=
| EConfig (config : Config) (isInitialConfig : bool) (registry : gmap string Node)
| EPoll (isLongPoll : bool)
| EStop
| EDelete
| EOauth (content : Content)
| EMessageReceived (message : Envelope)
| EMessageSent (message : Published)
| EMqtt (name : string)
| ENodeCall (address method : string).   (* node.query(), node.status(), node.runCmd() *)

Inductive LogEntry :=
| LInfo (text : string)
| LWarn (text : string)
| LError (text : string).

(** Poll classes: ['short'] and ['long']. *)
Inductive Poll := short | long.

(** A thrown exception ends the callback that raised it. *)
Inductive Completion :=
| Normal
| Throw (what : string).
#[projections(primitive)]
Record State := mkState {
  _mqttClientConnected : bool; (* this._mqttClientConnected *)
  _shuttingDown : bool; (* this._shuttingDown: true once stop or delete was received *)
  _messageAsyncTracking : gmap string Tracker; (* this._messageAsyncTracking *)
  _nodeClasses : gset string; (* this._nodeClasses, by its nodeDefId keys *)
  _nodes : gmap string Node; (* this._nodes *)
  _config : option Config; (* this._config (None: undefined) *)
  _configCounter : Z; (* this._configCounter *)
  shortPollValue : option Z; (* this.shortPollValue (None: undefined) *)
  shortPollTimer : option nat; (* this.shortPollTimer (None: undefined) *)
  longPollValue : option Z; (* this.longPollValue *)
  longPollTimer : option nat; (* this.longPollTimer *)
  _queue : list QItem; (* this._queue, the items not yet processed *)
  ident : Identity; (* the session identity fields *)
  promises : gmap nat PState; (* the promises created so far *)
  awaiting : list (nat * Call); (* calls suspended at an await, with the awaited promise *)
  microtasks : list Call; (* continuations ready to run *)
  timeouts : list (nat * Z * TimeoutAction); (* pending setTimeout callbacks *)
  intervals : list (nat * bool * option Z); (* armed setInterval timers: handle, isLongPoll, delay in ms *)
  next_id : nat; (* next fresh handle *)
  call_promise : gmap nat nat; (* call id of sendMessageAsync -> the promise it returned *)
  published : list Published; (* this._mqttClient.publish trace *)
  emitted : list Event; (* this.emit trace *)
  logs : list LogEntry; (* logger trace *)
  mqttEnded : bool; (* this._mqttClient.end() was called *)
  subscriptions : list string (* this._mqttClient.subscribe trace *)
}.

Definition set_mqttClientConnected (v : bool) (st : State) : State :=
  {| _mqttClientConnected := v; _shuttingDown := _shuttingDown st;
  _messageAsyncTracking := _messageAsyncTracking st; _nodeClasses :=
  _nodeClasses st; _nodes := _nodes st; _config := _config st;
  _configCounter := _configCounter st; shortPollValue := shortPollValue st;
  shortPollTimer := shortPollTimer st; longPollValue := longPollValue st;
  longPollTimer := longPollTimer st; _queue := _queue st; ident := ident st;
  promises := promises st; awaiting := awaiting st; microtasks := microtasks
  st; timeouts := timeouts st; intervals := intervals st; next_id := next_id
  st; call_promise := call_promise st; published := published st; emitted :=
  emitted st; logs := logs st; mqttEnded := mqttEnded st; subscriptions :=
  subscriptions st |}.

Definition set_shuttingDown (v : bool) (st : State) : State :=
  {| _mqttClientConnected := _mqttClientConnected st; _shuttingDown := v;
  _messageAsyncTracking := _messageAsyncTracking st; _nodeClasses :=
  _nodeClasses st; _nodes := _nodes st; _config := _config st;
  _configCounter := _configCounter st; shortPollValue := shortPollValue st;
  shortPollTimer := shortPollTimer st; longPollValue := longPollValue st;
  longPollTimer := longPollTimer st; _queue := _queue st; ident := ident st;
  promises := promises st; awaiting := awaiting st; microtasks := microtasks
  st; timeouts := timeouts st; intervals := intervals st; next_id := next_id
  st; call_promise := call_promise st; published := published st; emitted :=
  emitted st; logs := logs st; mqttEnded := mqttEnded st; subscriptions :=
  subscriptions st |}.

Definition set_messageAsyncTracking (v : gmap string Tracker) (st : State) : State :=
  {| _mqttClientConnected := _mqttClientConnected st; _shuttingDown :=
  _shuttingDown st; _messageAsyncTracking := v; _nodeClasses := _nodeClasses
  st; _nodes := _nodes st; _config := _config st; _configCounter :=
  _configCounter st; shortPollValue := shortPollValue st; shortPollTimer :=
  shortPollTimer st; longPollValue := longPollValue st; longPollTimer :=
  longPollTimer st; _queue := _queue st; ident := ident st; promises :=
  promises st; awaiting := awaiting st; microtasks := microtasks st;
  timeouts := timeouts st; intervals := intervals st; next_id := next_id st;
  call_promise := call_promise st; published := published st; emitted :=
  emitted st; logs := logs st; mqttEnded := mqttEnded st; subscriptions :=
  subscriptions st |}.

Definition set_nodes (v : gmap string Node) (st : State) : State :=
  {| _mqttClientConnected := _mqttClientConnected st; _shuttingDown :=
  _shuttingDown st; _messageAsyncTracking := _messageAsyncTracking st;
  _nodeClasses := _nodeClasses st; _nodes := v; _config := _config st;
  _configCounter := _configCounter st; shortPollValue := shortPollValue st;
  shortPollTimer := shortPollTimer st; longPollValue := longPollValue st;
  longPollTimer := longPollTimer st; _queue := _queue st; ident := ident st;
  promises := promises st; awaiting := awaiting st; microtasks := microtasks
  st; timeouts := timeouts st; intervals := intervals st; next_id := next_id
  st; call_promise := call_promise st; published := published st; emitted :=
  emitted st; logs := logs st; mqttEnded := mqttEnded st; subscriptions :=
  subscriptions st |}.

Definition set_config (v : option Config) (st : State) : State :=
  {| _mqttClientConnected := _mqttClientConnected st; _shuttingDown :=
  _shuttingDown st; _messageAsyncTracking := _messageAsyncTracking st;
  _nodeClasses := _nodeClasses st; _nodes := _nodes st; _config := v;
  _configCounter := _configCounter st; shortPollValue := shortPollValue st;
  shortPollTimer := shortPollTimer st; longPollValue := longPollValue st;
  longPollTimer := longPollTimer st; _queue := _queue st; ident := ident st;
  promises := promises st; awaiting := awaiting st; microtasks := microtasks
  st; timeouts := timeouts st; intervals := intervals st; next_id := next_id
  st; call_promise := call_promise st; published := published st; emitted :=
  emitted st; logs := logs st; mqttEnded := mqttEnded st; subscriptions :=
  subscriptions st |}.

Definition set_configCounter (v : Z) (st : State) : State :=
  {| _mqttClientConnected := _mqttClientConnected st; _shuttingDown :=
  _shuttingDown st; _messageAsyncTracking := _messageAsyncTracking st;
  _nodeClasses := _nodeClasses st; _nodes := _nodes st; _config := _config
  st; _configCounter := v; shortPollValue := shortPollValue st;
  shortPollTimer := shortPollTimer st; longPollValue := longPollValue st;
  longPollTimer := longPollTimer st; _queue := _queue st; ident := ident st;
  promises := promises st; awaiting := awaiting st; microtasks := microtasks
  st; timeouts := timeouts st; intervals := intervals st; next_id := next_id
  st; call_promise := call_promise st; published := published st; emitted :=
  emitted st; logs := logs st; mqttEnded := mqttEnded st; subscriptions :=
  subscriptions st |}.

Definition set_shortPollValue (v : option Z) (st : State) : State :=
  {| _mqttClientConnected := _mqttClientConnected st; _shuttingDown :=
  _shuttingDown st; _messageAsyncTracking := _messageAsyncTracking st;
  _nodeClasses := _nodeClasses st; _nodes := _nodes st; _config := _config
  st; _configCounter := _configCounter st; shortPollValue := v;
  shortPollTimer := shortPollTimer st; longPollValue := longPollValue st;
  longPollTimer := longPollTimer st; _queue := _queue st; ident := ident st;
  promises := promises st; awaiting := awaiting st; microtasks := microtasks
  st; timeouts := timeouts st; intervals := intervals st; next_id := next_id
  st; call_promise := call_promise st; published := published st; emitted :=
  emitted st; logs := logs st; mqttEnded := mqttEnded st; subscriptions :=
  subscriptions st |}.

Definition set_shortPollTimer (v : option nat) (st : State) : State :=
  {| _mqttClientConnected := _mqttClientConnected st; _shuttingDown :=
  _shuttingDown st; _messageAsyncTracking := _messageAsyncTracking st;
  _nodeClasses := _nodeClasses st; _nodes := _nodes st; _config := _config
  st; _configCounter := _configCounter st; shortPollValue := shortPollValue
  st; shortPollTimer := v; longPollValue := longPollValue st; longPollTimer
  := longPollTimer st; _queue := _queue st; ident := ident st; promises :=
  promises st; awaiting := awaiting st; microtasks := microtasks st;
  timeouts := timeouts st; intervals := intervals st; next_id := next_id st;
  call_promise := call_promise st; published := published st; emitted :=
  emitted st; logs := logs st; mqttEnded := mqttEnded st; subscriptions :=
  subscriptions st |}.

Definition set_longPollValue (v : option Z) (st : State) : State :=
  {| _mqttClientConnected := _mqttClientConnected st; _shuttingDown :=
  _shuttingDown st; _messageAsyncTracking := _messageAsyncTracking st;
  _nodeClasses := _nodeClasses st; _nodes := _nodes st; _config := _config
  st; _configCounter := _configCounter st; shortPollValue := shortPollValue
  st; shortPollTimer := shortPollTimer st; longPollValue := v; longPollTimer
  := longPollTimer st; _queue := _queue st; ident := ident st; promises :=
  promises st; awaiting := awaiting st; microtasks := microtasks st;
  timeouts := timeouts st; intervals := intervals st; next_id := next_id st;
  call_promise := call_promise st; published := published st; emitted :=
  emitted st; logs := logs st; mqttEnded := mqttEnded st; subscriptions :=
  subscriptions st |}.

Definition set_longPollTimer (v : option nat) (st : State) : State :=
  {| _mqttClientConnected := _mqttClientConnected st; _shuttingDown :=
  _shuttingDown st; _messageAsyncTracking := _messageAsyncTracking st;
  _nodeClasses := _nodeClasses st; _nodes := _nodes st; _config := _config
  st; _configCounter := _configCounter st; shortPollValue := shortPollValue
  st; shortPollTimer := shortPollTimer st; longPollValue := longPollValue
  st; longPollTimer := v; _queue := _queue st; ident := ident st; promises
  := promises st; awaiting := awaiting st; microtasks := microtasks st;
  timeouts := timeouts st; intervals := intervals st; next_id := next_id st;
  call_promise := call_promise st; published := published st; emitted :=
  emitted st; logs := logs st; mqttEnded := mqttEnded st; subscriptions :=
  subscriptions st |}.

Definition set_queue (v : list QItem) (st : State) : State :=
  {| _mqttClientConnected := _mqttClientConnected st; _shuttingDown :=
  _shuttingDown st; _messageAsyncTracking := _messageAsyncTracking st;
  _nodeClasses := _nodeClasses st; _nodes := _nodes st; _config := _config
  st; _configCounter := _configCounter st; shortPollValue := shortPollValue
  st; shortPollTimer := shortPollTimer st; longPollValue := longPollValue
  st; longPollTimer := longPollTimer st; _queue := v; ident := ident st;
  promises := promises st; awaiting := awaiting st; microtasks := microtasks
  st; timeouts := timeouts st; intervals := intervals st; next_id := next_id
  st; call_promise := call_promise st; published := published st; emitted :=
  emitted st; logs := logs st; mqttEnded := mqttEnded st; subscriptions :=
  subscriptions st |}.

Definition set_promises (v : gmap nat PState) (st : State) : State :=
  {| _mqttClientConnected := _mqttClientConnected st; _shuttingDown :=
  _shuttingDown st; _messageAsyncTracking := _messageAsyncTracking st;
  _nodeClasses := _nodeClasses st; _nodes := _nodes st; _config := _config
  st; _configCounter := _configCounter st; shortPollValue := shortPollValue
  st; shortPollTimer := shortPollTimer st; longPollValue := longPollValue
  st; longPollTimer := longPollTimer st; _queue := _queue st; ident := ident
  st; promises := v; awaiting := awaiting st; microtasks := microtasks st;
  timeouts := timeouts st; intervals := intervals st; next_id := next_id st;
  call_promise := call_promise st; published := published st; emitted :=
  emitted st; logs := logs st; mqttEnded := mqttEnded st; subscriptions :=
  subscriptions st |}.

Definition set_awaiting (v : list (nat * Call)) (st : State) : State :=
  {| _mqttClientConnected := _mqttClientConnected st; _shuttingDown :=
  _shuttingDown st; _messageAsyncTracking := _messageAsyncTracking st;
  _nodeClasses := _nodeClasses st; _nodes := _nodes st; _config := _config
  st; _configCounter := _configCounter st; shortPollValue := shortPollValue
  st; shortPollTimer := shortPollTimer st; longPollValue := longPollValue
  st; longPollTimer := longPollTimer st; _queue := _queue st; ident := ident
  st; promises := promises st; awaiting := v; microtasks := microtasks st;
  timeouts := timeouts st; intervals := intervals st; next_id := next_id st;
  call_promise := call_promise st; published := published st; emitted :=
  emitted st; logs := logs st; mqttEnded := mqttEnded st; subscriptions :=
  subscriptions st |}.

Definition set_microtasks (v : list Call) (st : State) : State :=
  {| _mqttClientConnected := _mqttClientConnected st; _shuttingDown :=
  _shuttingDown st; _messageAsyncTracking := _messageAsyncTracking st;
  _nodeClasses := _nodeClasses st; _nodes := _nodes st; _config := _config
  st; _configCounter := _configCounter st; shortPollValue := shortPollValue
  st; shortPollTimer := shortPollTimer st; longPollValue := longPollValue
  st; longPollTimer := longPollTimer st; _queue := _queue st; ident := ident
  st; promises := promises st; awaiting := awaiting st; microtasks := v;
  timeouts := timeouts st; intervals := intervals st; next_id := next_id st;
  call_promise := call_promise st; published := published st; emitted :=
  emitted st; logs := logs st; mqttEnded := mqttEnded st; subscriptions :=
  subscriptions st |}.

Definition set_timeouts (v : list (nat * Z * TimeoutAction)) (st : State) : State :=
  {| _mqttClientConnected := _mqttClientConnected st; _shuttingDown :=
  _shuttingDown st; _messageAsyncTracking := _messageAsyncTracking st;
  _nodeClasses := _nodeClasses st; _nodes := _nodes st; _config := _config
  st; _configCounter := _configCounter st; shortPollValue := shortPollValue
  st; shortPollTimer := shortPollTimer st; longPollValue := longPollValue
  st; longPollTimer := longPollTimer st; _queue := _queue st; ident := ident
  st; promises := promises st; awaiting := awaiting st; microtasks :=
  microtasks st; timeouts := v; intervals := intervals st; next_id :=
  next_id st; call_promise := call_promise st; published := published st;
  emitted := emitted st; logs := logs st; mqttEnded := mqttEnded st;
  subscriptions := subscriptions st |}.

Definition set_intervals (v : list (nat * bool * option Z)) (st : State) : State :=
  {| _mqttClientConnected := _mqttClientConnected st; _shuttingDown :=
  _shuttingDown st; _messageAsyncTracking := _messageAsyncTracking st;
  _nodeClasses := _nodeClasses st; _nodes := _nodes st; _config := _config
  st; _configCounter := _configCounter st; shortPollValue := shortPollValue
  st; shortPollTimer := shortPollTimer st; longPollValue := longPollValue
  st; longPollTimer := longPollTimer st; _queue := _queue st; ident := ident
  st; promises := promises st; awaiting := awaiting st; microtasks :=
  microtasks st; timeouts := timeouts st; intervals := v; next_id := next_id
  st; call_promise := call_promise st; published := published st; emitted :=
  emitted st; logs := logs st; mqttEnded := mqttEnded st; subscriptions :=
  subscriptions st |}.

Definition set_next_id (v : nat) (st : State) : State :=
  {| _mqttClientConnected := _mqttClientConnected st; _shuttingDown :=
  _shuttingDown st; _messageAsyncTracking := _messageAsyncTracking st;
  _nodeClasses := _nodeClasses st; _nodes := _nodes st; _config := _config
  st; _configCounter := _configCounter st; shortPollValue := shortPollValue
  st; shortPollTimer := shortPollTimer st; longPollValue := longPollValue
  st; longPollTimer := longPollTimer st; _queue := _queue st; ident := ident
  st; promises := promises st; awaiting := awaiting st; microtasks :=
  microtasks st; timeouts := timeouts st; intervals := intervals st; next_id
  := v; call_promise := call_promise st; published := published st; emitted
  := emitted st; logs := logs st; mqttEnded := mqttEnded st; subscriptions
  := subscriptions st |}.

Definition set_call_promise (v : gmap nat nat) (st : State) : State :=
  {| _mqttClientConnected := _mqttClientConnected st; _shuttingDown :=
  _shuttingDown st; _messageAsyncTracking := _messageAsyncTracking st;
  _nodeClasses := _nodeClasses st; _nodes := _nodes st; _config := _config
  st; _configCounter := _configCounter st; shortPollValue := shortPollValue
  st; shortPollTimer := shortPollTimer st; longPollValue := longPollValue
  st; longPollTimer := longPollTimer st; _queue := _queue st; ident := ident
  st; promises := promises st; awaiting := awaiting st; microtasks :=
  microtasks st; timeouts := timeouts st; intervals := intervals st; next_id
  := next_id st; call_promise := v; published := published st; emitted :=
  emitted st; logs := logs st; mqttEnded := mqttEnded st; subscriptions :=
  subscriptions st |}.

Definition set_published (v : list Published) (st : State) : State :=
  {| _mqttClientConnected := _mqttClientConnected st; _shuttingDown :=
  _shuttingDown st; _messageAsyncTracking := _messageAsyncTracking st;
  _nodeClasses := _nodeClasses st; _nodes := _nodes st; _config := _config
  st; _configCounter := _configCounter st; shortPollValue := shortPollValue
  st; shortPollTimer := shortPollTimer st; longPollValue := longPollValue
  st; longPollTimer := longPollTimer st; _queue := _queue st; ident := ident
  st; promises := promises st; awaiting := awaiting st; microtasks :=
  microtasks st; timeouts := timeouts st; intervals := intervals st; next_id
  := next_id st; call_promise := call_promise st; published := v; emitted :=
  emitted st; logs := logs st; mqttEnded := mqttEnded st; subscriptions :=
  subscriptions st |}.

Definition set_emitted (v : list Event) (st : State) : State :=
  {| _mqttClientConnected := _mqttClientConnected st; _shuttingDown :=
  _shuttingDown st; _messageAsyncTracking := _messageAsyncTracking st;
  _nodeClasses := _nodeClasses st; _nodes := _nodes st; _config := _config
  st; _configCounter := _configCounter st; shortPollValue := shortPollValue
  st; shortPollTimer := shortPollTimer st; longPollValue := longPollValue
  st; longPollTimer := longPollTimer st; _queue := _queue st; ident := ident
  st; promises := promises st; awaiting := awaiting st; microtasks :=
  microtasks st; timeouts := timeouts st; intervals := intervals st; next_id
  := next_id st; call_promise := call_promise st; published := published st;
  emitted := v; logs := logs st; mqttEnded := mqttEnded st; subscriptions :=
  subscriptions st |}.

Definition set_logs (v : list LogEntry) (st : State) : State :=
  {| _mqttClientConnected := _mqttClientConnected st; _shuttingDown :=
  _shuttingDown st; _messageAsyncTracking := _messageAsyncTracking st;
  _nodeClasses := _nodeClasses st; _nodes := _nodes st; _config := _config
  st; _configCounter := _configCounter st; shortPollValue := shortPollValue
  st; shortPollTimer := shortPollTimer st; longPollValue := longPollValue
  st; longPollTimer := longPollTimer st; _queue := _queue st; ident := ident
  st; promises := promises st; awaiting := awaiting st; microtasks :=
  microtasks st; timeouts := timeouts st; intervals := intervals st; next_id
  := next_id st; call_promise := call_promise st; published := published st;
  emitted := emitted st; logs := v; mqttEnded := mqttEnded st; subscriptions
  := subscriptions st |}.

Definition set_mqttEnded (v : bool) (st : State) : State :=
  {| _mqttClientConnected := _mqttClientConnected st; _shuttingDown :=
  _shuttingDown st; _messageAsyncTracking := _messageAsyncTracking st;
  _nodeClasses := _nodeClasses st; _nodes := _nodes st; _config := _config
  st; _configCounter := _configCounter st; shortPollValue := shortPollValue
  st; shortPollTimer := shortPollTimer st; longPollValue := longPollValue
  st; longPollTimer := longPollTimer st; _queue := _queue st; ident := ident
  st; promises := promises st; awaiting := awaiting st; microtasks :=
  microtasks st; timeouts := timeouts st; intervals := intervals st; next_id
  := next_id st; call_promise := call_promise st; published := published st;
  emitted := emitted st; logs := logs st; mqttEnded := v; subscriptions :=
  subscriptions st |}.

Definition set_subscriptions (v : list string) (st : State) : State :=
  {| _mqttClientConnected := _mqttClientConnected st; _shuttingDown :=
  _shuttingDown st; _messageAsyncTracking := _messageAsyncTracking st;
  _nodeClasses := _nodeClasses st; _nodes := _nodes st; _config := _config
  st; _configCounter := _configCounter st; shortPollValue := shortPollValue
  st; shortPollTimer := shortPollTimer st; longPollValue := longPollValue
  st; longPollTimer := longPollTimer st; _queue := _queue st; ident := ident
  st; promises := promises st; awaiting := awaiting st; microtasks :=
  microtasks st; timeouts := timeouts st; intervals := intervals st; next_id
  := next_id st; call_promise := call_promise st; published := published st;
  emitted := emitted st; logs := logs st; mqttEnded := mqttEnded st;
  subscriptions := v |}.

Definition set_shortPoll_cfg (v : option Z) (c : Config) : Config :=
  {| nodes := nodes c; customParams := customParams c; shortPoll := v;
     longPoll := longPoll c; newParamsDetected := newParamsDetected c |}.

Definition set_longPoll_cfg (v : option Z) (c : Config) : Config :=
  {| nodes := nodes c; customParams := customParams c;
     shortPoll := shortPoll c; longPoll := v;
     newParamsDetected := newParamsDetected c |}.

Definition set_newParamsDetected (v : bool) (c : Config) : Config :=
  {| nodes := nodes c; customParams := customParams c;
     shortPoll := shortPoll c; longPoll := longPoll c;
     newParamsDetected := Some v |}.

(** ** Run-time primitives *)

Definition log (e : LogEntry) (st : State) : State :=
  set_logs (logs st ++ [e]) st.

Definition emit (e : Event) (st : State) : State :=
  set_emitted (emitted st ++ [e]) st.

Definition fresh (st : State) : nat * State :=
  (next_id st, set_next_id (S (next_id st)) st).

(** [resolve] or [reject] of promise [p]: only a pending promise changes;
    the calls awaiting it become ready, in the order they started to wait. *)
Definition settle (p : nat) (v : PState) (st : State) : State :=
  match promises st !! p with
  | Some Pending =>
      let ready := filter (λ w, w.1 = p) (awaiting st) in
      let others := filter (λ w, w.1 ≠ p) (awaiting st) in
      set_microtasks (microtasks st ++ ready.*2)
        (set_awaiting others
           (set_promises (<[p := v]> (promises st)) st))
  | _ => st
  end.

Definition setTimeout (action : TimeoutAction) (delay : Z) (st : State) : State :=
  let '(id, st) := fresh st in
  set_timeouts (timeouts st ++ [(id, delay, action)]) st.

(** [setInterval(tick, delay)]: the handle and the new state; a delay of
    [None] is NaN. *)
Definition setInterval (isLongPoll : bool) (delay : option Z) (st : State)
  : nat * State :=
  let '(id, st) := fresh st in
  (id, set_intervals (intervals st ++ [(id, isLongPoll, delay)]) st).

(** [clearInterval(h)]; [clearInterval(undefined)] does nothing. *)
Definition clearInterval (h : option nat) (st : State) : State :=
  match h with
  | Some id => set_intervals (filter (λ t, t.1.1 ≠ id) (intervals st)) st
  | None => st
  end.

(** ** Sending *)

(** The message as [_sendMessage] publishes it: on the topic of the
    service, with the identity fields set. *)
Definition stamp (i : Identity) (message : Body) (service : option string)
  : Published :=
  {| p_mqtt_topic := match service with
                     | Some s => _stage i +:+ "/" +:+ s
                     | None => _sendTopic i
                     end;
     p_body := message;
     p_userId := _userId i;
     p_topic := _recvTopic i;
     p_profileNum := _profileNum i;
     p_id := _id i |}.

Definition _sendMessage (message : Body) (service : option string) (st : State)
  : State :=
  let m := stamp (ident st) message service in
  let st := emit (EMessageSent m) st in
  set_published (published st ++ [m]) st.

Definition isConnected (st : State) : bool := _mqttClientConnected st.

Definition sendMessage (message : Body) (st : State) : State :=
  if isConnected st then _sendMessage message None st else st.

(** The part of [sendMessageAsync] after the await: makes the promise, runs
    its executor, and stores the tracker under the key.  [connected] is
    what [isConnected()] returns in the executor; the tracker gets its
    [resolve] and [reject] in that branch only. *)
Definition sendMessageAsync_resume (c : Call) (st : State) : State :=
  let connected := isConnected st in
  let '(p, st) := fresh st in
  let st :=
    if connected then
      let st := set_promises (<[p := Pending]> (promises st)) st in
      let st := _sendMessage (call_message c) None st in
      if (call_timeout c =? 0)%Z then st
      else setTimeout (RejectTimeout p) (call_timeout c) st
    else set_promises (<[p := Rejected not_connected_error]> (promises st)) st in
  let newTracker := {| promise := p; has_callbacks := connected |} in
  let st := set_messageAsyncTracking
              (<[call_key c := newTracker]> (_messageAsyncTracking st)) st in
  set_call_promise (<[call_id c := p]> (call_promise st)) st.

(** [sendMessageAsync(key, message, timeout)]: the id of the call and the
    state when the call returns to its caller.  With a tracker under the
    key the call awaits its promise: it is suspended while that promise is
    pending, and made ready at once when it is settled. *)
Definition sendMessageAsync (key : string) (message : Body) (timeout : Z)
    (st : State) : nat * State :=
  let call id := {| call_id := id; call_key := key; call_message := message;
                    call_timeout := timeout |} in
  match _messageAsyncTracking st !! key with
  | Some tr =>
      match promises st !! promise tr with
      | Some Pending =>
          let '(id, st) := fresh st in
          (id, set_awaiting (awaiting st ++ [(promise tr, call id)]) st)
      | _ =>
          let '(id, st) := fresh st in
          (id, set_microtasks (microtasks st ++ [call id]) st)
      end
  | None =>
      let '(id, st) := fresh st in
      (id, sendMessageAsync_resume (call id) st)
  end.

(** The continuations made ready run one after the other, until none is
    left, before the next task. *)
Fixpoint run_microtasks (fuel : nat) (st : State) : State :=
  match fuel, microtasks st with
  | S fuel', c :: rest =>
      run_microtasks fuel' (sendMessageAsync_resume c (set_microtasks rest st))
  | _, _ => st
  end.

Definition drain (st : State) : State :=
  run_microtasks (length (microtasks st)) st.

(** The state of the promise a call of [sendMessageAsync] returned: the
    promise of an async function follows the promise its body returns, and
    is pending as long as the body has not returned. *)
Definition returned (st : State) (id : nat) : option PState :=
  match call_promise st !! id with
  | Some p => promises st !! p
  | None => Some Pending
  end.

(** ** addNode, delNode, stop *)

(** The guard of both methods: [!node instanceof Node], which JavaScript
    reads as [(!node) instanceof Node]. *)
Definition not_a_Node_guard (node : jsarg) : bool :=
  instanceof_Node (js_not node).

Definition hint_of (o : ObjArg) : option string :=
  match o_hint o with
  | JStr s => if truthy (JStr s) then Some s else None
  | _ => None
  end.

(** The message [addNode] builds from the object, after
    [node.convertDrivers()]. *)
Definition addnode_body (o : ObjArg) : Body :=
  BAddnode (o_address o) (o_name o) (o_id o) (o_primary o) (o_isController o)
    (JConverted (o_drivers o)) (hint_of o).

(** [addNode(node)]: how the body ends, the call of [sendMessageAsync] it
    made if any, and the state. *)
Definition addNode (node : jsarg) (st : State)
  : Completion * option nat * State :=
  if not_a_Node_guard node then
    (Normal, None,
     log (LError "addNode error: node is not an instance of Node class") st)
  else
    match node with
    | APrim JUndefined | APrim JNull =>
        (Throw "TypeError: Cannot read property 'convertDrivers'", None, st)
    | APrim _ => (Throw "TypeError: node.convertDrivers is not a function", None, st)
    | AObj o =>
        if o_hasConvertDrivers o then
          let message := addnode_body o in
          let st := log (LInfo "Sending message") st in
          let '(id, st) :=
            sendMessageAsync ("addnode-" +:+ to_str (o_address o)) message 15000 st in
          (Normal, Some id, st)
        else (Throw "TypeError: node.convertDrivers is not a function", None, st)
    end.

Definition delNode (node : jsarg) (st : State) : Completion * State :=
  if not_a_Node_guard node then
    (Normal,
     log (LError "delNode error: node is not an instance of Node class") st)
  else
    match node with
    | APrim JUndefined | APrim JNull =>
        (Throw "TypeError: Cannot read property 'address'", st)
    | APrim _ => (Normal, sendMessage (BRemovenode None) st)
    | AObj o => (Normal, sendMessage (BRemovenode (o_address o)) st)
    end.

Definition stop (st : State) : State :=
  let st := _sendMessage (BConnected false) None st in
  let st := set_mqttEnded true st in
  let st := clearInterval (shortPollTimer st) st in
  clearInterval (longPollTimer st) st.

(** ** Polling *)

Definition poll_name (poll : Poll) : string :=
  match poll with short => "short" | long => "long" end.

(** [this[poll + 'PollValue']] and [this[poll + 'PollTimer']]. *)
Definition pollValue (poll : Poll) (st : State) : option Z :=
  match poll with short => shortPollValue st | long => longPollValue st end.

Definition pollTimer (poll : Poll) (st : State) : option nat :=
  match poll with short => shortPollTimer st | long => longPollTimer st end.

Definition set_pollValue (poll : Poll) (v : option Z) (st : State) : State :=
  match poll with
  | short => set_shortPollValue v st
  | long => set_longPollValue v st
  end.

Definition set_pollTimer (poll : Poll) (v : option nat) (st : State) : State :=
  match poll with
  | short => set_shortPollTimer v st
  | long => set_longPollTimer v st
  end.

(** [poll === 'long']. *)
Definition isLongPoll (poll : Poll) : bool :=
  match poll with long => true | short => false end.

Definition show_value (v : option Z) : string :=
  match v with Some z => pretty z | None => "undefined" end.

Definition value_truthy (v : option Z) : bool :=
  match v with Some z => negb (z =? 0)%Z | None => false end.

(** [_checkPollingInterval(poll, newValue)]. *)
Definition _checkPollingInterval (poll : Poll) (newValue : option Z)
    (st : State) : State :=
  if decide (pollValue poll st ≠ newValue) then
    let st :=
      if value_truthy (pollValue poll st) then
        log (LInfo ("Change " +:+ poll_name poll +:+ "Poll value from "
                    +:+ show_value (pollValue poll st) +:+ " to "
                    +:+ show_value newValue)) st
      else
        log (LInfo ("Set " +:+ poll_name poll +:+ "Poll value to "
                    +:+ show_value newValue)) st in
    let st := match pollTimer poll st with
              | Some h => clearInterval (Some h) st
              | None => st
              end in
    let st := set_pollValue poll newValue st in
    let '(h, st) :=
      setInterval (isLongPoll poll) ((λ v, v * 1000)%Z <$> pollValue poll st) st in
    set_pollTimer poll (Some h) st
  else st.

(** The callback of the interval with handle [id], when it is armed. *)
Definition tick (id : nat) (st : State) : State :=
  match filter (λ t, t.1.1 = id) (intervals st) with
  | (_, isLong, _) :: _ =>
      if negb (_shuttingDown st) then emit (EPoll isLong) st else st
  | [] => st
  end.

(** ** Configuration *)

Definition params_keys (c : option Config) : list string :=
  match c with
  | Some c => match customParams c with
              | Some m => (map_to_list m).*1
              | None => []
              end
  | None => []
  end.

(** [c.customParams[key]], where it is read. *)
Definition params_get (c : option Config) (key : string) : option string :=
  c ← c; m ← customParams c; m !! key.

Definition changedParams (oldConfig : option Config) (newConfig : Config)
  : list string :=
  filter (λ key, negb (bool_decide (key ∈ params_keys oldConfig)
                       && bool_decide (params_get oldConfig key
                                       = params_get (Some newConfig) key))
                 = true)
         (params_keys (Some newConfig)).

(** [_setParamsDetected(oldConfig, newConfig)]: the new configuration with
    its flag set. *)
Definition _setParamsDetected (oldConfig : option Config) (newConfig : Config)
  : Config :=
  set_newParamsDetected
    (negb (length (changedParams oldConfig newConfig) =? 0)%nat) newConfig.

(** [_detectConfigLoop()]. *)
Definition _detectConfigLoop (st : State) : bool * State :=
  let st := set_configCounter (_configCounter st + 1)%Z st in
  let st := setTimeout DecrementConfigCounter 10000 st in
  ((30 <? _configCounter st)%Z, st).

Definition propertyMapper (prop : string) (v : jsval) : jsval :=
  if decide (prop = "timeAdded") then
    match v with JStr t => new_Date (parseInt10 t) | _ => v end
  else if decide (prop = "profileNum") then
    match v with JStr s => JBool (String.eqb s "true") | _ => v end
  else v.

Definition config_props : list string :=
  ["controller"; "drivers"; "isprimary"; "profileNum"; "timeAdded"].

(** The properties of the entry [n] copied to the record. *)
Definition update_node (n : NodeCfg) (node : Node) : Node :=
  foldl (λ node prop,
           match cn_props n !! prop with
           | Some v => set_prop prop (propertyMapper prop v) node
           | None => node
           end) node config_props.

(** [new NodeClass(_this, primary, address, n.name)] with
    [primary = n.primary.slice(5)], then [node.convertDrivers()]. *)
Definition fresh_node (address : string) (n : NodeCfg) : Node :=
  convertDrivers {| n_id := nodedefid n; n_primary := slice 5 (primary n);
                    n_address := address; n_name := name n; n_props := ∅ |}.

(** The body of the first loop of [_onConfig], for one address. *)
Definition onConfig_address (address : string) (n : NodeCfg) (st : State)
  : State :=
  match _nodes st !! address with
  | None =>
      if decide (nodedefid n ∈ _nodeClasses st) then
        let node := fresh_node address n in
        set_nodes (<[address := update_node n node]> (_nodes st)) st
      else
        log (LError ("Config node with address " +:+ address
                     +:+ " has an invalid class undefined")) st
  | Some node =>
      set_nodes (<[address := update_node n node]> (_nodes st)) st
  end.

(** The body of the second loop, for one address of the registry. *)
Definition onConfig_remove (config : Config) (address : string) (st : State)
  : State :=
  match nodes config !! address with
  | None =>
      let st := log (LInfo ("Node " +:+ address
                            +:+ " was removed from the config")) st in
      set_nodes (delete address (_nodes st)) st
  | Some _ => st
  end.

(** The two loops of [_onConfig].  They go through the keys in the order
    of the maps; what they do to one address does not depend on the
    others. *)
Definition onConfig_build (config : Config) (st : State) : State :=
  map_fold onConfig_address st (nodes config).

Definition onConfig_prune (config : Config) (st : State) : State :=
  if decide (size (nodes config) ≠ size (_nodes st)) then
    map_fold (λ address _ st, onConfig_remove config address st) st (_nodes st)
  else st.

(** [_onConfig(config, isInitialConfig)]. *)
Definition _onConfig (config : Config) (isInitialConfig : bool) (st : State)
  : State :=
  let st := onConfig_build config st in
  let st := onConfig_prune config st in
  let config := _setParamsDetected (_config st) config in
  let st := set_config (Some config) st in
  let st := _checkPollingInterval short (shortPoll config) st in
  let st := _checkPollingInterval long (longPoll config) st in
  let '(loop, st) := _detectConfigLoop st in
  if negb loop then
    emit (EConfig config isInitialConfig (_nodes st)) st
  else
    log (LError ("Config processing loop detected iteration "
                 +:+ pretty (_configCounter st)
                 +:+ ". Skipping config processing.")) st.

(** ** Results *)

Definition trackedCommands : list string := ["addnode"].

Definition ignoredKeys : list string :=
  ["removenode"; "profileNum"; "statusCode"; "seq"; "elapsed"; "status"].

(** The body of the loop of [_onResult], for one key. *)
Definition onResult_key (messageContent : list (string * ResultEntry))
    (key : string) (entry : ResultEntry) (st : State) : Completion * State :=
  if bool_decide (key ∈ trackedCommands) then
    match _messageAsyncTracking st !! (key +:+ "-" +:+ to_str (r_address entry)) with
    | Some trackedRequest =>
        if has_callbacks trackedRequest then
          if r_success entry then
            (Normal, settle (promise trackedRequest)
                       (Fulfilled (Reason (r_reason entry))) st)
          else
            (Normal, settle (promise trackedRequest)
                       (Rejected (Reason (r_reason entry))) st)
        else (Throw "TypeError: trackedRequest.resolve is not a function", st)
    | None => (Normal, st)
    end
  else if decide (key = "isyresponse") then
    match list_find (λ e, e.1 = "status") messageContent with
    | Some (_, (_, status)) =>
        (Normal, log (LInfo ("Received result ISY Response: "
                             +:+ r_reason status)) st)
    | None =>
        (Normal, log (LInfo "Received result ISY Response")
                   (log (LError "Error on Received result:") st))
    end
  else if bool_decide (key ∈ ignoredKeys) then (Normal, st)
  else
    (Normal, log (LInfo ("Received result for unhandled command " +:+ key)) st).

(** A loop over keys that an exception ends. *)
Fixpoint forEach {A : Type} (f : A → State → Completion * State)
    (l : list A) (st : State) : Completion * State :=
  match l with
  | [] => (Normal, st)
  | x :: l' =>
      match f x st with
      | (Normal, st') => forEach f l' st'
      | thrown => thrown
      end
  end.

Definition _onResult (messageContent : list (string * ResultEntry))
    (st : State) : Completion * State :=
  forEach (λ e, onResult_key messageContent e.1 e.2) messageContent st.

(** ** Inbound messages *)

Definition queuedMessages : list string :=
  ["config"; "query"; "command"; "status"; "polls"; "oauth";
   "startLogStream"; "stopLogStream"].

Definition ignoredMessages : list string :=
  ["userId"; "clientId"; "id"; "profileNum"].

(** [message.clientId ? message.clientId : null]. *)
Definition envelope_clientId (message : Envelope) : option string :=
  match list_find (λ e, e.1 = "clientId") message with
  | Some (_, (_, COther json)) => if String.eqb json "" then None else Some json
  | _ => None
  end.

(** The entries of a result payload; a payload of another shape has none. *)
Definition result_entries (c : Content) : list (string * ResultEntry) :=
  match c with CResult entries => entries | _ => [] end.

(** Modelled from the spec: Queue.js is not among the sources.  [add]
    appends the item to the pending list; a single worker takes the items
    one at a time, in order, and runs the handler on each. *)
Definition queue_add (item : QItem) (st : State) : State :=
  set_queue (_queue st ++ [item]) st.

(** The body of the loop of [_onMessage], for one key. *)
Definition onMessage_key (message : Envelope) (messageKey : string)
    (messageContent : Content) (st : State) : Completion * State :=
  if decide (messageKey = "result") then
    _onResult (result_entries messageContent) st
  else if decide (messageKey = "stop") then
    let st := log (LWarn "Received stop message") st in
    let st := set_shuttingDown true st in
    (Normal, emit EStop st)
  else if decide (messageKey = "delete") then
    let st := log (LWarn "Received delete message") st in
    let st := set_shuttingDown true st in
    (Normal, emit EDelete st)
  else if bool_decide (messageKey ∈ queuedMessages) then
    (Normal, queue_add {| messageKey := messageKey;
                          messageContent := messageContent;
                          clientId := envelope_clientId message |} st)
  else if bool_decide (messageKey ∈ ignoredMessages) then (Normal, st)
  else (Normal, log (LError ("Invalid message " +:+ messageKey +:+ " received")) st).

Definition _onMessage (message : Envelope) (st : State) : Completion * State :=
  let st := emit (EMessageReceived message) st in
  forEach (λ e, onMessage_key message e.1 e.2) message st.

(** [getNode(address)]: the record found, if any, and the state (it logs). *)
Definition getNode (address : jsval) (st : State) : option Node * State :=
  match address with
  | JStr a =>
      match _nodes st !! a with
      | Some node => (Some node, st)
      | None => (None, log (LError ("Node " +:+ a +:+ " not found")) st)
      end
  | _ => (None, log (LError "getNode error: Parameter is not a string") st)
  end.

(** The switch of [_onMessageQueued(opt)], on the key of the item.  The
    methods of the record it calls ([query], [status], [runCmd]) belong to
    Node.js and are kept as events.  A payload that does not have the shape
    its key announces makes the handler throw. *)
Definition onMessageQueued_switch (opt : QItem) (st : State)
  : Completion * State :=
  let messageKey := messageKey opt in
  let messageContent := messageContent opt in
  if decide (messageKey = "config") then
    match messageContent with
    | CConfig config => (Normal, _onConfig config false st)
    | _ => (Throw "TypeError: Cannot convert undefined or null to object", st)
    end
  else if decide (messageKey = "query") then
    match messageContent with
    | CAddress address _ =>
        match getNode address st with
        | (Some node, st) => (Normal, emit (ENodeCall (n_address node) "query") st)
        | (None, st) => (Normal, st)
        end
    | _ => (Normal, (getNode JUndefined st).2)
    end
  else if decide (messageKey = "status") then
    match messageContent with
    | CAddress address _ =>
        match getNode address st with
        | (Some node, st) => (Normal, emit (ENodeCall (n_address node) "status") st)
        | (None, st) => (Normal, st)
        end
    | _ => (Normal, (getNode JUndefined st).2)
    end
  else if decide (messageKey = "command") then
    match messageContent with
    | CAddress address requestId =>
        match getNode address st with
        | (Some node, st) =>
            let st := emit (ENodeCall (n_address node) "runCmd") st in
            match requestId with
            | Some r => (Normal, _sendMessage (BReport r true) (Some "isy") st)
            | None => (Normal, st)
            end
        | (None, st) => (Normal, st)
        end
    | _ => (Normal, (getNode JUndefined st).2)
    end
  else if decide (messageKey = "polls") then
    match messageContent, _config st with
    | CPolls shortPoll longPoll, Some config =>
        let st := set_config
                    (Some (set_longPoll_cfg longPoll
                             (set_shortPoll_cfg shortPoll config))) st in
        let st := _checkPollingInterval short shortPoll st in
        (Normal, _checkPollingInterval long longPoll st)
    | _, _ => (Throw "TypeError: Cannot set property 'shortPoll'", st)
    end
  else if decide (messageKey = "oauth") then
    (Normal, emit (EOauth messageContent) st)
  else
    (Normal, log (LError ("Invalid queued message " +:+ messageKey
                          +:+ " received")) st).

(** The other branch: the item is logged and dropped. *)
Definition onMessageQueued_drop (opt : QItem) (st : State)
  : Completion * State :=
  (Normal, log (LWarn ("Message " +:+ messageKey opt
                       +:+ " ignored: Shutting down nodeserver")) st).

(** [_onMessageQueued(opt)]. *)
Definition _onMessageQueued (opt : QItem) (st : State) : Completion * State :=
  if negb (_shuttingDown st) then onMessageQueued_switch opt st
  else onMessageQueued_drop opt st.

(** ** Tasks *)

Inductive MqttSignal := connect | reconnect | offline | close | ended | error.

(** What the node server may call. *)
Inductive ApiCall :=
| CallSendMessageAsync (key : string) (message : Body) (timeout : Z)
| CallSendMessage (message : Body)
| CallAddNode (node : jsarg)
| CallDelNode (node : jsarg)
| CallStop.

Inductive Input :=
| OnMqtt (signal : MqttSignal)       (* an event of the MQTT client, but 'message' *)
| OnMessage (message : Envelope)     (* the 'message' event, parsed *)
| OnDequeue                          (* the queue worker takes the next item *)
| OnTimeout (id : nat)               (* the setTimeout callback [id] is due *)
| OnTick (id : nat)                  (* the interval [id] fires *)
| OnCalls (calls : list ApiCall).    (* the node server runs and makes these calls *)

(** The handlers [start] registers on the MQTT client. *)
Definition onMqtt (signal : MqttSignal) (st : State) : State :=
  match signal with
  | error => log (LError "MQTT Error") st
  | connect =>
      let st := log (LInfo "MQTT client connected") st in
      let st := set_mqttClientConnected true st in
      let st := set_subscriptions (subscriptions st ++ [_recvTopic (ident st)]) st in
      let st := _sendMessage (BConnected true) None st in
      let st := emit (EMqtt "mqttConnected") st in
      match _config st with
      | Some config => _onConfig config true st
      | None => log (LError "Error on MQTT connect handler:") st
      end
  | reconnect => emit (EMqtt "mqttReconnect") (set_mqttClientConnected true st)
  | offline => emit (EMqtt "mqttOffline") (set_mqttClientConnected false st)
  | close => emit (EMqtt "mqttClose") (set_mqttClientConnected false st)
  | ended => emit (EMqtt "mqttEnd") (set_mqttClientConnected false st)
  end.

(** A [setTimeout] callback that is due: it runs once. *)
Definition onTimeout (id : nat) (st : State) : State :=
  match filter (λ t, t.1.1 = id) (timeouts st) with
  | (_, _, action) :: _ =>
      let st := set_timeouts (filter (λ t, t.1.1 ≠ id) (timeouts st)) st in
      match action with
      | DecrementConfigCounter => set_configCounter (_configCounter st - 1)%Z st
      | RejectTimeout p => settle p (Rejected timeout_error) st
      end
  | [] => st
  end.

(** The queue worker: takes the first item; an exception of the handler is
    caught and logged. *)
Definition onDequeue (st : State) : State :=
  match _queue st with
  | opt :: rest =>
      match _onMessageQueued opt (set_queue rest st) with
      | (Normal, st) => st
      | (Throw what, st) => log (LError what) st
      end
  | [] => st
  end.

Definition api_call (c : ApiCall) (st : State) : State :=
  match c with
  | CallSendMessageAsync key message timeout =>
      (sendMessageAsync key message timeout st).2
  | CallSendMessage message => sendMessage message st
  | CallAddNode node => (addNode node st).2
  | CallDelNode node => (delNode node st).2
  | CallStop => stop st
  end.

(** The synchronous part of a task. *)
Definition run (i : Input) (st : State) : State :=
  match i with
  | OnMqtt signal => onMqtt signal st
  | OnMessage message =>
      match _onMessage message st with
      | (Normal, st) => st
      | (Throw what, st) => log (LError what) st
      end
  | OnDequeue => onDequeue st
  | OnTimeout id => onTimeout id st
  | OnTick id => tick id st
  | OnCalls calls => foldl (λ st c, api_call c st) st calls
  end.

(** A whole task: the callback, then the continuations it made ready. *)
Definition step (i : Input) (st : State) : State := drain (run i st).

Definition steps (l : list Input) (st : State) : State :=
  foldl (λ st i, step i st) st l.

(** The interface as its constructor leaves it. *)
Definition init (identity : Identity) (declaredNodeClasses : list string)
    (config : option Config) : State :=
  {| _mqttClientConnected := false; _shuttingDown := false;
     _messageAsyncTracking := ∅;
     _nodeClasses := list_to_set declaredNodeClasses;
     _nodes := ∅; _config := config; _configCounter := 0;
     shortPollValue := None; shortPollTimer := None;
     longPollValue := None; longPollTimer := None;
     _queue := []; ident := identity;
     promises := ∅; awaiting := []; microtasks := []; timeouts := [];
     intervals := []; next_id := 0; call_promise := ∅;
     published := []; emitted := []; logs := [];
     mqttEnded := false; subscriptions := [] |}.

(** ** Footprints

    Most operations leave most of the state alone.  A footprint is a list
    of fields; [part fs src st] is [st] with the fields of [fs] taken from
    [src], and [only fs st st'] says that [st'] differs from [st] at most
    in the fields of [fs]. *)

Inductive Field :=
| F_mqttClientConnected | F_shuttingDown | F_messageAsyncTracking |
F_nodeClasses | F_nodes | F_config | F_configCounter | F_shortPollValue |
F_shortPollTimer | F_longPollValue | F_longPollTimer | F_queue | F_ident |
F_promises | F_awaiting | F_microtasks | F_timeouts | F_intervals |
F_next_id | F_call_promise | F_published | F_emitted | F_logs |
F_mqttEnded | F_subscriptions.

Definition field_index (f : Field) : nat :=
  match f with
  | F_mqttClientConnected => 0 | F_shuttingDown => 1 |
  F_messageAsyncTracking => 2 | F_nodeClasses => 3 | F_nodes => 4 |
  F_config => 5 | F_configCounter => 6 | F_shortPollValue => 7 |
  F_shortPollTimer => 8 | F_longPollValue => 9 | F_longPollTimer => 10 |
  F_queue => 11 | F_ident => 12 | F_promises => 13 | F_awaiting => 14 |
  F_microtasks => 15 | F_timeouts => 16 | F_intervals => 17 | F_next_id =>
  18 | F_call_promise => 19 | F_published => 20 | F_emitted => 21 | F_logs
  => 22 | F_mqttEnded => 23 | F_subscriptions => 24
  end.

Fixpoint same_index (n m : nat) : bool :=
  match n, m with
  | 0, 0 => true
  | S n', S m' => same_index n' m'
  | _, _ => false
  end.

Fixpoint has (fs : list Field) (f : Field) : bool :=
  match fs with
  | [] => false
  | g :: fs' =>
      if same_index (field_index g) (field_index f) then true else has fs' f
  end.

Definition part (fs : list Field) (src st : State) : State :=
  {| _mqttClientConnected := if has fs F_mqttClientConnected then _mqttClientConnected src else _mqttClientConnected st;
     _shuttingDown := if has fs F_shuttingDown then _shuttingDown src else _shuttingDown st;
     _messageAsyncTracking := if has fs F_messageAsyncTracking then _messageAsyncTracking src else _messageAsyncTracking st;
     _nodeClasses := if has fs F_nodeClasses then _nodeClasses src else _nodeClasses st;
     _nodes := if has fs F_nodes then _nodes src else _nodes st;
     _config := if has fs F_config then _config src else _config st;
     _configCounter := if has fs F_configCounter then _configCounter src else _configCounter st;
     shortPollValue := if has fs F_shortPollValue then shortPollValue src else shortPollValue st;
     shortPollTimer := if has fs F_shortPollTimer then shortPollTimer src else shortPollTimer st;
     longPollValue := if has fs F_longPollValue then longPollValue src else longPollValue st;
     longPollTimer := if has fs F_longPollTimer then longPollTimer src else longPollTimer st;
     _queue := if has fs F_queue then _queue src else _queue st;
     ident := if has fs F_ident then ident src else ident st;
     promises := if has fs F_promises then promises src else promises st;
     awaiting := if has fs F_awaiting then awaiting src else awaiting st;
     microtasks := if has fs F_microtasks then microtasks src else microtasks st;
     timeouts := if has fs F_timeouts then timeouts src else timeouts st;
     intervals := if has fs F_intervals then intervals src else intervals st;
     next_id := if has fs F_next_id then next_id src else next_id st;
     call_promise := if has fs F_call_promise then call_promise src else call_promise st;
     published := if has fs F_published then published src else published st;
     emitted := if has fs F_emitted then emitted src else emitted st;
     logs := if has fs F_logs then logs src else logs st;
     mqttEnded := if has fs F_mqttEnded then mqttEnded src else mqttEnded st;
     subscriptions := if has fs F_subscriptions then subscriptions src else subscriptions st |}.

Definition only (fs : list Field) (st st' : State) : Prop :=
  st' = part fs st' st.

(** The footprints of applying a configuration and of the ledger. *)
Definition config_footprint : list Field :=
  [F_nodes; F_config; F_configCounter; F_shortPollValue; F_shortPollTimer;
   F_longPollValue; F_longPollTimer; F_intervals; F_timeouts; F_next_id;
   F_emitted; F_logs].

Definition resume_footprint : list Field :=
  [F_next_id; F_promises; F_emitted; F_published; F_timeouts;
   F_messageAsyncTracking; F_call_promise].

Definition ledger_footprint : list Field :=
  F_awaiting :: F_microtasks :: resume_footprint.


Definition handler_footprint : list Field := F_published :: config_footprint.

Definition result_footprint : list Field :=
  [F_promises; F_awaiting; F_microtasks; F_logs].

Definition message_footprint : list Field :=
  F_shuttingDown :: F_emitted :: F_queue :: result_footprint.

Definition api_footprint : list Field :=
  F_logs :: F_mqttEnded :: F_intervals :: ledger_footprint.

(** Every field but the five the handles and the ledger live in. *)
Definition handle_free_footprint : list Field :=
  [F_mqttClientConnected; F_shuttingDown; F_nodeClasses; F_nodes;
   F_config; F_configCounter; F_shortPollValue; F_shortPollTimer;
   F_longPollValue; F_longPollTimer; F_queue; F_ident; F_microtasks;
   F_intervals; F_next_id; F_call_promise; F_published; F_emitted; F_logs;
   F_mqttEnded; F_subscriptions].

(** ** Reachable states and their handles *)

(** The states the interface goes through: the one its constructor
    leaves, and the one at the end of each task. *)
Inductive reachable : State → Prop :=
| reachable_init identity declaredNodeClasses config :
    reachable (init identity declaredNodeClasses config)
| reachable_step i st : reachable st → reachable (step i st).

Definition timeout_ids (st : State) : list nat := (timeouts st).*1.*1.

(** Handles are fresh: the promises and the timeouts in use are below the
    next handle, no two timeouts share a handle, and what a suspended call
    awaits is a promise. *)
Record wf (st : State) : Prop := {
  wf_promises : ∀ p, is_Some (promises st !! p) → p < next_id st;
  wf_timeouts : ∀ h, h ∈ timeout_ids st → h < next_id st;
  wf_timeouts_nodup : NoDup (timeout_ids st);
  wf_awaiting : ∀ w, w ∈ awaiting st → is_Some (promises st !! w.1)
}.

Definition settled (v : PState) : Prop := v ≠ Pending.

(** How the run-time data evolve from [st] to [st']: handles are only
    added, above the ones of [st]; promises stay, and stay as they are
    once settled; the ledger loses no key; a call is suspended until the
    promise it awaits is settled. *)
Record evolves (st st' : State) : Prop := {
  evolves_next_id : next_id st ≤ next_id st';
  evolves_promises_new : ∀ p, is_Some (promises st' !! p) →
    is_Some (promises st !! p) ∨ next_id st ≤ p < next_id st';
  evolves_promises_kept : ∀ p, is_Some (promises st !! p) →
    is_Some (promises st' !! p);
  evolves_settled : ∀ p v, promises st !! p = Some v → settled v →
    promises st' !! p = Some v;
  evolves_timeouts : ∀ h, h ∈ timeout_ids st' →
    h ∈ timeout_ids st ∨ next_id st ≤ h < next_id st';
  evolves_timeouts_nodup : NoDup (timeout_ids st');
  evolves_awaiting : ∀ w, w ∈ awaiting st' →
    w ∈ awaiting st ∨ is_Some (promises st' !! w.1);
  evolves_suspended : ∀ w, w ∈ awaiting st →
    w ∈ awaiting st' ∨ ∃ v, promises st' !! w.1 = Some v ∧ settled v;
  evolves_ledger : ∀ key, is_Some (_messageAsyncTracking st !! key) →
    is_Some (_messageAsyncTracking st' !! key)
}.

(** From a state whose handles are fresh. *)
Definition grows (st st' : State) : Prop := wf st → evolves st st'.

(** ** A session, for the examples *)

Definition identity0 : Identity :=
  {| _userId := "user"; _recvTopic := "prod/ns/worker";
     _sendTopic := "prod/ns"; _profileNum := "1"; _id := "id";
     _stage := "prod" |}.

Definition no_nodes : Config :=
  {| nodes := ∅; customParams := None; shortPoll := None; longPoll := None;
     newParamsDetected := None |}.

(** [{nodes: {a1: {nodedefid: "D1", primary: "n001_a1", name: "X"}}}],
    with poll periods. *)
Definition entry_a1 : NodeCfg :=
  {| nodedefid := "D1"; primary := "n001_a1"; name := "X"; cn_props := ∅ |}.

Definition snapshot_a1 : Config :=
  {| nodes := {["a1" := entry_a1]}; customParams := None;
     shortPoll := Some 30%Z; longPoll := Some 60%Z;
     newParamsDetected := None |}.

(** A snapshot whose only node has a class that is not declared. *)
Definition entry_b1 : NodeCfg :=
  {| nodedefid := "DX"; primary := "n001_b1"; name := "Y"; cn_props := ∅ |}.

Definition snapshot_b1 : Config :=
  {| nodes := {["b1" := entry_b1]}; customParams := None;
     shortPoll := Some 30%Z; longPoll := Some 60%Z;
     newParamsDetected := None |}.

Definition config_message (c : Config) : Input :=
  OnMessage [("config", CConfig c)].

(** The interface with class D1 declared, once connected. *)
Definition started : State :=
  step (OnMqtt connect) (init identity0 ["D1"] (Some no_nodes)).

(** Then with the snapshot of a1 applied. *)
Definition with_a1 : State :=
  steps [config_message snapshot_a1; OnDequeue] started.

(** Thirty snapshots applied without any of the decrements being due: the
    one of the connection and twenty-nine more. *)
Definition stormed : State :=
  steps (concat (replicate 29 [config_message no_nodes; OnDequeue])) started.

(** Configurations that differ by a removed parameter. *)
Definition params_ab : Config :=
  {| nodes := ∅; customParams := Some {["a" := "1"; "b" := "2"]};
     shortPoll := None; longPoll := None; newParamsDetected := None |}.

Definition params_a : Config :=
  {| nodes := ∅; customParams := Some {["a" := "1"]};
     shortPoll := None; longPoll := None; newParamsDetected := None |}.

(** A plain object [{address: "a1"}], and a record of class D1. *)
Definition plain_object : ObjArg :=
  {| o_isNode := false; o_hasConvertDrivers := false;
     o_address := Some "a1"; o_name := None; o_id := None;
     o_primary := None; o_isController := JUndefined;
     o_drivers := JUndefined; o_hint := JUndefined |}.

Definition node_object : ObjArg :=
  {| o_isNode := true; o_hasConvertDrivers := true;
     o_address := Some "a1"; o_name := Some "X"; o_id := Some "D1";
     o_primary := Some "a1"; o_isController := JBool false;
     o_drivers := JObject "{}"; o_hint := JUndefined |}.

(** Three sends for one key, then the result of the first. *)
Definition addnode_call (json : string) : Input :=
  OnCalls [CallSendMessageAsync "addnode-a1" (BOther json) 15000].

Definition addnode_result (success : bool) (reason : string) : Input :=
  OnMessage [("result",
              CResult [("addnode", {| r_address := Some "a1";
                                      r_success := success;
                                      r_reason := reason |})])].

Definition one_sent : State := step (addnode_call "first") started.

Definition three_sent : State :=
  steps [addnode_call "second"; addnode_call "third"] one_sent.

(** ** Notions of the specification *)

(** No repeating timer of the class is armed. *)
Definition no_timer_for (poll : Poll) (st : State) : Prop :=
  ∀ t, t ∈ intervals st → t.1.2 ≠ isLongPoll poll.


(** The [customParams] of a configuration, empty when there is none. *)
Definition params (c : option Config) : gmap string string :=
  default ∅ (c ≫= customParams).

(** The keys of a message, as [Object.keys(message)]. *)
Definition keys_of (message : Envelope) : list string := message.*1.

(** ** Notions of the further properties *)

(** The items [_onMessage] hands to the queue for a message: one for each
    of its keys that is among [queuedMessages], in the order of the keys. *)
Definition queued_items (message : Envelope) (keys : Envelope) : list QItem :=
  omap (λ e, if bool_decide (e.1 ∈ queuedMessages)
             then Some {| messageKey := e.1; messageContent := e.2;
                          clientId := envelope_clientId message |}
             else None) keys.

(** The timeouts that will decrement the loop counter, one for each
    snapshot applied in the last ten seconds. *)
Definition is_decrement (t : nat * Z * TimeoutAction) : bool :=
  match t.2 with DecrementConfigCounter => true | RejectTimeout _ => false end.

Definition pending_decrements (st : State) : nat :=
  length (filter (λ t, is_decrement t = true) (timeouts st)).

Definition poll_of (isLong : bool) : Poll := if isLong then long else short.

(** The timers agree with the fields that describe them: the loop counter
    counts the decrements to come; an armed interval is the timer stored
    for its class, with the stored period as its delay; no interval is
    armed twice, and the handles in use are below the next one. *)
Record timers_ok (st : State) : Prop := {
  counter_ok : _configCounter st = Z.of_nat (pending_decrements st);
  intervals_below : ∀ t, t ∈ intervals st → t.1.1 < next_id st;
  intervals_nodup : NoDup (intervals st);
  intervals_current : ∀ h isLong d, (h, isLong, d) ∈ intervals st →
    pollTimer (poll_of isLong) st = Some h
    ∧ d = (λ v, v * 1000)%Z <$> pollValue (poll_of isLong) st
}.

Definition tidy (st : State) : Prop := wf st ∧ timers_ok st.

(** The ledger agrees with the promises: the promise of an entry exists,
    and an entry without callbacks is one whose promise was rejected when
    it was made, for want of a connection. *)
Definition ledger_ok (st : State) : Prop :=
  ∀ key tr, _messageAsyncTracking st !! key = Some tr →
    is_Some (promises st !! promise tr)
    ∧ (has_callbacks tr = false →
       promises st !! promise tr = Some (Rejected not_connected_error)).

Definition sound (st : State) : Prop := wf st ∧ ledger_ok st.

(** ** Custom parameters *)





Section CustomParams.

(** The body [{customparams: params}] of the message, as the JSON text that
    is published; [None] is null.  The text is given by [JSON.stringify],
    which is not among the sources: it is a parameter here. *)
Variable customparams : option (gmap string string) → string.




End CustomParams.

(** ** The logger (lib/logger.js) *)

(** [k] copies of the character [c] before [s]. *)
Fixpoint fill (k : nat) (c : ascii) (s : string) : string :=
  match k with
  | 0 => s
  | S k' => String c (fill k' c s)
  end.

(** [s.padStart(n, c)] for a one-character filler. *)
Definition padStart (n : nat) (c : ascii) (s : string) : string :=
  fill (n - String.length s) c s.

(** [zPad2(x)] for an integer: [x.toString().padStart(2, '0')]. *)
Definition zPad2 (x : Z) : string := padStart 2 "0"%char (pretty x).

(** What the formatter reads of a valid [Date]: [getFullYear()],
    [getMonth()] (from 0), [getDate()], [getHours()], [getMinutes()] and
    [getSeconds()]. *)
Record DateParts := mkDateParts {
  fullYear : Z;
  month : Z;
  date : Z;
  hours : Z;
  minutes : Z;
  seconds : Z
}.

(** The text [dStr] of [logFormatter]. *)
Definition dStr (d : DateParts) : string :=
  pretty (fullYear d) +:+ "-" +:+ zPad2 (month d + 1) +:+ "-"
  +:+ zPad2 (date d) +:+ " " +:+ zPad2 (hours d) +:+ ":"
  +:+ zPad2 (minutes d) +:+ ":" +:+ zPad2 (seconds d).

(** The components of a date of the years 1000 to 9999. *)
Definition four_digit_date (d : DateParts) : Prop :=
  (1000 ≤ fullYear d ≤ 9999 ∧ 0 ≤ month d ≤ 11 ∧ 1 ≤ date d ≤ 31
   ∧ 0 ≤ hours d ≤ 23 ∧ 0 ≤ minutes d ≤ 59 ∧ 0 ≤ seconds d ≤ 59)%Z.

(** * Properties *)

(** ** Reading a field of an updated state

    [st_red] computes the fields of a state built by the setters and the
    run-time primitives; it is used once the case analysis is done. *)
Ltac st_red :=
  lazy [
        _mqttClientConnected _shuttingDown _messageAsyncTracking
        _nodeClasses _nodes _config _configCounter shortPollValue
        shortPollTimer longPollValue longPollTimer _queue ident
        promises awaiting microtasks timeouts intervals next_id
        call_promise published emitted logs mqttEnded subscriptions
        set_mqttClientConnected set_shuttingDown
        set_messageAsyncTracking set_nodes set_config
        set_configCounter set_shortPollValue set_shortPollTimer
        set_longPollValue set_longPollTimer set_queue set_promises
        set_awaiting set_microtasks set_timeouts set_intervals
        set_next_id set_call_promise set_published set_emitted
        set_logs set_mqttEnded set_subscriptions set_pollValue
        set_pollTimer pollValue pollTimer log emit fresh setTimeout
        setInterval clearInterval isConnected _sendMessage sendMessage
        queue_add part has field_index same_index
        config_footprint resume_footprint ledger_footprint
        handler_footprint result_footprint message_footprint api_footprint
        handle_free_footprint timeout_ids ].

Ltac st_eq := st_red; reflexivity.

(** The same in the hypotheses too, for [lia] and [congruence] to see
    the same terms everywhere. *)
Ltac st_red_all :=
  lazy [
        _mqttClientConnected _shuttingDown _messageAsyncTracking
        _nodeClasses _nodes _config _configCounter shortPollValue
        shortPollTimer longPollValue longPollTimer _queue ident
        promises awaiting microtasks timeouts intervals next_id
        call_promise published emitted logs mqttEnded subscriptions
        set_mqttClientConnected set_shuttingDown
        set_messageAsyncTracking set_nodes set_config
        set_configCounter set_shortPollValue set_shortPollTimer
        set_longPollValue set_longPollTimer set_queue set_promises
        set_awaiting set_microtasks set_timeouts set_intervals
        set_next_id set_call_promise set_published set_emitted
        set_logs set_mqttEnded set_subscriptions set_pollValue
        set_pollTimer pollValue pollTimer log emit fresh setTimeout
        setInterval clearInterval isConnected _sendMessage sendMessage
        queue_add part has field_index same_index
        config_footprint resume_footprint ledger_footprint
        handler_footprint result_footprint message_footprint api_footprint
        handle_free_footprint timeout_ids ] in *.

Lemma map_fold_preserves {A B} (π : State → B) (f : string → A → State → State)
    (m : gmap string A) (st : State) :
  (∀ k v s, π (f k v s) = π s) → π (map_fold f st m) = π st.
Proof.
  intros Hf. apply (map_fold_weak_ind (λ r _, π r = π st)); [done|].
  intros i x m' r _ IH. by rewrite Hf.
Qed.

(** ** The poll timers *)

Lemma checkPollingInterval_same poll v st :
  pollValue poll st = v → _checkPollingInterval poll v st = st.
Proof. intros H. unfold _checkPollingInterval. by case_decide. Qed.

Lemma checkPollingInterval_changed poll v st :
  pollValue poll st ≠ v →
  let st' := _checkPollingInterval poll v st in
  pollValue poll st' = v
  ∧ pollTimer poll st' = Some (next_id st)
  ∧ intervals st'
    = intervals (clearInterval (pollTimer poll st) st)
      ++ [(next_id st, isLongPoll poll, (λ z, z * 1000)%Z <$> v)].
Proof.
  intros H. unfold _checkPollingInterval, setInterval. case_decide; [|done].
  destruct (value_truthy _), poll.
  - destruct (shortPollTimer st) eqn:E;
      (replace (pollTimer short (log _ st)) with (shortPollTimer st) by done);
      unfold pollValue, pollTimer; rewrite E; repeat split; st_eq.
  - destruct (longPollTimer st) eqn:E;
      (replace (pollTimer long (log _ st)) with (longPollTimer st) by done);
      unfold pollValue, pollTimer; rewrite E; repeat split; st_eq.
  - destruct (shortPollTimer st) eqn:E;
      (replace (pollTimer short (log _ st)) with (shortPollTimer st) by done);
      unfold pollValue, pollTimer; rewrite E; repeat split; st_eq.
  - destruct (longPollTimer st) eqn:E;
      (replace (pollTimer long (log _ st)) with (longPollTimer st) by done);
      unfold pollValue, pollTimer; rewrite E; repeat split; st_eq.
Qed.

Lemma checkPollingInterval_value poll v st :
  pollValue poll (_checkPollingInterval poll v st) = v.
Proof.
  destruct (decide (pollValue poll st = v)) as [H|H].
  - by rewrite checkPollingInterval_same.
  - by apply checkPollingInterval_changed.
Qed.

Ltac open_checkPolling :=
  unfold _checkPollingInterval, setInterval, fresh;
  repeat (case_decide || case_match);
  repeat match goal with poll : Poll |- _ => destruct poll end.

Lemma checkPollingInterval_other_value poll poll' v st :
  poll ≠ poll' →
  pollValue poll' (_checkPollingInterval poll v st) = pollValue poll' st.
Proof. intros Hne. open_checkPolling; try done; st_eq. Qed.

(** ** Footprints *)

(** The equation [H] between two states, field by field. *)
Ltac by_field H :=
  pose proof (f_equal _mqttClientConnected H); pose proof (f_equal
  _shuttingDown H); pose proof (f_equal _messageAsyncTracking H); pose
  proof (f_equal _nodeClasses H); pose proof (f_equal _nodes H); pose
  proof (f_equal _config H); pose proof (f_equal _configCounter H); pose
  proof (f_equal shortPollValue H); pose proof (f_equal shortPollTimer
  H); pose proof (f_equal longPollValue H); pose proof (f_equal
  longPollTimer H); pose proof (f_equal _queue H); pose proof (f_equal
  ident H); pose proof (f_equal promises H); pose proof (f_equal
  awaiting H); pose proof (f_equal microtasks H); pose proof (f_equal
  timeouts H); pose proof (f_equal intervals H); pose proof (f_equal
  next_id H); pose proof (f_equal call_promise H); pose proof (f_equal
  published H); pose proof (f_equal emitted H); pose proof (f_equal logs
  H); pose proof (f_equal mqttEnded H); pose proof (f_equal
  subscriptions H);
  clear H; cbn [part _mqttClientConnected _shuttingDown _messageAsyncTracking _nodeClasses _nodes _config _configCounter shortPollValue shortPollTimer longPollValue longPollTimer _queue ident promises awaiting microtasks timeouts intervals next_id call_promise published emitted logs mqttEnded subscriptions] in *.

Lemma state_ext (s s' : State) :
  _mqttClientConnected s = _mqttClientConnected s' ∧ _shuttingDown s =
  _shuttingDown s' ∧ _messageAsyncTracking s = _messageAsyncTracking s'
  ∧ _nodeClasses s = _nodeClasses s' ∧ _nodes s = _nodes s' ∧ _config s
  = _config s' ∧ _configCounter s = _configCounter s' ∧ shortPollValue s
  = shortPollValue s' ∧ shortPollTimer s = shortPollTimer s' ∧
  longPollValue s = longPollValue s' ∧ longPollTimer s = longPollTimer
  s' ∧ _queue s = _queue s' ∧ ident s = ident s' ∧ promises s = promises
  s' ∧ awaiting s = awaiting s' ∧ microtasks s = microtasks s' ∧
  timeouts s = timeouts s' ∧ intervals s = intervals s' ∧ next_id s =
  next_id s' ∧ call_promise s = call_promise s' ∧ published s =
  published s' ∧ emitted s = emitted s' ∧ logs s = logs s' ∧ mqttEnded s
  = mqttEnded s' ∧ subscriptions s = subscriptions s' →
  s = s'.
Proof. destruct s, s'. cbn. intros. repeat f_equal; tauto. Qed.

Lemma only_refl fs st : only fs st st.
Proof. unfold only. apply state_ext; cbn; repeat split; by case_match. Qed.

Lemma only_incl fs fs' st st' :
  (∀ f, has fs f = true → has fs' f = true) → only fs st st' → only fs' st st'.
Proof.
  unfold only. intros Hi H. by_field H.
  apply state_ext; cbn; repeat split.
  all: match goal with |- _ = if has _ ?f then _ else _ =>
         specialize (Hi f); destruct (has fs f), (has fs' f);
         first [ congruence | by discriminate (Hi eq_refl) ] end.
Qed.

Lemma only_trans fs s0 s1 s2 :
  only fs s0 s1 → only fs s1 s2 → only fs s0 s2.
Proof.
  unfold only. intros H1 H. by_field H. rename H1 into H. by_field H.
  apply state_ext; cbn; repeat split.
  all: match goal with |- _ = if has _ ?f then _ else _ =>
         destruct (has fs f); congruence end.
Qed.

(** [only_by lem] peels the last operation off the goal [only fs st (op s)],
    using the footprint [lem] of that operation. *)
Ltac incl := intros []; vm_compute; (done || by intros).
Ltac only_by lem :=
  eapply only_trans; [|eapply only_incl; [|apply lem]; incl].
Ltac only_prim := unfold only; st_eq.
(** In the goal, reads the fields of [op st] outside of its footprint
    [lem] from [st]. *)
Ltac frame lem := rewrite lem; st_red.

Lemma log_only e st : only [F_logs] st (log e st).
Proof. only_prim. Qed.
Lemma emit_only e st : only [F_emitted] st (emit e st).
Proof. only_prim. Qed.
Lemma sendMessage_only m s st :
  only [F_published; F_emitted] st (_sendMessage m s st).
Proof. only_prim. Qed.

Lemma checkPollingInterval_only poll v st :
  only [F_logs; F_intervals; F_next_id; F_shortPollValue; F_shortPollTimer;
        F_longPollValue; F_longPollTimer] st (_checkPollingInterval poll v st).
Proof. open_checkPolling; only_prim. Qed.

(** The handles it takes are for intervals: none of the promises, the
    timeouts or the ledger is written.  Its next handle is above. *)
Lemma checkPollingInterval_next_id poll v st :
  next_id st ≤ next_id (_checkPollingInterval poll v st).
Proof. open_checkPolling; st_red; lia. Qed.

Lemma map_fold_only {A} fs (f : string → A → State → State)
    (m : gmap string A) st :
  (∀ k v s, only fs s (f k v s)) → only fs st (map_fold f st m).
Proof.
  intros Hf. apply (map_fold_weak_ind (λ r _, only fs st r)).
  - apply only_refl.
  - intros i x m' r _ IH. eapply only_trans; [exact IH|apply Hf].
Qed.

Lemma onConfig_build_only config st :
  only [F_nodes; F_logs] st (onConfig_build config st).
Proof.
  apply map_fold_only. intros k v s. unfold onConfig_address.
  repeat (case_decide || case_match); only_prim.
Qed.

Lemma onConfig_prune_only config st :
  only [F_nodes; F_logs] st (onConfig_prune config st).
Proof.
  unfold onConfig_prune. case_decide; [|apply only_refl].
  apply map_fold_only. intros k v s. unfold onConfig_remove.
  repeat (case_decide || case_match); only_prim.
Qed.

Lemma detectConfigLoop_only st :
  only [F_configCounter; F_next_id; F_timeouts] st (_detectConfigLoop st).2.
Proof. unfold _detectConfigLoop, setTimeout, fresh. only_prim. Qed.

Lemma onConfig_only config isInitialConfig st :
  only config_footprint st (_onConfig config isInitialConfig st).
Proof.
  unfold _onConfig.
  match goal with |- context [_detectConfigLoop ?s] =>
    pose proof (detectConfigLoop_only s) as Hd;
    destruct (_detectConfigLoop s) as [loop s3]; cbn [snd] in Hd;
    eapply (only_trans _ _ s3); [|case_match; only_prim];
    eapply only_trans; [|eapply only_incl; [|exact Hd]; incl]; clear Hd
  end.
  only_by checkPollingInterval_only.
  only_by checkPollingInterval_only.
  eapply only_trans; [|only_prim].
  only_by onConfig_prune_only.
  eapply only_incl; [|apply onConfig_build_only]. incl.
Qed.

(** ** The registry under a snapshot *)

Lemma onConfig_address_classes address n st :
  _nodeClasses (onConfig_address address n st) = _nodeClasses st.
Proof.
  unfold onConfig_address. destruct (_nodes st !! address); [done|].
  by case_decide.
Qed.

Lemma onConfig_address_nodes address n st a :
  _nodes (onConfig_address address n st) !! a =
  if decide (address = a) then
    match _nodes st !! a with
    | Some node => Some (update_node n node)
    | None => if decide (nodedefid n ∈ _nodeClasses st)
              then Some (update_node n (fresh_node a n)) else None
    end
  else _nodes st !! a.
Proof.
  unfold onConfig_address. destruct (decide (address = a)) as [->|Ha].
  - destruct (_nodes st !! a) eqn:E; simpl.
    + by rewrite lookup_insert_eq.
    + case_decide; simpl; [by rewrite lookup_insert_eq|done].
  - destruct (_nodes st !! address) eqn:E; simpl.
    + by rewrite lookup_insert_ne.
    + case_decide; simpl; [by rewrite lookup_insert_ne|done].
Qed.

(** The first loop: the addresses of the snapshot are updated, or created
    when their class is declared; the others are left as they are. *)
Lemma onConfig_build_nodes config st a :
  _nodes (onConfig_build config st) !! a =
  match nodes config !! a with
  | Some n =>
      match _nodes st !! a with
      | Some node => Some (update_node n node)
      | None => if decide (nodedefid n ∈ _nodeClasses st)
                then Some (update_node n (fresh_node a n)) else None
      end
  | None => _nodes st !! a
  end.
Proof.
  unfold onConfig_build. revert a.
  apply (map_fold_weak_ind (λ r m,
    _nodeClasses r = _nodeClasses st ∧
    ∀ a, _nodes r !! a =
         match m !! a with
         | Some n =>
             match _nodes st !! a with
             | Some node => Some (update_node n node)
             | None => if decide (nodedefid n ∈ _nodeClasses st)
                       then Some (update_node n (fresh_node a n)) else None
             end
         | None => _nodes st !! a
         end)).
  - split; [done|]. intros a. by rewrite lookup_empty.
  - intros i x m r Hi [Hc IH]. split.
    + by rewrite onConfig_address_classes.
    + intros a. rewrite onConfig_address_nodes, Hc.
      destruct (decide (i = a)) as [->|Ha].
      * rewrite lookup_insert_eq, IH, Hi. done.
      * rewrite lookup_insert_ne by done. apply IH.
Qed.

Lemma onConfig_remove_nodes config address st a :
  _nodes (onConfig_remove config address st) !! a =
  if decide (address = a ∧ nodes config !! a = None) then None
  else _nodes st !! a.
Proof.
  unfold onConfig_remove.
  destruct (decide (address = a ∧ nodes config !! a = None)) as [H|H].
  - destruct H as [-> H]. rewrite H. simpl. apply lookup_delete_eq.
  - destruct (nodes config !! address) eqn:E; [done|]. simpl.
    rewrite lookup_delete_ne; [done|]. intros ->. by apply H.
Qed.

(** The second loop, when it runs: the addresses that the snapshot does
    not have are deleted. *)
Lemma onConfig_remove_loop config (m : gmap string Node) st a :
  _nodes (map_fold (λ address _ st, onConfig_remove config address st) st m) !! a =
  match m !! a, nodes config !! a with
  | Some _, None => None
  | _, _ => _nodes st !! a
  end.
Proof.
  revert a.
  apply (map_fold_weak_ind (λ r m, ∀ a, _nodes r !! a =
    match m !! a, nodes config !! a with
    | Some _, None => None
    | _, _ => _nodes st !! a
    end)).
  - intros a. by rewrite lookup_empty.
  - intros i x m' r Hi IH a. rewrite onConfig_remove_nodes, IH.
    destruct (decide (i = a ∧ nodes config !! a = None)) as [H|H].
    + destruct H as [-> H]. by rewrite lookup_insert_eq, H.
    + destruct (decide (i = a)) as [->|Hne].
      * rewrite lookup_insert_eq, Hi.
        destruct (nodes config !! a); [done|]. exfalso. by apply H.
      * by rewrite lookup_insert_ne.
Qed.

Lemma onConfig_prune_nodes config st a :
  _nodes (onConfig_prune config st) !! a =
  if decide (size (nodes config) ≠ size (_nodes st)) then
    match nodes config !! a with
    | Some _ => _nodes st !! a
    | None => None
    end
  else _nodes st !! a.
Proof.
  unfold onConfig_prune. case_decide; [|done].
  rewrite onConfig_remove_loop.
  destruct (_nodes st !! a), (nodes config !! a); done.
Qed.

(** ** What a snapshot does to the state *)

Ltac open_onConfig :=
  unfold _onConfig, _detectConfigLoop, setTimeout, fresh.

Lemma onConfig_loops_only config st :
  only [F_nodes; F_logs] st (onConfig_prune config (onConfig_build config st)).
Proof.
  eapply only_trans; [apply onConfig_build_only|apply onConfig_prune_only].
Qed.

Lemma onConfig_nodes config isInitialConfig st :
  _nodes (_onConfig config isInitialConfig st)
  = _nodes (onConfig_prune config (onConfig_build config st)).
Proof.
  open_onConfig. case_match; st_red.
  all: by do 2 frame checkPollingInterval_only.
Qed.






(** ** The ledger of correlated requests *)

Ltac open_resume :=
  unfold only, sendMessageAsync_resume, fresh;
  match goal with
  | |- context [isConnected ?st] =>
      let E := fresh "Econn" in destruct (isConnected st) eqn:E
  end;
  try match goal with
  | |- context [(?t =? 0)%Z] => destruct (t =? 0)%Z eqn:?
  end.

Lemma resume_only c st :
  only resume_footprint st (sendMessageAsync_resume c st).
Proof. open_resume; only_prim. Qed.

Lemma settle_only p v st :
  only [F_promises; F_awaiting; F_microtasks] st (settle p v st).
Proof. unfold settle. repeat case_match; only_prim. Qed.

Lemma sendMessageAsync_only key message timeout st :
  only ledger_footprint st (sendMessageAsync key message timeout st).2.
Proof.
  unfold sendMessageAsync, fresh.
  repeat case_match; cbn [snd]; try only_prim.
  eapply only_trans; [|eapply only_incl; [|apply resume_only]; incl].
  only_prim.
Qed.

Lemma run_microtasks_only fuel st :
  only ledger_footprint st (run_microtasks fuel st).
Proof.
  revert st. induction fuel as [|fuel IH]; intros st; [apply only_refl|].
  cbn [run_microtasks]. destruct (microtasks st) as [|c rest]; [apply only_refl|].
  eapply only_trans; [|apply IH].
  only_by resume_only. only_prim.
Qed.

Lemma drain_only st : only ledger_footprint st (drain st).
Proof. apply run_microtasks_only. Qed.

(** *** Fresh handles *)

Lemma resume_next_id c st :
  next_id st < next_id (sendMessageAsync_resume c st).
Proof. open_resume; st_red; lia. Qed.

Lemma resume_promises_old c st p :
  p < next_id st →
  promises (sendMessageAsync_resume c st) !! p = promises st !! p.
Proof.
  intros Hp. open_resume; st_red_all; rewrite lookup_insert_ne by lia; done.
Qed.

Lemma run_microtasks_next_id fuel st :
  (next_id st ≤ next_id (run_microtasks fuel st))%nat.
Proof.
  revert st. induction fuel as [|fuel IH]; intros st; [done|].
  cbn [run_microtasks]. destruct (microtasks st) as [|c rest]; [done|].
  etrans; [|apply IH]. pose proof (resume_next_id c (set_microtasks rest st)) as H.
  st_red_all. lia.
Qed.

Lemma run_microtasks_promises_old fuel st p :
  p < next_id st →
  promises (run_microtasks fuel st) !! p = promises st !! p.
Proof.
  revert st. induction fuel as [|fuel IH]; intros st Hp; [done|].
  cbn [run_microtasks]. destruct (microtasks st) as [|c rest]; [done|].
  rewrite IH.
  - by rewrite resume_promises_old.
  - pose proof (resume_next_id c (set_microtasks rest st)) as H.
    st_red_all. lia.
Qed.

Lemma run_microtasks_empty fuel st :
  (length (microtasks st) ≤ fuel)%nat → microtasks (run_microtasks fuel st) = [].
Proof.
  revert st. induction fuel as [|fuel IH]; intros st Hl.
  - cbn. destruct (microtasks st); [done|]. cbn in Hl. lia.
  - cbn [run_microtasks]. destruct (microtasks st) as [|c rest] eqn:E; [done|].
    apply IH. frame resume_only. cbn in Hl. lia.
Qed.

(** Every continuation made ready has run when the task ends. *)
Lemma drain_microtasks st : microtasks (drain st) = [].
Proof. by apply run_microtasks_empty. Qed.

Lemma drain_idle st : microtasks st = [] → drain st = st.
Proof. intros H. unfold drain. rewrite H. done. Qed.

(** ** Footprints of the handlers *)

Lemma forEach_only {A} fs (f : A → State → Completion * State) l st :
  (∀ x s, only fs s (f x s).2) → only fs st (forEach f l st).2.
Proof.
  intros Hf. revert st. induction l as [|x l IH]; intros st; [apply only_refl|].
  cbn [forEach]. pose proof (Hf x st) as Hx.
  destruct (f x st) as [[|what] st']; cbn [snd] in *; [|done].
  eapply only_trans; [exact Hx|apply IH].
Qed.

Lemma getNode_only address st : only [F_logs] st (getNode address st).2.
Proof. unfold getNode. repeat case_match; cbn [snd]; only_prim. Qed.

Lemma getNode_found address st node st' :
  getNode address st = (Some node, st') → st' = st.
Proof. unfold getNode. repeat case_match; by intros [= <- <-]. Qed.


Lemma onMessageQueued_switch_only opt st :
  only handler_footprint st (onMessageQueued_switch opt st).2.
Proof.
  unfold onMessageQueued_switch.
  repeat case_decide.
  - destruct (messageContent opt); cbn [snd]; try apply only_refl.
    eapply only_incl; [|apply onConfig_only]. incl.
  - destruct (messageContent opt); cbn [snd];
      try (eapply only_incl; [|apply getNode_only]; incl).
    destruct (getNode address st) as [[node|] st'] eqn:E; cbn [snd].
    + apply getNode_found in E as ->. only_prim.
    + pose proof (getNode_only address st) as Hg. rewrite E in Hg.
      eapply only_incl; [|exact Hg]. incl.
  - destruct (messageContent opt); cbn [snd];
      try (eapply only_incl; [|apply getNode_only]; incl).
    destruct (getNode address st) as [[node|] st'] eqn:E; cbn [snd].
    + apply getNode_found in E as ->. only_prim.
    + pose proof (getNode_only address st) as Hg. rewrite E in Hg.
      eapply only_incl; [|exact Hg]. incl.
  - destruct (messageContent opt); cbn [snd];
      try (eapply only_incl; [|apply getNode_only]; incl).
    destruct (getNode address st) as [[node|] st'] eqn:E; cbn [snd].
    + apply getNode_found in E as ->. destruct requestId; cbn [snd]; only_prim.
    + pose proof (getNode_only address st) as Hg. rewrite E in Hg.
      eapply only_incl; [|exact Hg]. incl.
  - destruct (messageContent opt), (_config st); cbn [snd];
      try apply only_refl.
    only_by checkPollingInterval_only. only_by checkPollingInterval_only.
    only_prim.
  - cbn [snd]. only_prim.
  - cbn [snd]. only_prim.
Qed.

Lemma onMessageQueued_only opt st :
  only handler_footprint st (_onMessageQueued opt st).2.
Proof.
  unfold _onMessageQueued, onMessageQueued_drop. case_match.
  - apply onMessageQueued_switch_only.
  - cbn [snd]. only_prim.
Qed.

Lemma onDequeue_only st : only (F_queue :: handler_footprint) st (onDequeue st).
Proof.
  unfold onDequeue. destruct (_queue st) as [|opt rest]; [apply only_refl|].
  pose proof (onMessageQueued_only opt (set_queue rest st)) as H.
  destruct (_onMessageQueued opt (set_queue rest st)) as [[|what] st'];
    cbn [snd] in H.
  - eapply only_trans; [|eapply only_incl; [|exact H]; incl]. only_prim.
  - only_by log_only.
    eapply only_trans; [|eapply only_incl; [|exact H]; incl]. only_prim.
Qed.


Lemma onResult_key_only mc key entry st :
  only result_footprint st (onResult_key mc key entry st).2.
Proof.
  unfold onResult_key.
  repeat (case_decide || case_match); cbn [snd]; try only_prim.
  all: eapply only_incl; [|apply settle_only]; incl.
Qed.

Lemma onResult_only mc st : only result_footprint st (_onResult mc st).2.
Proof. apply forEach_only. intros. apply onResult_key_only. Qed.


Lemma onMessage_key_only message key content st :
  only message_footprint st (onMessage_key message key content st).2.
Proof.
  unfold onMessage_key.
  repeat (case_decide || case_match); cbn [snd]; try only_prim.
  eapply only_incl; [|apply onResult_only]. incl.
Qed.

Lemma onMessage_only message st :
  only message_footprint st (_onMessage message st).2.
Proof.
  unfold _onMessage.
  eapply only_trans; [|apply forEach_only; intros; apply onMessage_key_only].
  only_prim.
Qed.

Lemma onTimeout_only id st :
  only [F_timeouts; F_configCounter; F_promises; F_awaiting; F_microtasks]
    st (onTimeout id st).
Proof.
  unfold onTimeout. repeat case_match; try apply only_refl; try only_prim.
  only_by settle_only. only_prim.
Qed.

Lemma tick_only id st : only [F_emitted] st (tick id st).
Proof. unfold tick. repeat case_match; only_prim. Qed.

Lemma onMqtt_only signal st :
  only (F_mqttClientConnected :: F_subscriptions :: handler_footprint)
    st (onMqtt signal st).
Proof.
  destruct signal; cbn [onMqtt]; try only_prim.
  case_match; [|only_prim].
  only_by onConfig_only. only_prim.
Qed.

Lemma addNode_only node st : only (F_logs :: ledger_footprint) st (addNode node st).2.
Proof.
  unfold addNode. repeat case_match; simplify_eq; cbn [snd]; try only_prim;
    try apply only_refl.
  match goal with H : sendMessageAsync ?k ?m ?t ?s = (_, ?s') |- _ =>
    pose proof (sendMessageAsync_only k m t s) as Hs; rewrite H in Hs;
    cbn [snd] in Hs
  end.
  eapply only_trans; [|eapply only_incl; [|exact Hs]; incl]. only_prim.
Qed.

Lemma delNode_only node st :
  only [F_logs; F_published; F_emitted] st (delNode node st).2.
Proof.
  unfold delNode, sendMessage. repeat case_match; cbn [snd]; only_prim.
Qed.

Lemma stop_only st :
  only [F_published; F_emitted; F_mqttEnded; F_intervals] st (stop st).
Proof.
  unfold stop.
  destruct (shortPollTimer st) eqn:E1, (longPollTimer st) eqn:E2;
    unfold only; st_red_all; rewrite ?E1; st_red; rewrite ?E2; st_eq.
Qed.


Lemma api_call_only c st : only api_footprint st (api_call c st).
Proof.
  destruct c; cbn [api_call].
  - eapply only_incl; [|apply sendMessageAsync_only]. incl.
  - unfold sendMessage. case_match; only_prim.
  - eapply only_incl; [|apply addNode_only]. incl.
  - eapply only_incl; [|apply delNode_only]. incl.
  - eapply only_incl; [|apply stop_only]. incl.
Qed.

Lemma api_calls_only calls st :
  only api_footprint st (foldl (λ st c, api_call c st) st calls).
Proof.
  revert st. induction calls as [|c calls IH]; intros st; [apply only_refl|].
  cbn [foldl]. eapply only_trans; [apply api_call_only|apply IH].
Qed.

(** ** Handles are fresh *)

Lemma wf_evolves st st' : wf st → evolves st st' → wf st'.
Proof.
  intros [Hp Ht Hd Ha] [Hn Hpn Hk Hs Htn Hdn Han Hu Hl]. split.
  - intros p H. destruct (Hpn p H) as [H'|H']; [|lia]. specialize (Hp p H'). lia.
  - intros t H. destruct (Htn t H) as [H'|H']; [|lia]. specialize (Ht t H'). lia.
  - done.
  - intros w H. destruct (Han w H) as [H'|H']; [|done]. auto.
Qed.

Lemma wf_grows st st' : wf st → grows st st' → wf st'.
Proof. intros Hwf G. by apply (wf_evolves st), G. Qed.

Lemma grows_refl st : grows st st.
Proof. intros Hwf. split; eauto. apply Hwf. Qed.

Lemma grows_trans s0 s1 s2 : grows s0 s1 → grows s1 s2 → grows s0 s2.
Proof.
  intros G1 G2 Hwf. specialize (G1 Hwf).
  specialize (G2 (wf_evolves _ _ Hwf G1)).
  destruct G1 as [Hn1 Hp1 Hk1 Hs1 Ht1 Hd1 Ha1 Hu1 Hl1].
  destruct G2 as [Hn2 Hp2 Hk2 Hs2 Ht2 Hd2 Ha2 Hu2 Hl2]. split.
  - lia.
  - intros p Hp. destruct (Hp2 p Hp) as [H|H]; [|right; lia].
    destruct (Hp1 p H) as [H'|H']; [by left|right; lia].
  - auto.
  - auto.
  - intros t Htm. destruct (Ht2 t Htm) as [H|H]; [|right; lia].
    destruct (Ht1 t H) as [H'|H']; [by left|right; lia].
  - done.
  - intros w Hw. destruct (Ha2 w Hw) as [H|H]; [|by right].
    destruct (Ha1 w H) as [H'|H']; [by left|right; auto].
  - intros w Hw. destruct (Hu1 w Hw) as [H|(v & Hv & Hsv)]; [by apply Hu2|].
    right. exists v. auto.
  - auto.
Qed.

(** An operation that writes none of the fields the promises, the
    timeouts and the ledger live in, and does not lower the next handle. *)
Lemma only_grows fs st st' :
  next_id st ≤ next_id st' → has fs F_promises = false →
  has fs F_timeouts = false → has fs F_awaiting = false →
  has fs F_messageAsyncTracking = false →
  only fs st st' → grows st st'.
Proof.
  unfold only. intros En H2 H3 H4 H5 H Hwf.
  pose proof (f_equal promises H) as Ep.
  pose proof (f_equal timeouts H) as Et. pose proof (f_equal awaiting H) as Ea.
  pose proof (f_equal _messageAsyncTracking H) as El.
  clear H. destruct Hwf as [Wp Wt Wd Wa].
  cbn [part promises timeouts awaiting _messageAsyncTracking] in *.
  rewrite H2 in Ep. rewrite H3 in Et. rewrite H4 in Ea. rewrite H5 in El.
  split; st_red_all; rewrite ?Ep, ?Et, ?Ea, ?El; eauto.
Qed.

Ltac grows_frame lem :=
  eapply only_grows; [..|apply lem];
  [first [rewrite lem; st_red; lia|idtac]|reflexivity..].

(** [grows_by lem] peels the last operation, whose evolution is [lem];
    [grows_prim] proves the evolution of setters that leave the handles
    and the ledger alone. *)
Ltac grows_by lem := eapply grows_trans; [|apply lem].
Ltac grows_prim :=
  apply (only_grows handle_free_footprint);
  [st_red; lia|reflexivity..|unfold only; st_eq].

(** The parts of [evolves], for a state given by setters. *)
Ltac evolves_goal :=
  st_red_all; try lia; eauto;
  first
    [ intros q; rewrite lookup_insert; case_decide; subst;
      [right; lia|by left]
    | intros q Hq; rewrite lookup_insert; case_decide; subst; by eauto
    | idtac ].

Lemma timeout_ids_snoc (l : list (nat * Z * TimeoutAction)) h d a :
  (l ++ [(h, d, a)]).*1.*1 = l.*1.*1 ++ [h].
Proof. by rewrite !fmap_app. Qed.

(** A timeout added with the next handle. *)
Lemma fresh_timeout_elem st h d a x :
  x ∈ (timeouts st ++ [(h, d, a)]).*1.*1 →
  x ∈ (timeouts st).*1.*1 ∨ x = h.
Proof.
  rewrite timeout_ids_snoc. intros [H| ->%list_elem_of_singleton]%elem_of_app; auto.
Qed.

Lemma fresh_timeout_nodup st h d a :
  (∀ x, x ∈ (timeouts st).*1.*1 → x < h) →
  NoDup (timeouts st).*1.*1 →
  NoDup (timeouts st ++ [(h, d, a)]).*1.*1.
Proof.
  intros Hb Hd. rewrite timeout_ids_snoc. apply NoDup_app. split; [done|].
  split; [|apply NoDup_singleton].
  intros x Hx ->%list_elem_of_singleton. specialize (Hb h Hx). lia.
Qed.

Lemma setTimeout_grows action delay st : grows st (setTimeout action delay st).
Proof.
  intros [Wp Wt Wd Wa]. split; evolves_goal.
  - intros x [H| ->]%fresh_timeout_elem; [by left|right; lia].
  - by apply fresh_timeout_nodup.
Qed.

Lemma setInterval_grows isLong delay st :
  grows st (setInterval isLong delay st).2.
Proof.
  unfold setInterval, fresh. cbn [snd].
  intros [Wp Wt Wd Wa]. split; evolves_goal.
Qed.

Lemma settle_grows p v st : settled v → grows st (settle p v st).
Proof.
  intros Hv. unfold settle. destruct (promises st !! p) as [[]|] eqn:E;
    try apply grows_refl.
  intros [Wp Wt Wd Wa]. split; evolves_goal.
  - intros q. destruct (decide (p = q)) as [<-|].
    + rewrite E. by left.
    + rewrite lookup_insert_ne by done. by left.
  - intros q v' Hq Hs. destruct (decide (p = q)) as [<-|].
    + rewrite E in Hq. by injection Hq as <-.
    + by rewrite lookup_insert_ne.
  - intros w [_ Hw]%list_elem_of_filter. by left.
  - intros w Hw. destruct (decide (w.1 = p)) as [<-|Hne].
    + right. exists v. by rewrite lookup_insert_eq.
    + left. by apply list_elem_of_filter.
Qed.

Lemma insert_fresh_settled (m : gmap nat PState) n x q v :
  (∀ p, is_Some (m !! p) → p < n) →
  m !! q = Some v → <[n := x]> m !! q = Some v.
Proof.
  intros Hb Hq. rewrite lookup_insert_ne; [done|].
  intros <-. specialize (Hb n (mk_is_Some _ _ Hq)). lia.
Qed.

Lemma resume_grows c st : grows st (sendMessageAsync_resume c st).
Proof.
  intros [Wp Wt Wd Wa]. open_resume; split; evolves_goal.
  all: try (intros; by apply (insert_fresh_settled _ _ _ _ _ Wp)).
  all: try (intros key; rewrite lookup_insert_is_Some; by auto).
  all: try (intros w Hw; left; done).
  - intros x [H| ->]%fresh_timeout_elem; [by left|right; lia].
  - apply fresh_timeout_nodup; [|done]. intros x Hx. specialize (Wt x Hx). lia.
Qed.

Lemma sendMessageAsync_grows key message timeout st :
  grows st (sendMessageAsync key message timeout st).2.
Proof.
  unfold sendMessageAsync, fresh.
  destruct (_messageAsyncTracking st !! key) as [tr|] eqn:Et.
  - destruct (promises st !! promise tr) as [[]|] eqn:Ep; cbn [snd];
      intros [Wp Wt Wd Wa]; split; evolves_goal.
    + intros w [H| ->%list_elem_of_singleton]%elem_of_app; [by left|right].
      cbn. by rewrite Ep.
    + intros w Hw. left. apply elem_of_app. by left.
  - cbn [snd]. grows_by resume_grows. grows_prim.
Qed.

Lemma run_microtasks_grows fuel st : grows st (run_microtasks fuel st).
Proof.
  revert st. induction fuel as [|fuel IH]; intros st; [apply grows_refl|].
  cbn [run_microtasks]. destruct (microtasks st) as [|c rest]; [apply grows_refl|].
  eapply grows_trans; [|apply IH]. grows_by resume_grows. grows_prim.
Qed.

Lemma checkPollingInterval_grows poll v st :
  grows st (_checkPollingInterval poll v st).
Proof.
  grows_frame checkPollingInterval_only. apply checkPollingInterval_next_id.
Qed.

Lemma detectConfigLoop_grows st : grows st (_detectConfigLoop st).2.
Proof.
  unfold _detectConfigLoop. cbn [snd]. grows_by setTimeout_grows. grows_prim.
Qed.

Lemma onConfig_grows config isInitialConfig st :
  grows st (_onConfig config isInitialConfig st).
Proof.
  unfold _onConfig.
  match goal with |- context [_detectConfigLoop ?s] =>
    pose proof (detectConfigLoop_grows s) as Hd;
    destruct (_detectConfigLoop s) as [loop s3]; cbn [snd] in Hd;
    eapply (grows_trans _ s3); [|case_match; grows_prim];
    eapply grows_trans; [|exact Hd]; clear Hd
  end.
  grows_by checkPollingInterval_grows. grows_by checkPollingInterval_grows.
  match goal with |- grows _ (set_config _ ?s) =>
    eapply (grows_trans _ s); [|grows_prim] end.
  grows_frame onConfig_loops_only.
Qed.

Lemma forEach_grows {A} (f : A → State → Completion * State) l st :
  (∀ x s, grows s (f x s).2) → grows st (forEach f l st).2.
Proof.
  intros Hf. revert st. induction l as [|x l IH]; intros st; [apply grows_refl|].
  cbn [forEach]. pose proof (Hf x st) as Hx.
  destruct (f x st) as [[|what] st']; cbn [snd] in *; [|done].
  eapply grows_trans; [exact Hx|apply IH].
Qed.

Lemma getNode_grows address st : grows st (getNode address st).2.
Proof. grows_frame getNode_only. Qed.

Lemma onMessageQueued_switch_grows opt st :
  grows st (onMessageQueued_switch opt st).2.
Proof.
  unfold onMessageQueued_switch.
  repeat case_decide.
  - destruct (messageContent opt); cbn [snd]; try apply grows_refl.
    apply onConfig_grows.
  - destruct (messageContent opt); cbn [snd]; try apply getNode_grows.
    pose proof (getNode_grows address st) as Hg.
    destruct (getNode address st) as [[node|] st']; cbn [snd] in *; [|done].
    eapply grows_trans; [exact Hg|grows_prim].
  - destruct (messageContent opt); cbn [snd]; try apply getNode_grows.
    pose proof (getNode_grows address st) as Hg.
    destruct (getNode address st) as [[node|] st']; cbn [snd] in *; [|done].
    eapply grows_trans; [exact Hg|grows_prim].
  - destruct (messageContent opt); cbn [snd]; try apply getNode_grows.
    pose proof (getNode_grows address st) as Hg.
    destruct (getNode address st) as [[node|] st']; cbn [snd] in *; [|done].
    eapply grows_trans; [exact Hg|]. destruct requestId; cbn [snd]; grows_prim.
  - destruct (messageContent opt), (_config st); cbn [snd];
      try apply grows_refl.
    grows_by checkPollingInterval_grows. grows_by checkPollingInterval_grows.
    grows_prim.
  - cbn [snd]. grows_prim.
  - cbn [snd]. grows_prim.
Qed.

Lemma onMessageQueued_grows opt st : grows st (_onMessageQueued opt st).2.
Proof.
  unfold _onMessageQueued, onMessageQueued_drop. case_match.
  - apply onMessageQueued_switch_grows.
  - cbn [snd]. grows_prim.
Qed.

Lemma onDequeue_grows st : grows st (onDequeue st).
Proof.
  unfold onDequeue. destruct (_queue st) as [|opt rest]; [apply grows_refl|].
  pose proof (onMessageQueued_grows opt (set_queue rest st)) as H.
  destruct (_onMessageQueued opt (set_queue rest st)) as [[|what] st'];
    cbn [snd] in H.
  - eapply grows_trans; [|exact H]. grows_prim.
  - eapply (grows_trans _ st'); [|grows_prim].
    eapply grows_trans; [|exact H]. grows_prim.
Qed.

Lemma onResult_key_grows mc key entry st :
  grows st (onResult_key mc key entry st).2.
Proof.
  unfold onResult_key.
  repeat (case_decide || case_match); cbn [snd];
    first [by apply settle_grows | apply grows_refl | grows_prim].
Qed.

Lemma onResult_grows mc st : grows st (_onResult mc st).2.
Proof. apply forEach_grows. intros. apply onResult_key_grows. Qed.

Lemma onMessage_key_grows message key content st :
  grows st (onMessage_key message key content st).2.
Proof.
  unfold onMessage_key.
  repeat (case_decide || case_match); cbn [snd];
    first [apply onResult_grows | apply grows_refl | grows_prim].
Qed.

Lemma onMessage_grows message st : grows st (_onMessage message st).2.
Proof.
  unfold _onMessage.
  eapply grows_trans; [|apply forEach_grows; intros; apply onMessage_key_grows].
  grows_prim.
Qed.

Lemma filter_timeout_ids (P : nat * Z * TimeoutAction → Prop)
    `{∀ t, Decision (P t)} (l : list (nat * Z * TimeoutAction)) :
  (∀ h, h ∈ (filter P l).*1.*1 → h ∈ l.*1.*1)
  ∧ (NoDup l.*1.*1 → NoDup (filter P l).*1.*1).
Proof.
  induction l as [|t l [IH1 IH2]]; [done|]. rewrite filter_cons.
  destruct (decide (P t)); cbn.
  - split.
    + intros h [->|Hh]%elem_of_cons; [left|right; auto].
    + intros [Hn Hd]%NoDup_cons. apply NoDup_cons. split; auto.
  - split.
    + intros h Hh. right. auto.
    + intros [Hn Hd]%NoDup_cons. auto.
Qed.

Lemma onTimeout_grows id st : grows st (onTimeout id st).
Proof.
  unfold onTimeout. destruct (filter _ (timeouts st)) as [|[[h d] action] l];
    [apply grows_refl|].
  assert (grows st (set_timeouts (filter (λ t, t.1.1 ≠ id) (timeouts st)) st))
    as Hrm.
  { intros [Wp Wt Wd Wa]. split; evolves_goal.
    - intros x Hx. left. by apply filter_timeout_ids in Hx.
    - by apply filter_timeout_ids. }
  destruct action.
  - eapply grows_trans; [exact Hrm|grows_prim].
  - eapply grows_trans; [exact Hrm|by apply settle_grows].
Qed.

Lemma onMqtt_grows signal st : grows st (onMqtt signal st).
Proof.
  destruct signal; cbn [onMqtt]; try grows_prim.
  case_match; [|grows_prim].
  grows_by onConfig_grows. grows_prim.
Qed.

Lemma addNode_grows node st : grows st (addNode node st).2.
Proof.
  unfold addNode. repeat case_match; simplify_eq; cbn [snd];
    try apply grows_refl; try grows_prim.
  match goal with H : sendMessageAsync ?k ?m ?t ?s = (_, ?s') |- _ =>
    pose proof (sendMessageAsync_grows k m t s) as Hs; rewrite H in Hs;
    cbn [snd] in Hs
  end.
  eapply grows_trans; [|exact Hs]. grows_prim.
Qed.

Lemma api_call_grows c st : grows st (api_call c st).
Proof.
  destruct c; cbn [api_call].
  - apply sendMessageAsync_grows.
  - unfold sendMessage. case_match; [grows_prim|apply grows_refl].
  - apply addNode_grows.
  - grows_frame delNode_only.
  - grows_frame stop_only.
Qed.

Lemma run_grows i st : grows st (run i st).
Proof.
  destruct i; cbn [run].
  - apply onMqtt_grows.
  - pose proof (onMessage_grows message st) as H.
    destruct (_onMessage message st) as [[|what] st']; cbn [snd] in H; [done|].
    eapply grows_trans; [exact H|grows_prim].
  - apply onDequeue_grows.
  - apply onTimeout_grows.
  - grows_frame tick_only.
  - revert st. induction calls as [|c calls IH]; intros st; [apply grows_refl|].
    cbn [foldl]. eapply grows_trans; [apply api_call_grows|apply IH].
Qed.

Lemma step_grows i st : grows st (step i st).
Proof.
  unfold step, drain. eapply grows_trans; [apply run_grows|].
  apply run_microtasks_grows.
Qed.

Lemma init_wf identity classes config : wf (init identity classes config).
Proof.
  split; cbn.
  - intros p [x Hx]. by rewrite lookup_empty in Hx.
  - intros t Ht. by apply elem_of_nil in Ht.
  - apply NoDup_nil_2.
  - intros w Hw. by apply elem_of_nil in Hw.
Qed.

(** In every reachable state the handles in use are below the next one,
    and no continuation is left to run. *)
Lemma reachable_wf st : reachable st → wf st ∧ microtasks st = [].
Proof.
  induction 1 as [identity classes config|i st Hr [IH _]].
  - split; [apply init_wf|done].
  - split.
    + eapply wf_grows; [exact IH|apply step_grows].
    + apply drain_microtasks.
Qed.

(** ** Consequences for reachable states *)

Lemma reachable_steps l st : reachable st → reachable (steps l st).
Proof.
  revert st. induction l as [|i l IH]; intros st Hr; [done|].
  cbn. apply IH. by constructor.
Qed.

Lemma step_evolves i st : reachable st → evolves st (step i st).
Proof. intros Hr. apply step_grows. by apply reachable_wf. Qed.

(** A settled promise stays as it is: it is settled once. *)
Lemma settled_once l st p v :
  reachable st → promises st !! p = Some v → settled v →
  promises (steps l st) !! p = Some v.
Proof.
  revert st. induction l as [|i l IH]; intros st Hr Hp Hv; [done|].
  cbn. apply IH; [by constructor| |done].
  by apply (evolves_settled _ _ (step_evolves i st Hr)).
Qed.


(** A suspended call stays suspended as long as the promise it awaits is
    pending. *)
Lemma suspended_until_settled i st p c :
  reachable st → (p, c) ∈ awaiting st →
  promises (step i st) !! p = Some Pending →
  (p, c) ∈ awaiting (step i st).
Proof.
  intros Hr Hw Hp.
  destruct (evolves_suspended _ _ (step_evolves i st Hr) _ Hw)
    as [H|(v & Hv & Hs)]; [done|].
  cbn in Hv. rewrite Hp in Hv. by injection Hv as <-.
Qed.

(** *** Settling *)

Lemma settle_pending p v st :
  promises st !! p = Some Pending → promises (settle p v st) !! p = Some v.
Proof. intros H. unfold settle. rewrite H. st_red. apply lookup_insert_eq. Qed.

Lemma drain_promises_old st p :
  p < next_id st → promises (drain st) !! p = promises st !! p.
Proof. apply run_microtasks_promises_old. Qed.

Lemma filter_absent_timeout (l : list (nat * Z * TimeoutAction)) h :
  h ∉ l.*1.*1 → filter (λ t, t.1.1 = h) l = [].
Proof.
  induction l as [|t l IH]; intros Hn; [done|].
  cbn in Hn. apply not_elem_of_cons in Hn as [Hne Hn].
  rewrite filter_cons. destruct (decide (t.1.1 = h)); [done|]. by apply IH.
Qed.

(** Handles are distinct: a timeout is found by its handle. *)
Lemma filter_unique_timeout (l : list (nat * Z * TimeoutAction)) h d a :
  NoDup l.*1.*1 → (h, d, a) ∈ l → filter (λ t, t.1.1 = h) l = [(h, d, a)].
Proof.
  induction l as [|t l IH]; intros Hd Hin; [by apply elem_of_nil in Hin|].
  cbn in Hd. apply NoDup_cons in Hd as [Hn Hd]. rewrite filter_cons.
  apply elem_of_cons in Hin as [<-|Hin].
  - cbn in *. destruct (decide (h = h)); [|done]. f_equal.
    by apply filter_absent_timeout.
  - destruct (decide (t.1.1 = h)) as [E|E]; [|by apply IH].
    exfalso. apply Hn. rewrite E.
    apply list_elem_of_fmap. exists (h, d). split; [done|].
    apply list_elem_of_fmap. by exists (h, d, a).
Qed.


(** *** What a call finds when it runs its executor *)

Lemma resume_connected c st :
  isConnected st = true →
  let st' := sendMessageAsync_resume c st in
  let p := next_id st in
  promises st' !! p = Some Pending
  ∧ _messageAsyncTracking st' !! call_key c
    = Some {| promise := p; has_callbacks := true |}
  ∧ call_promise st' !! call_id c = Some p
  ∧ published st' = published st ++ [stamp (ident st) (call_message c) None]
  ∧ (call_timeout c ≠ 0%Z →
     timeouts st' = timeouts st ++ [(S p, call_timeout c, RejectTimeout p)]).
Proof.
  intros Hc. unfold sendMessageAsync_resume, fresh. rewrite Hc.
  destruct (call_timeout c =? 0)%Z eqn:E; st_red;
    rewrite !lookup_insert_eq; repeat split; try done.
  intros H. apply Z.eqb_eq in E. done.
Qed.

Lemma resume_not_connected c st :
  isConnected st = false →
  let st' := sendMessageAsync_resume c st in
  let p := next_id st in
  promises st' !! p = Some (Rejected not_connected_error)
  ∧ _messageAsyncTracking st' !! call_key c
    = Some {| promise := p; has_callbacks := false |}
  ∧ call_promise st' !! call_id c = Some p
  ∧ published st' = published st
  ∧ microtasks st' = microtasks st.
Proof.
  intros Hc. unfold sendMessageAsync_resume, fresh. rewrite Hc.
  st_red. rewrite !lookup_insert_eq. done.
Qed.

(** * The specification, statement by statement *)

(** ** C6: the poll timers *)

(** C6, counterexample: a period of zero arms a timer of delay 0, on the
    first assignment and after a period of 30; so does an unset period
    after a period of 30, with a delay that is not a number. *)
Lemma zero_period_arms_timer :
  intervals (_checkPollingInterval short (Some 0%Z) (init identity0 [] None))
  = [(0, false, Some 0%Z)]
  ∧ ¬ no_timer_for short
        (_checkPollingInterval short (Some 0%Z) (init identity0 [] None))
  ∧ intervals with_a1 = [(1, false, Some 30000%Z); (2, true, Some 60000%Z)]
  ∧ intervals (_checkPollingInterval short (Some 0%Z) with_a1)
    = [(2, true, Some 60000%Z); (4, false, Some 0%Z)]
  ∧ intervals (_checkPollingInterval short None with_a1)
    = [(2, true, Some 60000%Z); (4, false, None)].
Proof.
  split; [by vm_compute|]. split; [|vm_compute; by repeat split].
  intros H. apply (H (0, false, Some 0%Z)); [|done].
  vm_compute. left.
Qed.

(** C6, amended: whenever the period passed differs from the one stored
    for the class, zero and unset included, the timer of the class is
    cancelled if there is one, the period is stored, and a new repeating
    timer is armed with a delay of 1000 times the period. *)
Theorem checkPollingInterval_rearms poll newValue st :
  pollValue poll st ≠ newValue →
  let st' := _checkPollingInterval poll newValue st in
  pollValue poll st' = newValue
  ∧ pollTimer poll st' = Some (next_id st)
  ∧ intervals st'
    = intervals (clearInterval (pollTimer poll st) st)
      ++ [(next_id st, isLongPoll poll, (λ z, z * 1000)%Z <$> newValue)].
Proof. apply checkPollingInterval_changed. Qed.

Lemma checkPollingInterval_rearms_witness :
  pollValue short with_a1 ≠ Some 0%Z
  ∧ pollValue short (_checkPollingInterval short (Some 0%Z) with_a1) = Some 0%Z
  ∧ pollTimer short (_checkPollingInterval short (Some 0%Z) with_a1)
    = Some (next_id with_a1)
  ∧ intervals (_checkPollingInterval short (Some 0%Z) with_a1)
    = intervals (clearInterval (pollTimer short with_a1) with_a1)
      ++ [(next_id with_a1, isLongPoll short, (λ z, z * 1000)%Z <$> Some 0%Z)].
Proof.
  assert (pollValue short with_a1 ≠ Some 0%Z) as H by (vm_compute; discriminate).
  split; [exact H|].
  exact (checkPollingInterval_rearms short (Some 0%Z) with_a1 H).
Defined.

(** Nothing happens when the period is the one stored: an unset period on
    the first assignment arms no timer. *)
Lemma checkPollingInterval_unset_first identity classes config poll :
  _checkPollingInterval poll None (init identity classes config)
  = init identity classes config.
Proof. apply checkPollingInterval_same. by destruct poll. Qed.

(** ** C5: the newParamsDetected flag *)

Lemma params_keys_elem c key :
  key ∈ params_keys c ↔ is_Some (params c !! key).
Proof.
  unfold params_keys, params. destruct c as [c|]; cbn.
  - destruct (customParams c) as [m|]; cbn.
    + rewrite list_elem_of_fmap. split.
      * intros ([k v] & -> & H%elem_of_map_to_list). by exists v.
      * intros [v Hv]. exists (key, v). split; [done|].
        by apply elem_of_map_to_list.
    + rewrite lookup_empty. split; [by intros ?%elem_of_nil|by intros [? ?]].
  - rewrite lookup_empty. split; [by intros ?%elem_of_nil|by intros [? ?]].
Qed.

Lemma params_get_lookup c key : params_get c key = params c !! key.
Proof.
  unfold params_get, params. destruct c as [c|]; cbn; [|by rewrite lookup_empty].
  destruct (customParams c); cbn; [done|by rewrite lookup_empty].
Qed.

(** The keys the function keeps: those of the new configuration whose
    value is not the one of the old. *)
Lemma changedParams_elem oldConfig newConfig key :
  key ∈ changedParams oldConfig newConfig
  ↔ ∃ v, params (Some newConfig) !! key = Some v
         ∧ params oldConfig !! key ≠ Some v.
Proof.
  unfold changedParams. split.
  - intros [Hc Hin]%list_elem_of_filter.
    apply params_keys_elem in Hin as [v Hv]. exists v. split; [done|].
    apply negb_true_iff, andb_false_iff in Hc.
    rewrite !bool_decide_eq_false, !params_get_lookup in Hc.
    intros Ho. destruct Hc as [Hc|Hc]; apply Hc.
    + apply params_keys_elem. by rewrite Ho.
    + congruence.
  - intros (v & Hv & Hne). apply list_elem_of_filter.
    split; [|apply params_keys_elem; by exists v].
    apply negb_true_iff, andb_false_iff.
    rewrite !bool_decide_eq_false, !params_get_lookup.
    destruct (params oldConfig !! key) as [w|] eqn:E.
    + right. congruence.
    + left. intros [? ?]%params_keys_elem. congruence.
Qed.


(** C5, at the failing input: the parameter b is removed, the mappings
    differ, and the flag is false. *)
Theorem setParamsDetected_misses_removed_key :
  params (Some params_ab) !! "b" = Some "2"
  ∧ params (Some params_a) !! "b" = None
  ∧ newParamsDetected (_setParamsDetected (Some params_ab) params_a)
    = Some false.
Proof. by vm_compute. Qed.

(** ** C4: the registry follows the snapshot *)

(** No record of an address of the snapshot is removed. *)
Lemma onConfig_keeps_present config isInitialConfig st a :
  is_Some (nodes config !! a) → is_Some (_nodes st !! a) →
  is_Some (_nodes (_onConfig config isInitialConfig st) !! a).
Proof.
  intros [n Hn] [node Hnode].
  rewrite onConfig_nodes, onConfig_prune_nodes, onConfig_build_nodes.
  rewrite Hn, Hnode. by case_decide.
Qed.


(** C4, at the failing input: the registry holds a1, the snapshot holds
    only b1, of a class that is not declared.  Nothing is created for b1,
    the two sizes agree, the second loop does not run, and a1 stays, with
    no removal logged. *)
Theorem onConfig_keeps_absent_address :
  let st' := _onConfig snapshot_b1 false with_a1 in
  nodes snapshot_b1 !! "a1" = None
  ∧ _nodes with_a1 !! "a1" = Some (fresh_node "a1" entry_a1)
  ∧ _nodes st' !! "a1" = Some (fresh_node "a1" entry_a1)
  ∧ _nodes st' !! "b1" = None
  ∧ logs st'
    = logs with_a1
      ++ [LError "Config node with address b1 has an invalid class undefined"].
Proof. vm_compute. by repeat split. Qed.

(** The spec's scenario: the snapshot of a1 on an empty registry creates
    the record, with primary a1; a snapshot without a1 empties the registry
    and logs the removal. *)
Example onConfig_scenario :
  _nodes with_a1
  = {["a1" := {| n_id := "D1"; n_primary := "a1"; n_address := "a1";
                 n_name := "X"; n_props := ∅ |}]}
  ∧ _nodes (_onConfig no_nodes false with_a1) = ∅
  ∧ LInfo "Node a1 was removed from the config"
    ∈ logs (_onConfig no_nodes false with_a1).
Proof.
  split; [by vm_compute|]. split; [by vm_compute|].
  vm_compute. do 3 right. left.
Qed.

(** ** C1: the loop guard *)




(** ** C9: the guard of addNode and delNode *)

(** C9, counterexample: a plain object is truthy and passes the guard, but
    it has no [convertDrivers]: [addNode] throws before it builds any
    message, and nothing is published. *)
Lemma addNode_plain_object_throws :
  arg_truthy (AObj plain_object) = true
  ∧ isConnected started = true
  ∧ addNode (AObj plain_object) started
    = (Throw "TypeError: node.convertDrivers is not a function", None, started).
Proof. by vm_compute. Qed.

(** C9, amended: the guard is false for every argument, so the error
    branch is never taken.  For an object of any class, [delNode] builds
    its message and hands it to [sendMessage], which publishes it when
    connected; [addNode] builds its message and hands it to
    [sendMessageAsync] when the object has a [convertDrivers] method, and
    throws before building anything when it has none. *)
Theorem guard_never_fires o st :
  (∀ node, not_a_Node_guard node = false)
  ∧ delNode (AObj o) st
    = (Normal, sendMessage (BRemovenode (o_address o)) st)
  ∧ (isConnected st = true →
     published (delNode (AObj o) st).2
     = published st ++ [stamp (ident st) (BRemovenode (o_address o)) None])
  ∧ (o_hasConvertDrivers o = true →
     addNode (AObj o) st
     = let '(id, st') :=
         sendMessageAsync ("addnode-" +:+ to_str (o_address o))
           (addnode_body o) 15000 (log (LInfo "Sending message") st) in
       (Normal, Some id, st'))
  ∧ (o_hasConvertDrivers o = true → isConnected st = true →
     _messageAsyncTracking st !! ("addnode-" +:+ to_str (o_address o)) = None →
     published (addNode (AObj o) st).2
     = published st ++ [stamp (ident st) (addnode_body o) None])
  ∧ (o_hasConvertDrivers o = false →
     ∃ what, addNode (AObj o) st = (Throw what, None, st)).
Proof.
  split; [done|]. split; [done|]. split.
  { intros Hc. unfold delNode, sendMessage. cbn. rewrite Hc. by st_red. }
  split.
  { intros Hm. unfold addNode. cbn. by rewrite Hm. }
  split.
  { intros Hm Hc Ht. unfold addNode. cbn. rewrite Hm.
    unfold sendMessageAsync, fresh.
    change (_messageAsyncTracking (log _ st)) with (_messageAsyncTracking st).
    rewrite Ht. cbn [snd].
    match goal with |- context [sendMessageAsync_resume ?c ?s] =>
      destruct (resume_connected c s) as (_ & _ & _ & -> & _); [done|]
    end.
    by st_red. }
  intros Hm. unfold addNode. cbn. rewrite Hm. eauto.
Qed.

(** ** C7: a result settles the pending request *)

(** The handler of a message that holds one result, for addnode. *)
Lemma onMessage_addnode_result st entry tr :
  _messageAsyncTracking st !! ("addnode-" +:+ to_str (r_address entry)) = Some tr →
  has_callbacks tr = true →
  let message := [("result", CResult [("addnode", entry)])] in
  _onMessage message st
  = (Normal,
     settle (promise tr)
       (if r_success entry then Fulfilled (Reason (r_reason entry))
        else Rejected (Reason (r_reason entry)))
       (emit (EMessageReceived message) st)).
Proof.
  intros Ht Hc. cbv zeta. unfold _onMessage. cbn [forEach fst snd].
  unfold onMessage_key. rewrite decide_True by done.
  cbn [result_entries]. unfold _onResult. cbn [forEach fst snd].
  unfold onResult_key.
  rewrite bool_decide_eq_true_2 by (unfold trackedCommands; left).
  change (_messageAsyncTracking (emit _ st)) with (_messageAsyncTracking st).
  change ("addnode" +:+ "-" +:+ to_str (r_address entry))
    with ("addnode-" +:+ to_str (r_address entry)).
  rewrite Ht, Hc. by destruct (r_success entry).
Qed.

(** C7: a request is tracked under addnode-a1 with its callbacks, and its
    promise is pending.  When the message
    [{result: {addnode: {address: "a1", success, reason}}}] is processed,
    the promise is fulfilled with the reason if [success] is true, and
    rejected with the reason if it is false. *)
Theorem result_settles_pending_addnode st tr success reason :
  reachable st →
  _messageAsyncTracking st !! "addnode-a1" = Some tr →
  has_callbacks tr = true →
  promises st !! promise tr = Some Pending →
  promises (step (addnode_result success reason) st) !! promise tr
  = Some (if success then Fulfilled (Reason reason)
          else Rejected (Reason reason)).
Proof.
  intros Hr Ht Hc Hp. destruct (reachable_wf st Hr) as [Hwf Hm].
  assert (promise tr < next_id st) as Hlt
    by (apply (wf_promises _ Hwf); by rewrite Hp).
  unfold step. rewrite drain_promises_old.
  - unfold addnode_result. cbn [run].
    rewrite (onMessage_addnode_result st _ tr) by done.
    apply settle_pending. exact Hp.
  - pose proof (evolves_next_id _ _ (run_grows (addnode_result success reason) st Hwf)).
    lia.
Qed.

Lemma result_settles_witness :
  reachable one_sent
  ∧ promises (step (addnode_result true "ok") one_sent) !! 2
    = Some (Fulfilled (Reason "ok")).
Proof.
  assert (reachable one_sent) as Hr by (repeat constructor).
  split; [exact Hr|].
  exact (result_settles_pending_addnode one_sent
           {| promise := 2; has_callbacks := true |} true "ok" Hr
           eq_refl eq_refl eq_refl).
Defined.

(** ** C8: a call made while not connected *)

(** What a call that runs its executor while not connected leaves. *)
Lemma resume_not_connected_returned c st :
  isConnected st = false →
  let st' := sendMessageAsync_resume c st in
  returned st' (call_id c) = Some (Rejected not_connected_error)
  ∧ published st' = published st
  ∧ microtasks st' = microtasks st.
Proof.
  intros Hc. destruct (resume_not_connected c st Hc) as (Hp & _ & Hi & Hpub & Hm).
  cbv zeta in *. unfold returned. rewrite Hi, Hp. done.
Qed.

(** A call that awaits an already settled promise is resumed in the same
    task. *)
Lemma drain_one c st :
  microtasks st = [c] →
  drain st = sendMessageAsync_resume c (set_microtasks [] st).
Proof.
  intros Hm. unfold drain. rewrite Hm. cbn [length run_microtasks].
  by rewrite Hm.
Qed.

(** C8: the interface is not connected and no request under the key is
    pending.  The promise that [sendMessageAsync] returned is rejected with
    the error "Polyglot not connected" by the end of the task of the call,
    and nothing was published. *)
Theorem sendMessageAsync_rejects_when_not_connected key message timeout st :
  reachable st →
  isConnected st = false →
  (∀ tr, _messageAsyncTracking st !! key = Some tr →
         promises st !! promise tr ≠ Some Pending) →
  let id := (sendMessageAsync key message timeout st).1 in
  let st' := step (OnCalls [CallSendMessageAsync key message timeout]) st in
  returned st' id = Some (Rejected not_connected_error)
  ∧ published st' = published st.
Proof.
  intros Hr Hc Hk. destruct (reachable_wf st Hr) as [_ Hm].
  cbv zeta. unfold step. cbn [run foldl api_call].
  unfold sendMessageAsync.
  destruct (_messageAsyncTracking st !! key) as [tr|] eqn:Et.
  - specialize (Hk tr eq_refl).
    assert (∀ id s, (match promises st !! promise tr with
             | Some Pending =>
                 let '(id, st) := fresh st in
                 (id, set_awaiting (awaiting st ++ [(promise tr, {| call_id := id; call_key := key; call_message := message; call_timeout := timeout |})]) st)
             | _ =>
                 let '(id, st) := fresh st in
                 (id, set_microtasks (microtasks st ++ [{| call_id := id; call_key := key; call_message := message; call_timeout := timeout |}]) st)
             end) = (id, s) →
             id = next_id st ∧
             s = set_microtasks [{| call_id := id; call_key := key; call_message := message; call_timeout := timeout |}] (fresh st).2) as Hshape.
    { intros id s. destruct (promises st !! promise tr) as [[]|]; try done;
        unfold fresh; cbn [fst snd]; change (microtasks (set_next_id _ st)) with (microtasks st);
        rewrite Hm; intros [= <- <-]; done. }
    destruct (match promises st !! promise tr with Some Pending => _ | _ => _ end)
      as [id s] eqn:E.
    destruct (Hshape id s eq_refl) as [-> ->]. cbn [fst snd].
    rewrite (drain_one {| call_id := next_id st; call_key := key;
                          call_message := message; call_timeout := timeout |});
      [|done].
    destruct (resume_not_connected_returned
                {| call_id := next_id st; call_key := key;
                   call_message := message; call_timeout := timeout |}
                (set_microtasks [] (set_microtasks
                   [{| call_id := next_id st; call_key := key;
                       call_message := message; call_timeout := timeout |}]
                   (fresh st).2)) Hc) as (H1 & H2 & H3).
    cbv zeta in *. cbn [call_id] in H1. split; [exact H1|exact H2].
  - unfold fresh. cbn [fst snd].
    destruct (resume_not_connected_returned
                {| call_id := next_id st; call_key := key;
                   call_message := message; call_timeout := timeout |}
                (set_next_id (S (next_id st)) st) Hc) as (H1 & H2 & H3).
    cbv zeta in *. cbn [call_id] in H1.
    rewrite drain_idle; [|rewrite H3; exact Hm].
    split; [exact H1|exact H2].
Qed.

Lemma sendMessageAsync_not_connected_witness :
  isConnected (init identity0 ["D1"] (Some no_nodes)) = false
  ∧ returned (step (addnode_call "first") (init identity0 ["D1"] (Some no_nodes))) 0
    = Some (Rejected not_connected_error)
  ∧ published (step (addnode_call "first") (init identity0 ["D1"] (Some no_nodes)))
    = [].
Proof.
  assert (reachable (init identity0 ["D1"] (Some no_nodes))) as Hr by constructor.
  split; [reflexivity|].
  destruct (sendMessageAsync_rejects_when_not_connected "addnode-a1"
              (BOther "first") 15000 (init identity0 ["D1"] (Some no_nodes))
              Hr eq_refl) as (H1 & H2).
  - intros tr H. discriminate H.
  - split; [exact H1 | exact H2].
Defined.

(** ** C3: the timeout of a request *)

(** A call with a timeout, made while connected under a key that has no
    entry: the entry is stored with a pending promise, and the timer that
    rejects it is armed. *)
Lemma sendMessageAsync_arms_timeout key message timeout st :
  reachable st → isConnected st = true →
  _messageAsyncTracking st !! key = None → timeout ≠ 0%Z →
  let st' := step (OnCalls [CallSendMessageAsync key message timeout]) st in
  let p := S (next_id st) in
  _messageAsyncTracking st' !! key = Some {| promise := p; has_callbacks := true |}
  ∧ promises st' !! p = Some Pending
  ∧ returned st' (next_id st) = Some Pending
  ∧ (S p, timeout, RejectTimeout p) ∈ timeouts st'.
Proof.
  intros Hr Hc Hk Ht. destruct (reachable_wf st Hr) as [_ Hm].
  cbv zeta. unfold step. cbn [run foldl api_call].
  unfold sendMessageAsync. rewrite Hk. unfold fresh. cbn [fst snd].
  destruct (resume_connected
              {| call_id := next_id st; call_key := key;
                 call_message := message; call_timeout := timeout |}
              (set_next_id (S (next_id st)) st) Hc) as (H1 & H2 & H3 & _ & H5).
  cbv zeta in *. cbn [call_id call_key call_timeout] in *.
  specialize (H5 Ht).
  change (next_id (set_next_id (S (next_id st)) st)) with (S (next_id st)) in *.
  assert (microtasks (sendMessageAsync_resume
            {| call_id := next_id st; call_key := key;
               call_message := message; call_timeout := timeout |}
            (set_next_id (S (next_id st)) st)) = []) as Hm'.
  { assert (isConnected (set_next_id (S (next_id st)) st) = true) as Hc'
      by exact Hc.
    unfold sendMessageAsync_resume, fresh. rewrite Hc'. cbn [call_timeout].
    destruct (timeout =? 0)%Z; st_red; exact Hm. }
  rewrite drain_idle by exact Hm'.
  split; [exact H2|]. split; [exact H1|].
  split; [unfold returned; by rewrite H3, H1|].
  rewrite H5. apply elem_of_app. right. apply list_elem_of_singleton. done.
Qed.




(** ** C2: calls under a key that has a pending request *)

(** A call made while the request tracked under its key is pending awaits
    the promise of that request, and publishes nothing in its task. *)
Lemma sendMessageAsync_waits key message timeout st tr :
  reachable st →
  _messageAsyncTracking st !! key = Some tr →
  promises st !! promise tr = Some Pending →
  let st' := step (OnCalls [CallSendMessageAsync key message timeout]) st in
  let c := {| call_id := next_id st; call_key := key;
              call_message := message; call_timeout := timeout |} in
  (sendMessageAsync key message timeout st).1 = next_id st
  ∧ awaiting st' = awaiting st ++ [(promise tr, c)]
  ∧ published st' = published st
  ∧ promises st' = promises st
  ∧ _messageAsyncTracking st' = _messageAsyncTracking st.
Proof.
  intros Hr Hk Hp. destruct (reachable_wf st Hr) as [_ Hm].
  cbv zeta. unfold step. cbn [run foldl api_call].
  unfold sendMessageAsync. rewrite Hk, Hp. unfold fresh. cbn [fst snd].
  rewrite drain_idle by exact Hm. done.
Qed.

(** The calls that await one promise are resumed together when it is
    settled, in the order they started to wait. *)
Lemma settle_resumes_all p v st :
  promises st !! p = Some Pending →
  microtasks (settle p v st)
  = microtasks st ++ (filter (λ w, w.1 = p) (awaiting st)).*2
  ∧ ∀ c, (p, c) ∉ awaiting (settle p v st).
Proof.
  intros Hp. unfold settle. rewrite Hp. st_red. split; [done|].
  intros c Hin. apply list_elem_of_filter in Hin as [Hne _]. by apply Hne.
Qed.

(** C2, at three calls under one key: the second and the third call are made
    while the request of the first is pending; neither publishes before the
    result of the first arrives.  When it arrives both are resumed in the
    same task: both messages are published, in the order of the calls, and
    the two requests are pending together, the ledger tracking only the
    last one. *)
Theorem waiting_calls_sent_together :
  p_body <$> published three_sent = [BConnected true; BOther "first"]
  ∧ awaiting three_sent
    = [(2, {| call_id := 4; call_key := "addnode-a1";
              call_message := BOther "second"; call_timeout := 15000 |});
       (2, {| call_id := 5; call_key := "addnode-a1";
              call_message := BOther "third"; call_timeout := 15000 |})]
  ∧ p_body <$> published (step (addnode_result true "ok") three_sent)
    = [BConnected true; BOther "first"; BOther "second"; BOther "third"]
  ∧ returned (step (addnode_result true "ok") three_sent) 1
    = Some (Fulfilled (Reason "ok"))
  ∧ call_promise (step (addnode_result true "ok") three_sent) !! 4 = Some 6
  ∧ call_promise (step (addnode_result true "ok") three_sent) !! 5 = Some 8
  ∧ promises (step (addnode_result true "ok") three_sent) !! 6 = Some Pending
  ∧ promises (step (addnode_result true "ok") three_sent) !! 8 = Some Pending
  ∧ _messageAsyncTracking (step (addnode_result true "ok") three_sent)
    !! "addnode-a1" = Some {| promise := 8; has_callbacks := true |}.
Proof. repeat split; vm_compute; reflexivity. Qed.

(** ** C10: stop() and the shutting-down flag *)






Lemma stop_intervals st t :
  t ∈ intervals (stop st)
  ↔ t ∈ intervals st
    ∧ Some t.1.1 ≠ shortPollTimer st ∧ Some t.1.1 ≠ longPollTimer st.
Proof.
  unfold stop, clearInterval.
  change (shortPollTimer (set_mqttEnded _ _)) with (shortPollTimer st).
  destruct (shortPollTimer st) as [h1|] eqn:E1.
  - change (longPollTimer (set_intervals _ _)) with (longPollTimer st).
    destruct (longPollTimer st) as [h2|] eqn:E2; st_red;
      rewrite ?list_elem_of_filter; split.
    + intros (? & ? & ?). repeat split; congruence.
    + intros (? & ? & ?). repeat split; congruence.
    + intros (? & ?). repeat split; congruence.
    + intros (? & ? & ?). repeat split; congruence.
  - change (longPollTimer (set_mqttEnded _ _)) with (longPollTimer st).
    destruct (longPollTimer st) as [h2|] eqn:E2; st_red;
      rewrite ?list_elem_of_filter; split.
    + intros (? & ?). repeat split; congruence.
    + intros (? & ? & ?). repeat split; congruence.
    + intros ?. repeat split; congruence.
    + by intros (? & ? & ?).
Qed.



(** * Further properties *)

(** ** The parameters flag *)

(** X1: [_setParamsDetected] sets the flag to true exactly when some key of
    the new parameters is absent from the old ones or has another value
    there, and to false otherwise; the rest of the new configuration is
    returned as given. *)
Theorem setParamsDetected_exact oldConfig newConfig :
  let c := _setParamsDetected oldConfig newConfig in
  (newParamsDetected c = Some true
   ↔ ∃ key v, params (Some newConfig) !! key = Some v
              ∧ params oldConfig !! key ≠ Some v)
  ∧ (newParamsDetected c = Some false
     ↔ ∀ key v, params (Some newConfig) !! key = Some v
                → params oldConfig !! key = Some v)
  ∧ nodes c = nodes newConfig
  ∧ customParams c = customParams newConfig
  ∧ shortPoll c = shortPoll newConfig
  ∧ longPoll c = longPoll newConfig.
Proof.
  cbv zeta.
  assert (newParamsDetected (_setParamsDetected oldConfig newConfig) = Some true
          ↔ ∃ key v, params (Some newConfig) !! key = Some v
                     ∧ params oldConfig !! key ≠ Some v) as Htrue.
  { unfold _setParamsDetected, set_newParamsDetected. cbn [newParamsDetected].
    destruct (changedParams oldConfig newConfig) as [|key l] eqn:E;
      cbn [length Nat.eqb negb].
    - split; [done|]. intros (key & v & H).
      assert (key ∈ changedParams oldConfig newConfig) as Hin
        by (apply changedParams_elem; eauto).
      rewrite E in Hin. by apply elem_of_nil in Hin.
    - split; [|done]. intros _.
      assert (key ∈ changedParams oldConfig newConfig) as Hin
        by (rewrite E; left).
      apply changedParams_elem in Hin as (v & H). eauto. }
  split; [exact Htrue|]. split; [|done].
  assert (∃ b, newParamsDetected (_setParamsDetected oldConfig newConfig) = Some b)
    as [b Hb] by (by eexists).
  split.
  - intros Hf key v Hv.
    destruct (decide (params oldConfig !! key = Some v)) as [|Hne]; [done|].
    assert (newParamsDetected (_setParamsDetected oldConfig newConfig) = Some true)
      as Ht by (apply Htrue; eauto).
    congruence.
  - intros Hall. destruct b; [|done].
    apply Htrue in Hb as (key & v & Hv & Hne). by specialize (Hall key v Hv).
Qed.

(** ** Device records under a snapshot *)













(** *** A snapshot applied twice *)





(** ** The connection flag *)

Lemma only_connected fs st st' :
  has fs F_mqttClientConnected = false → only fs st st' →
  isConnected st' = isConnected st.
Proof.
  intros H Ho. rewrite Ho. unfold part, isConnected.
  cbn [_mqttClientConnected]. by rewrite H.
Qed.

Lemma run_message_connected message st :
  isConnected (run (OnMessage message) st) = isConnected st.
Proof.
  cbn [run].
  pose proof (only_connected message_footprint _ _ eq_refl
                (onMessage_only message st)) as H.
  destruct (_onMessage message st) as [[|what] s]; exact H.
Qed.

(** X5: [isConnected()] changes with the events of the MQTT client only:
    it is true after connect and reconnect, false after offline, close and
    end, and no message, timer or call of the node server changes it;
    [stop()] leaves it as it is. *)
Theorem connected_follows_mqtt st :
  (∀ i, isConnected (step i st) = isConnected st ∨ ∃ signal, i = OnMqtt signal)
  ∧ isConnected (step (OnMqtt connect) st) = true
  ∧ isConnected (step (OnMqtt reconnect) st) = true
  ∧ isConnected (step (OnMqtt offline) st) = false
  ∧ isConnected (step (OnMqtt close) st) = false
  ∧ isConnected (step (OnMqtt ended) st) = false
  ∧ isConnected (step (OnMqtt error) st) = isConnected st
  ∧ isConnected (step (OnCalls [CallStop]) st) = isConnected st.
Proof.
  assert (∀ s, isConnected (drain s) = isConnected s) as Hd.
  { intros s. eapply only_connected; [|apply drain_only]. reflexivity. }
  split.
  { intros i. unfold step. rewrite Hd.
    destruct i as [signal|message| |id|id|calls].
    - right. by exists signal.
    - left. apply run_message_connected.
    - left. eapply only_connected; [|apply onDequeue_only]. reflexivity.
    - left. eapply only_connected; [|apply onTimeout_only]. reflexivity.
    - left. eapply only_connected; [|apply tick_only]. reflexivity.
    - left. eapply only_connected; [|apply api_calls_only]. reflexivity. }
  unfold step. rewrite !Hd. cbn [run onMqtt].
  split.
  { destruct (_config _) as [config|] eqn:E; [|reflexivity].
    rewrite (only_connected config_footprint _ _ eq_refl (onConfig_only config true _)).
    reflexivity. }
  do 5 (split; [reflexivity|]).
  eapply only_connected; [|apply (api_calls_only [CallStop])]. reflexivity.
Qed.

(** ** Inbound messages *)

Lemma onMessage_key_queue message key content st :
  key ≠ "result" →
  let r := onMessage_key message key content st in
  r.1 = Normal
  ∧ _queue r.2 = _queue st ++ queued_items message [(key, content)]
  ∧ _nodes r.2 = _nodes st ∧ _config r.2 = _config st
  ∧ published r.2 = published st ∧ promises r.2 = promises st
  ∧ _messageAsyncTracking r.2 = _messageAsyncTracking st.
Proof.
  intros Hk. cbv zeta. unfold onMessage_key, queued_items.
  cbn [omap list_omap fst snd].
  rewrite decide_False by done.
  destruct (decide (key = "stop")) as [->|Hs].
  { assert (bool_decide ("stop" ∈ queuedMessages) = false) as ->
      by (by vm_compute).
    cbn [fst snd]. st_red. by rewrite app_nil_r. }
  destruct (decide (key = "delete")) as [->|Hd].
  { assert (bool_decide ("delete" ∈ queuedMessages) = false) as ->
      by (by vm_compute).
    cbn [fst snd]. st_red. by rewrite app_nil_r. }
  destruct (bool_decide (key ∈ queuedMessages)) eqn:Eq; cbn [fst snd].
  { st_red. done. }
  destruct (bool_decide (key ∈ ignoredMessages)); cbn [fst snd]; st_red;
    by rewrite app_nil_r.
Qed.

Lemma forEach_queue message l st :
  "result" ∉ l.*1 →
  let r := forEach (λ e, onMessage_key message e.1 e.2) l st in
  r.1 = Normal
  ∧ _queue r.2 = _queue st ++ queued_items message l
  ∧ _nodes r.2 = _nodes st ∧ _config r.2 = _config st
  ∧ published r.2 = published st ∧ promises r.2 = promises st
  ∧ _messageAsyncTracking r.2 = _messageAsyncTracking st.
Proof.
  cbv zeta. revert st. induction l as [|[key content] l IH]; intros st Hn.
  { cbn [forEach fst snd]. unfold queued_items. cbn. by rewrite app_nil_r. }
  cbn [fmap list_fmap fst] in Hn. apply not_elem_of_cons in Hn as [Hk Hn].
  cbn [forEach fst snd].
  destruct (onMessage_key_queue message key content st) as (H1 & H2 & H3 & H4 & H5 & H6 & H7);
    [done|].
  cbv zeta in *.
  destruct (onMessage_key message key content st) as [c s]. cbn [fst snd] in *.
  subst c. destruct (IH s Hn) as (I1 & I2 & I3 & I4 & I5 & I6 & I7).
  split; [done|]. rewrite I2, I3, I4, I5, I6, I7, H2, H3, H4, H5, H6, H7.
  split; [|done]. rewrite <-app_assoc. f_equal.
  unfold queued_items. cbn [omap list_omap fst snd].
  by destruct (bool_decide (key ∈ queuedMessages)).
Qed.

(** X6: a message without the key result is handled without exception: an
    item is added to the queue for each of its keys among config, query,
    command, status, polls, oauth, startLogStream and stopLogStream, in the
    order of the keys, behind the items already there; the registry, the
    stored configuration, what was published and the requests are as
    before. *)
Theorem onMessage_queues_in_order message st :
  "result" ∉ keys_of message →
  let r := _onMessage message st in
  r.1 = Normal
  ∧ _queue r.2 = _queue st ++ queued_items message message
  ∧ _nodes r.2 = _nodes st ∧ _config r.2 = _config st
  ∧ published r.2 = published st ∧ promises r.2 = promises st
  ∧ _messageAsyncTracking r.2 = _messageAsyncTracking st.
Proof.
  intros Hn. unfold _onMessage.
  apply (forEach_queue message message (emit (EMessageReceived message) st) Hn).
Qed.

Lemma onMessage_queues_witness :
  _queue (_onMessage [("polls", CPolls (Some 5%Z) None);
                      ("profileNum", COther "1");
                      ("config", CConfig no_nodes)] started).2
  = [ {| messageKey := "polls"; messageContent := CPolls (Some 5%Z) None;
         clientId := None |};
      {| messageKey := "config"; messageContent := CConfig no_nodes;
         clientId := None |} ].
Proof.
  destruct (onMessage_queues_in_order
              [("polls", CPolls (Some 5%Z) None); ("profileNum", COther "1");
               ("config", CConfig no_nodes)] started) as (_ & H & _).
  - apply (bool_decide_unpack _). by vm_compute.
  - exact H.
Defined.

(** A result for a request whose callbacks were not stored: the call of
    the missing [resolve] or [reject] throws. *)
Lemma onResult_without_callbacks st entry tr more :
  _messageAsyncTracking st !! ("addnode-" +:+ to_str (r_address entry)) = Some tr →
  has_callbacks tr = false →
  _onResult (("addnode", entry) :: more) st
  = (Throw "TypeError: trackedRequest.resolve is not a function", st).
Proof.
  intros Ht Hc. unfold _onResult. cbn [forEach fst snd]. unfold onResult_key.
  rewrite bool_decide_eq_true_2 by (unfold trackedCommands; left).
  change ("addnode" +:+ "-" +:+ to_str (r_address entry))
    with ("addnode-" +:+ to_str (r_address entry)).
  by rewrite Ht, Hc.
Qed.

(** X7: the last call of [sendMessageAsync] under the key of an address
    was made while not connected, so that the ledger entry has no
    callbacks.  A result message for that address makes the handler throw:
    the exception is logged, the promise is left as it is, and the keys
    that follow result in the message are not handled: nothing is
    queued for them. *)
Theorem result_without_callbacks_aborts st entry tr more rest :
  reachable st →
  _messageAsyncTracking st !! ("addnode-" +:+ to_str (r_address entry)) = Some tr →
  has_callbacks tr = false →
  let message := ("result", CResult (("addnode", entry) :: more)) :: rest in
  step (OnMessage message) st
  = log (LError "TypeError: trackedRequest.resolve is not a function")
      (emit (EMessageReceived message) st).
Proof.
  intros Hr Ht Hc. cbv zeta. destruct (reachable_wf st Hr) as [_ Hm].
  unfold step. cbn [run]. unfold _onMessage. cbn [forEach fst snd].
  unfold onMessage_key. rewrite decide_True by done. cbn [result_entries].
  rewrite (onResult_without_callbacks _ entry tr more) by done.
  by rewrite drain_idle.
Qed.

Lemma result_without_callbacks_witness :
  _messageAsyncTracking
    (step (addnode_call "first") (init identity0 ["D1"] (Some no_nodes)))
    !! "addnode-a1"
  = Some {| promise := 1; has_callbacks := false |}
  ∧ _queue (step (OnMessage
                    [("result", CResult [("addnode",
                                          {| r_address := Some "a1";
                                             r_success := true;
                                             r_reason := "ok" |})]);
                     ("config", CConfig snapshot_a1)])
              (step (addnode_call "first")
                 (init identity0 ["D1"] (Some no_nodes)))) = [].
Proof.
  split; [reflexivity|].
  rewrite (result_without_callbacks_aborts
             (step (addnode_call "first") (init identity0 ["D1"] (Some no_nodes)))
             {| r_address := Some "a1"; r_success := true; r_reason := "ok" |}
             {| promise := 1; has_callbacks := false |} []
             [("config", CConfig snapshot_a1)]).
  - reflexivity.
  - repeat constructor.
  - reflexivity.
  - reflexivity.
Defined.

(** X8: the keys startLogStream and stopLogStream are accepted by
    [_onMessage] and queued, but [_onMessageQueued] has no case for them:
    when the item is taken from the queue it is logged as an invalid queued
    message, and nothing else is done. *)
Theorem log_stream_keys_queued_then_refused key content st :
  (key = "startLogStream" ∨ key = "stopLogStream") →
  _queue st = [] → _shuttingDown st = false →
  let st1 := run (OnMessage [(key, content)]) st in
  _queue st1 = [ {| messageKey := key; messageContent := content;
                    clientId := None |} ]
  ∧ onDequeue st1
    = log (LError ("Invalid queued message " +:+ key +:+ " received"))
        (emit (EMessageReceived [(key, content)]) st).
Proof.
  intros Hk Hq Hs. cbv zeta. cbn [run]. unfold _onMessage.
  cbn [forEach fst snd]. unfold onMessage_key.
  assert (bool_decide (key ∈ queuedMessages) = true) as Hin
    by (destruct Hk as [-> | ->]; by vm_compute).
  assert (envelope_clientId [(key, content)] = None) as Hc
    by (destruct Hk as [-> | ->]; reflexivity).
  rewrite !decide_False by (destruct Hk as [-> | ->]; done).
  rewrite Hin, Hc. cbn [fst snd]. st_red_all. rewrite Hq. cbn [app].
  split; [done|].
  unfold onDequeue. st_red_all.
  unfold _onMessageQueued. st_red_all. rewrite Hs. cbn [negb].
  unfold onMessageQueued_switch. cbn [messageKey].
  rewrite !decide_False by (destruct Hk as [-> | ->]; done).
  st_red_all. reflexivity.
Qed.

Lemma log_stream_keys_witness :
  onDequeue (run (OnMessage [("startLogStream", COther "{}")]) started)
  = log (LError "Invalid queued message startLogStream received")
      (emit (EMessageReceived [("startLogStream", COther "{}")]) started).
Proof.
  destruct (log_stream_keys_queued_then_refused "startLogStream" (COther "{}")
              started) as [_ H].
  - by left.
  - reflexivity.
  - reflexivity.
  - exact H.
Defined.

(** ** Correlated requests *)

(** X9: a promise that is settled keeps its state through every later
    task: a result that arrives after the timeout, a timer that runs after
    the result, or a second result changes nothing. *)
Theorem settled_promise_is_final st p v l :
  reachable st → promises st !! p = Some v → v ≠ Pending →
  promises (steps l st) !! p = Some v.
Proof. intros Hr Hp Hv. by apply settled_once. Qed.

Lemma settled_promise_witness :
  promises (step (addnode_result true "ok") one_sent) !! 2
  = Some (Fulfilled (Reason "ok"))
  ∧ promises (steps [OnTimeout 3; addnode_result false "late"]
                (step (addnode_result true "ok") one_sent)) !! 2
    = Some (Fulfilled (Reason "ok")).
Proof.
  assert (promises (step (addnode_result true "ok") one_sent) !! 2
          = Some (Fulfilled (Reason "ok"))) as H by reflexivity.
  split; [exact H|].
  apply (settled_promise_is_final _ 2 (Fulfilled (Reason "ok"))
           [OnTimeout 3; addnode_result false "late"]).
  - repeat constructor.
  - exact H.
  - discriminate.
Defined.

(** What the executor of a call leaves of the timers. *)
Lemma resume_timeouts c st :
  timeouts (sendMessageAsync_resume c st)
  = if isConnected st && negb (call_timeout c =? 0)%Z
    then timeouts st ++ [(S (next_id st), call_timeout c, RejectTimeout (next_id st))]
    else timeouts st.
Proof.
  unfold sendMessageAsync_resume, fresh.
  destruct (isConnected st) eqn:Hc; [|st_red; done].
  destruct (call_timeout c =? 0)%Z; st_red; done.
Qed.

Lemma resume_microtasks c st :
  microtasks (sendMessageAsync_resume c st) = microtasks st.
Proof. rewrite (resume_only c st). reflexivity. Qed.

Lemma resume_awaiting c st :
  awaiting (sendMessageAsync_resume c st) = awaiting st.
Proof. rewrite (resume_only c st). reflexivity. Qed.

(** X10: a call of [sendMessageAsync] made while connected, under a key
    that has no entry in the ledger, publishes its message in the task of
    the call, stores the entry with its callbacks and returns a pending
    promise; the timer of the timeout is armed, except for a timeout of
    zero, which arms none. *)
Theorem sendMessageAsync_first_call key message timeout st :
  reachable st → isConnected st = true →
  _messageAsyncTracking st !! key = None →
  let st' := step (OnCalls [CallSendMessageAsync key message timeout]) st in
  let p := S (next_id st) in
  (sendMessageAsync key message timeout st).1 = next_id st
  ∧ published st' = published st ++ [stamp (ident st) message None]
  ∧ _messageAsyncTracking st' !! key
    = Some {| promise := p; has_callbacks := true |}
  ∧ returned st' (next_id st) = Some Pending
  ∧ timeouts st'
    = if (timeout =? 0)%Z then timeouts st
      else timeouts st ++ [(S p, timeout, RejectTimeout p)].
Proof.
  intros Hr Hc Hk. destruct (reachable_wf st Hr) as [_ Hm].
  cbv zeta. unfold step. cbn [run foldl api_call].
  unfold sendMessageAsync. rewrite Hk. unfold fresh. cbn [fst snd].
  split; [done|].
  destruct (resume_connected
              {| call_id := next_id st; call_key := key;
                 call_message := message; call_timeout := timeout |}
              (set_next_id (S (next_id st)) st) Hc) as (H1 & H2 & H3 & H4 & _).
  cbv zeta in *. cbn [call_id call_key call_timeout call_message] in *.
  change (next_id (set_next_id (S (next_id st)) st)) with (S (next_id st)) in *.
  rewrite drain_idle by (rewrite resume_microtasks; exact Hm).
  split; [exact H4|]. split; [exact H2|].
  split; [unfold returned; by rewrite H3, H1|].
  rewrite resume_timeouts. cbn [call_timeout].
  change (isConnected (set_next_id (S (next_id st)) st)) with (isConnected st).
  rewrite Hc. cbn [andb]. by destruct (timeout =? 0)%Z.
Qed.

Lemma sendMessageAsync_first_call_witness :
  published one_sent
  = published started ++ [stamp (ident started) (BOther "first") None]
  ∧ returned one_sent (next_id started) = Some Pending.
Proof.
  destruct (sendMessageAsync_first_call "addnode-a1" (BOther "first") 15000
              started) as (_ & H2 & _ & H4 & _).
  - repeat constructor.
  - reflexivity.
  - reflexivity.
  - split; [exact H2|exact H4].
Defined.

(** A suspended call stays suspended through any tasks at the end of
    which the promise it awaits is pending. *)
Lemma suspended_while_pending l st p c :
  reachable st → (p, c) ∈ awaiting st →
  promises (steps l st) !! p = Some Pending →
  (p, c) ∈ awaiting (steps l st).
Proof.
  revert st. induction l as [|i l IH]; intros st Hr Hw Hp; [done|].
  cbn [steps foldl] in *. apply IH; [by constructor| |done].
  destruct (evolves_suspended _ _ (step_evolves i st Hr) _ Hw)
    as [H|(v & Hv & Hs)]; [done|].
  cbn [fst] in Hv.
  assert (promises (steps l (step i st)) !! p = Some v) as Hv'
    by (apply settled_once; [by constructor|done|done]).
  unfold steps in Hv'. rewrite Hp in Hv'. injection Hv' as <-. by destruct Hs.
Qed.

(** X11: a call of [sendMessageAsync] made while the request tracked under
    its key is pending publishes nothing, arms no timer and leaves the
    ledger; it waits for the promise of that request, and is still waiting
    after any tasks at the end of which that promise is pending. *)
Theorem sendMessageAsync_waits_for_pending key message timeout st tr l :
  reachable st →
  _messageAsyncTracking st !! key = Some tr →
  promises st !! promise tr = Some Pending →
  let st' := step (OnCalls [CallSendMessageAsync key message timeout]) st in
  let c := {| call_id := next_id st; call_key := key;
              call_message := message; call_timeout := timeout |} in
  published st' = published st
  ∧ timeouts st' = timeouts st
  ∧ _messageAsyncTracking st' = _messageAsyncTracking st
  ∧ (promise tr, c) ∈ awaiting st'
  ∧ (promises (steps l st') !! promise tr = Some Pending →
     (promise tr, c) ∈ awaiting (steps l st')).
Proof.
  intros Hr Hk Hp. destruct (reachable_wf st Hr) as [_ Hm].
  cbv zeta.
  assert (step (OnCalls [CallSendMessageAsync key message timeout]) st
          = set_awaiting
              (awaiting st ++ [(promise tr,
                                {| call_id := next_id st; call_key := key;
                                   call_message := message;
                                   call_timeout := timeout |})])
              (set_next_id (S (next_id st)) st)) as Hstep.
  { unfold step. cbn [run foldl api_call].
    unfold sendMessageAsync. rewrite Hk, Hp. unfold fresh. cbn [fst snd].
    by rewrite drain_idle. }
  assert (reachable (step (OnCalls [CallSendMessageAsync key message timeout]) st))
    as Hr' by (by constructor).
  assert ((promise tr, {| call_id := next_id st; call_key := key;
                          call_message := message; call_timeout := timeout |})
          ∈ awaiting (step (OnCalls [CallSendMessageAsync key message timeout]) st))
    as Hin.
  { rewrite Hstep. st_red. apply elem_of_app. right. left. }
  split; [by rewrite Hstep|]. split; [by rewrite Hstep|].
  split; [by rewrite Hstep|]. split; [exact Hin|].
  intros Hl. by apply suspended_while_pending.
Qed.

Lemma sendMessageAsync_waits_witness :
  published (step (addnode_call "second") one_sent) = published one_sent
  ∧ (2, {| call_id := 4; call_key := "addnode-a1";
           call_message := BOther "second"; call_timeout := 15000 |})
    ∈ awaiting (step (addnode_call "second") one_sent).
Proof.
  destruct (sendMessageAsync_waits_for_pending "addnode-a1" (BOther "second")
              15000 one_sent {| promise := 2; has_callbacks := true |} [])
    as (H1 & _ & _ & H4 & _).
  - repeat constructor.
  - reflexivity.
  - reflexivity.
  - split; [exact H1|exact H4].
Defined.

(** No call waits for a promise that does not exist yet. *)
Lemma no_waiter_for_fresh st p :
  wf st → next_id st ≤ p → filter (λ w : nat * Call, w.1 = p) (awaiting st) = [].
Proof.
  intros [Hprom _ _ Haw] Hp.
  assert (∀ w, w ∈ awaiting st → w.1 ≠ p) as Hne.
  { intros w Hw Heq. apply Haw, Hprom in Hw. lia. }
  clear Haw. induction (awaiting st) as [|w l IH]; [done|].
  rewrite filter_cons_False by (apply Hne; left).
  apply IH. intros w' Hw'. apply Hne. by right.
Qed.

(** Settling a promise that no call awaits readies nothing. *)
Lemma settle_no_waiter p v st :
  promises st !! p = Some Pending →
  filter (λ w : nat * Call, w.1 = p) (awaiting st) = [] →
  microtasks st = [] →
  drain (settle p v st) = settle p v st
  ∧ call_promise (settle p v st) = call_promise st
  ∧ promises (settle p v st) !! p = Some v.
Proof.
  intros Hp Hw Hm. unfold settle. rewrite Hp, Hw, Hm. cbn [fmap list_fmap app].
  split; [by apply drain_idle|]. split; [done|]. st_red.
  apply lookup_insert_eq.
Qed.

(** X12: [addNode] of an object that has [convertDrivers], made while
    connected and with no request in the ledger for its address, publishes
    the addnode message and returns a pending promise; when the result
    message for that address is handled, the promise is fulfilled with the
    reason of the result if it tells success, and rejected with it
    otherwise. *)
Theorem addNode_settled_by_result o success reason st :
  reachable st → isConnected st = true → o_hasConvertDrivers o = true →
  _messageAsyncTracking st !! ("addnode-" +:+ to_str (o_address o)) = None →
  let st1 := step (OnCalls [CallAddNode (AObj o)]) st in
  let result :=
    OnMessage [("result",
                CResult [("addnode", {| r_address := o_address o;
                                        r_success := success;
                                        r_reason := reason |})])] in
  (addNode (AObj o) st).1 = (Normal, Some (next_id st))
  ∧ published st1 = published st ++ [stamp (ident st) (addnode_body o) None]
  ∧ returned st1 (next_id st) = Some Pending
  ∧ returned (step result st1) (next_id st)
    = Some (if success then Fulfilled (Reason reason)
            else Rejected (Reason reason)).
Proof.
  intros Hr Hc Ho Hk. cbv zeta.
  destruct (reachable_wf st Hr) as [Hwf Hm].
  set (c := {| call_id := next_id st;
               call_key := "addnode-" +:+ to_str (o_address o);
               call_message := addnode_body o; call_timeout := 15000 |}).
  assert (addNode (AObj o) st
          = (Normal, Some (next_id st),
             sendMessageAsync_resume c
               (set_next_id (S (next_id st)) (log (LInfo "Sending message") st))))
    as Hadd.
  { unfold addNode. cbn [not_a_Node_guard js_not instanceof_Node]. rewrite Ho.
    unfold sendMessageAsync.
    change (_messageAsyncTracking (log _ st)) with (_messageAsyncTracking st).
    rewrite Hk. reflexivity. }
  assert (step (OnCalls [CallAddNode (AObj o)]) st
          = sendMessageAsync_resume c
              (set_next_id (S (next_id st)) (log (LInfo "Sending message") st)))
    as Hstep.
  { unfold step. cbn [run foldl api_call]. rewrite Hadd. cbn [snd].
    apply drain_idle. rewrite resume_microtasks. exact Hm. }
  destruct (resume_connected c
              (set_next_id (S (next_id st)) (log (LInfo "Sending message") st)) Hc)
    as (H1 & H2 & H3 & H4 & _).
  cbv zeta in *. subst c.
  change (next_id (set_next_id (S (next_id st)) (log (LInfo "Sending message") st)))
    with (S (next_id st)) in *.
  cbn [call_id call_key call_message] in H2, H3, H4.
  rewrite <-Hstep in H1, H2, H3, H4.
  split; [by rewrite Hadd|]. split; [exact H4|].
  split; [unfold returned; by rewrite H3, H1|].
  assert (awaiting (step (OnCalls [CallAddNode (AObj o)]) st) = awaiting st)
    as Ha by (rewrite Hstep, resume_awaiting; reflexivity).
  assert (microtasks (step (OnCalls [CallAddNode (AObj o)]) st) = [])
    as Hm1 by (rewrite Hstep, resume_microtasks; exact Hm).
  unfold step at 1. cbn [run].
  rewrite (onMessage_addnode_result _ _
             {| promise := S (next_id st); has_callbacks := true |});
    [|exact H2|reflexivity].
  cbn [promise r_success r_reason]. lazy beta iota.
  destruct (settle_no_waiter (S (next_id st))
              (if success then Fulfilled (Reason reason)
               else Rejected (Reason reason))
              (emit (EMessageReceived
                       [("result",
                         CResult [("addnode",
                                   {| r_address := o_address o;
                                      r_success := success;
                                      r_reason := reason |})])])
                 (step (OnCalls [CallAddNode (AObj o)]) st)))
    as (Hd & Hcp & Hpr).
  - exact H1.
  - change (awaiting (emit ?e ?s)) with (awaiting s). rewrite Ha.
    apply no_waiter_for_fresh; [exact Hwf|lia].
  - exact Hm1.
  - rewrite Hd. unfold returned. rewrite Hcp.
    change (call_promise (emit ?e ?s)) with (call_promise s).
    by rewrite H3, Hpr.
Qed.

Lemma addNode_settled_witness :
  returned (step (OnCalls [CallAddNode (AObj node_object)]) started)
    (next_id started) = Some Pending
  ∧ returned (step (addnode_result false "exists")
                (step (OnCalls [CallAddNode (AObj node_object)]) started))
      (next_id started)
    = Some (Rejected (Reason "exists")).
Proof.
  destruct (addNode_settled_by_result node_object false "exists" started)
    as (_ & _ & H3 & H4).
  - repeat constructor.
  - reflexivity.
  - reflexivity.
  - reflexivity.
  - split; [exact H3|exact H4].
Defined.

(** ** The timers and the fields that describe them *)

(** An operation that writes none of the fields of the timers and does not
    lower the next handle. *)
Lemma only_tidy fs st st' :
  grows st st' →
  has fs F_configCounter = false → has fs F_timeouts = false →
  has fs F_intervals = false →
  has fs F_shortPollValue = false → has fs F_shortPollTimer = false →
  has fs F_longPollValue = false → has fs F_longPollTimer = false →
  only fs st st' → tidy st → tidy st'.
Proof.
  intros G H1 H2 H3 H4 H5 H6 H7 Ho [Hwf [Hc Hb Hd Hcur]].
  split; [by apply (wf_grows st)|].
  pose proof (evolves_next_id _ _ (G Hwf)) as Hn.
  unfold only in Ho.
  pose proof (f_equal _configCounter Ho) as E1.
  pose proof (f_equal timeouts Ho) as E2.
  pose proof (f_equal intervals Ho) as E3.
  pose proof (f_equal shortPollValue Ho) as E4.
  pose proof (f_equal shortPollTimer Ho) as E5.
  pose proof (f_equal longPollValue Ho) as E6.
  pose proof (f_equal longPollTimer Ho) as E7.
  clear Ho.
  cbn [part _configCounter timeouts intervals shortPollValue shortPollTimer
       longPollValue longPollTimer] in *.
  rewrite H1 in E1. rewrite H2 in E2. rewrite H3 in E3. rewrite H4 in E4.
  rewrite H5 in E5. rewrite H6 in E6. rewrite H7 in E7.
  split; unfold pending_decrements in *; st_red_all.
  - by rewrite E1, E2.
  - intros t Ht. rewrite E3 in Ht. apply Hb in Ht. lia.
  - by rewrite E3.
  - intros h isLong d Hin. rewrite E3 in Hin. specialize (Hcur h isLong d Hin).
    destruct isLong; cbn [poll_of] in *; by rewrite ?E4, ?E5, ?E6, ?E7.
Qed.

Ltac tidy_frame G O :=
  apply (only_tidy _ _ _ G eq_refl eq_refl eq_refl eq_refl eq_refl eq_refl eq_refl O).

(** Setters that leave the timers and their fields. *)
Ltac tidy_prim :=
  apply (only_tidy [F_mqttClientConnected; F_shuttingDown; F_nodeClasses;
                    F_nodes; F_config; F_queue; F_ident; F_microtasks;
                    F_next_id; F_call_promise; F_published; F_emitted;
                    F_logs; F_mqttEnded; F_subscriptions]);
  [grows_prim|reflexivity..|unfold only; st_eq].

(** [tidy_by lem] peels the last operation, which keeps the invariant by
    [lem]. *)
Ltac tidy_by lem := let H := fresh in intros H; apply lem; revert H.

Lemma tidy_wf st : tidy st → wf st.
Proof. by intros [? ?]. Qed.

Lemma filter_decrements_snoc (l : list (nat * Z * TimeoutAction)) t :
  length (filter (λ t, is_decrement t = true) (l ++ [t]))
  = length (filter (λ t, is_decrement t = true) l)
    + (if is_decrement t then 1 else 0).
Proof.
  rewrite filter_app, length_app. f_equal.
  rewrite filter_cons, filter_nil. destruct (is_decrement t); by case_decide.
Qed.

Lemma detectConfigLoop_tidy st : tidy st → tidy (_detectConfigLoop st).2.
Proof.
  intros [Hwf [Hc Hb Hd Hcur]].
  split; [eapply wf_grows; [exact Hwf|apply detectConfigLoop_grows]|].
  unfold _detectConfigLoop, setTimeout, fresh. cbn [snd].
  split; unfold pending_decrements in *; st_red_all.
  - rewrite filter_decrements_snoc. cbn [is_decrement snd]. lia.
  - intros t Ht. apply Hb in Ht. lia.
  - done.
  - intros h isLong d Hin. specialize (Hcur h isLong d Hin).
    by destruct isLong.
Qed.

Lemma resume_tidy c st : tidy st → tidy (sendMessageAsync_resume c st).
Proof.
  intros [Hwf [Hc Hb Hd Hcur]].
  split; [eapply wf_grows; [exact Hwf|apply resume_grows]|].
  pose proof (resume_timeouts c st) as Ht.
  pose proof (evolves_next_id _ _ (resume_grows c st Hwf)) as Hn.
  pose proof (resume_only c st) as Ho. unfold only in Ho.
  pose proof (f_equal _configCounter Ho) as E1.
  pose proof (f_equal intervals Ho) as E3.
  pose proof (f_equal shortPollValue Ho) as E4.
  pose proof (f_equal shortPollTimer Ho) as E5.
  pose proof (f_equal longPollValue Ho) as E6.
  pose proof (f_equal longPollTimer Ho) as E7.
  clear Ho.
  cbn [part _configCounter intervals shortPollValue shortPollTimer
       longPollValue longPollTimer has resume_footprint field_index
       same_index] in *.
  generalize dependent (sendMessageAsync_resume c st). intros st' Ht Hn E1 E3 E4 E5 E6 E7.
  split; unfold pending_decrements in *; st_red_all.
  - rewrite E1, Ht, Hc.
    destruct (_ && _); [|done].
    rewrite filter_decrements_snoc. cbn [is_decrement snd]. lia.
  - intros t Hin. rewrite E3 in Hin. apply Hb in Hin. lia.
  - by rewrite E3.
  - intros h isLong d Hin. rewrite E3 in Hin. specialize (Hcur h isLong d Hin).
    destruct isLong; cbn [poll_of] in *; by rewrite ?E4, ?E5, ?E6, ?E7.
Qed.

Lemma run_microtasks_tidy fuel st : tidy st → tidy (run_microtasks fuel st).
Proof.
  revert st. induction fuel as [|fuel IH]; intros st; [done|].
  cbn [run_microtasks]. destruct (microtasks st) as [|c rest]; [done|].
  tidy_by IH. tidy_by resume_tidy. tidy_prim.
Qed.

Lemma sendMessageAsync_tidy key message timeout st :
  tidy st → tidy (sendMessageAsync key message timeout st).2.
Proof.
  pose proof (sendMessageAsync_grows key message timeout st) as G.
  unfold sendMessageAsync, fresh in *.
  destruct (_messageAsyncTracking st !! key) as [tr|].
  - destruct (promises st !! promise tr) as [[]|]; cbn [snd] in *.
    + apply (only_tidy [F_next_id; F_awaiting] _ _ G);
        [reflexivity..|unfold only; st_eq].
    + apply (only_tidy [F_next_id; F_microtasks] _ _ G);
        [reflexivity..|unfold only; st_eq].
    + apply (only_tidy [F_next_id; F_microtasks] _ _ G);
        [reflexivity..|unfold only; st_eq].
    + apply (only_tidy [F_next_id; F_microtasks] _ _ G);
        [reflexivity..|unfold only; st_eq].
  - cbn [snd]. tidy_by resume_tidy. tidy_prim.
Qed.

Lemma poll_of_isLongPoll poll : poll_of (isLongPoll poll) = poll.
Proof. by destruct poll. Qed.

Lemma checkPollingInterval_tidy poll v st :
  tidy st → tidy (_checkPollingInterval poll v st).
Proof.
  intros [Hwf [Hc Hb Hd Hcur]].
  split; [eapply wf_grows; [exact Hwf|apply checkPollingInterval_grows]|].
  destruct (decide (pollValue poll st = v)) as [He|Hne].
  { rewrite checkPollingInterval_same by done. by split. }
  assert (∀ isLong, poll_of isLong ≠ poll →
            pollTimer (poll_of isLong) (_checkPollingInterval poll v st)
            = pollTimer (poll_of isLong) st
            ∧ pollValue (poll_of isLong) (_checkPollingInterval poll v st)
              = pollValue (poll_of isLong) st) as Hother.
  { intros isLong Hp. open_checkPolling; try done;
      destruct isLong; cbn [poll_of] in *; try done; split; st_eq. }
  assert (next_id (_checkPollingInterval poll v st) = S (next_id st)
          ∧ _configCounter (_checkPollingInterval poll v st) = _configCounter st
          ∧ timeouts (_checkPollingInterval poll v st) = timeouts st) as (Hn & Hcc & Hto).
  { open_checkPolling; try done; repeat split; st_eq. }
  destruct (checkPollingInterval_changed poll v st Hne) as (Hv & Ht & Hi).
  cbv zeta in *.
  assert (∀ t, t ∈ intervals (clearInterval (pollTimer poll st) st) →
            t ∈ intervals st ∧ pollTimer poll st ≠ Some t.1.1) as Hclear.
  { intros t. unfold clearInterval. destruct (pollTimer poll st) as [h0|].
    - st_red. intros [Hh Hin]%list_elem_of_filter. split; [done|congruence].
    - by intros Hin. }
  assert (NoDup (intervals (clearInterval (pollTimer poll st) st))) as Hnd.
  { unfold clearInterval. destruct (pollTimer poll st); [|done].
    st_red. by apply NoDup_filter. }
  generalize dependent (_checkPollingInterval poll v st).
  intros st' Hother Hn Hcc Hto Hv Ht Hi.
  split; unfold pending_decrements in *.
  - by rewrite Hcc, Hto.
  - intros t. rewrite Hi, Hn.
    intros [[Hin _]%Hclear | ->%list_elem_of_singleton]%elem_of_app.
    + apply Hb in Hin. lia.
    + cbn. lia.
  - rewrite Hi. apply NoDup_app. split; [exact Hnd|]. split; [|apply NoDup_singleton].
    intros t [Hin _]%Hclear ->%list_elem_of_singleton.
    apply Hb in Hin. cbn in Hin. lia.
  - intros h isLong d. rewrite Hi.
    intros [[Hin Hno]%Hclear | [= -> -> ->]%list_elem_of_singleton]%elem_of_app.
    + destruct (Hcur h isLong d Hin) as [Hh Hdel].
      assert (poll_of isLong ≠ poll) as Hp
        by (intros <-; cbn [fst] in Hno; congruence).
      destruct (Hother isLong Hp) as [-> ->]. done.
    + rewrite poll_of_isLongPoll. by rewrite Hv, Ht.
Qed.

Lemma clearInterval_tidy h st : tidy st → tidy (clearInterval h st).
Proof.
  intros [Hwf [Hc Hb Hd Hcur]]. unfold clearInterval.
  destruct h as [id|]; [|by split].
  split.
  - eapply wf_grows; [exact Hwf|]. grows_prim.
  - split; unfold pending_decrements in *; st_red_all.
    + done.
    + intros t [_ Hin]%list_elem_of_filter. by apply Hb.
    + by apply NoDup_filter.
    + intros h isLong d [_ Hin]%list_elem_of_filter. by apply Hcur.
Qed.

Lemma stop_tidy st : tidy st → tidy (stop st).
Proof.
  unfold stop. tidy_by clearInterval_tidy. tidy_by clearInterval_tidy.
  tidy_prim.
Qed.

Lemma filter_split_length {A} (P Q : A → Prop) `{∀ x, Decision (P x)}
    `{∀ x, Decision (Q x)} (l : list A) :
  length (filter P l)
  = length (filter P (filter (λ x, ¬ Q x) l)) + length (filter P (filter Q l)).
Proof.
  induction l as [|x l IH]; [done|].
  rewrite !(filter_cons _ x l).
  destruct (decide (Q x)), (decide (P x)), (decide (¬ Q x)); try done;
    rewrite ?filter_cons_True, ?filter_cons_False by done; cbn [length]; lia.
Qed.

Lemma onTimeout_tidy id st : tidy st → tidy (onTimeout id st).
Proof.
  intros [Hwf [Hc Hb Hd Hcur]].
  split; [eapply wf_grows; [exact Hwf|apply onTimeout_grows]|].
  pose proof (onTimeout_grows id st Hwf) as G.
  unfold onTimeout in *.
  destruct (filter (λ t, t.1.1 = id) (timeouts st)) as [|[[h d] action] l] eqn:E;
    [by split|].
  assert ((h, d, action) ∈ timeouts st ∧ h = id) as [Hin ->].
  { assert ((h, d, action) ∈ filter (λ t, t.1.1 = id) (timeouts st)) as Hf
      by (rewrite E; left).
    apply list_elem_of_filter in Hf as [? ?]. done. }
  rewrite (filter_unique_timeout _ id d action) in E;
    [|apply Hwf|done]. injection E as <-.
  pose proof (filter_split_length (λ t, is_decrement t = true)
                (λ t : nat * Z * TimeoutAction, t.1.1 = id) (timeouts st)) as Hlen.
  rewrite (filter_unique_timeout _ id d action) in Hlen; [|apply Hwf|done].
  rewrite filter_cons, filter_nil in Hlen.
  assert (timers_ok (set_timeouts (filter (λ t, t.1.1 ≠ id) (timeouts st))
                       (set_configCounter
                          (_configCounter st
                           - (if is_decrement (id, d, action) then 1 else 0))%Z st)))
    as Hmid.
  { split; unfold pending_decrements in *; st_red_all.
    - destruct (decide (is_decrement (id, d, action) = true)) as [Ed|Ed].
      + rewrite Ed. cbn [length] in Hlen. lia.
      + apply not_true_is_false in Ed. rewrite Ed. cbn [length] in Hlen. lia.
    - done.
    - done.
    - intros h isLong d' Hin'. specialize (Hcur h isLong d' Hin').
      by destruct isLong. }
  destruct action; cbn [is_decrement snd] in Hmid.
  - replace (set_configCounter _ (set_timeouts _ st)) with
      (set_timeouts (filter (λ t, t.1.1 ≠ id) (timeouts st))
         (set_configCounter (_configCounter st - 1)%Z st)) by st_eq.
    exact Hmid.
  - replace (set_configCounter (_configCounter st - 0)%Z st) with st in Hmid
      by (rewrite Z.sub_0_r; st_eq).
    assert (wf (set_timeouts (filter (λ t, t.1.1 ≠ id) (timeouts st)) st)) as Hwf1.
    { eapply wf_grows; [exact Hwf|].
      intros [Wp Wt Wd Wa]. split; evolves_goal.
      - intros x Hx. left. by apply filter_timeout_ids in Hx.
      - by apply filter_timeout_ids. }
    apply (only_tidy [F_promises; F_awaiting; F_microtasks]
             (set_timeouts (filter (λ t, t.1.1 ≠ id) (timeouts st)) st));
      [by apply settle_grows|reflexivity..|apply settle_only|by split].
Qed.

Lemma onConfig_tidy config isInitialConfig st :
  tidy st → tidy (_onConfig config isInitialConfig st).
Proof.
  unfold _onConfig.
  match goal with |- context [_detectConfigLoop ?s] =>
    pose proof (detectConfigLoop_tidy s) as Hd;
    destruct (_detectConfigLoop s) as [loop s3]; cbn [snd] in Hd;
    intros H; assert (tidy s3) as H3; [apply Hd; revert H; clear Hd|]
  end.
  - tidy_by checkPollingInterval_tidy. tidy_by checkPollingInterval_tidy.
    match goal with |- _ → tidy (set_config _ ?s) =>
      intros H0; assert (tidy s) as Hs; [revert H0|revert Hs; tidy_prim] end.
    apply (only_tidy [F_nodes; F_logs]);
      [grows_frame onConfig_loops_only|reflexivity..|apply onConfig_loops_only].
  - revert H3. case_match; tidy_prim.
Qed.

Lemma getNode_tidy address st : tidy st → tidy (getNode address st).2.
Proof.
  apply (only_tidy [F_logs]);
    [apply getNode_grows|reflexivity..|apply getNode_only].
Qed.

Lemma onMessageQueued_switch_tidy opt st :
  tidy st → tidy (onMessageQueued_switch opt st).2.
Proof.
  unfold onMessageQueued_switch.
  repeat case_decide.
  - destruct (messageContent opt); cbn [snd]; try done.
    apply onConfig_tidy.
  - destruct (messageContent opt); cbn [snd]; try apply getNode_tidy.
    pose proof (getNode_tidy address st) as Hg.
    destruct (getNode address st) as [[node|] st']; cbn [snd] in *; [|done].
    intros Ht. apply Hg in Ht. revert Ht. tidy_prim.
  - destruct (messageContent opt); cbn [snd]; try apply getNode_tidy.
    pose proof (getNode_tidy address st) as Hg.
    destruct (getNode address st) as [[node|] st']; cbn [snd] in *; [|done].
    intros Ht. apply Hg in Ht. revert Ht. tidy_prim.
  - destruct (messageContent opt); cbn [snd]; try apply getNode_tidy.
    pose proof (getNode_tidy address st) as Hg.
    destruct (getNode address st) as [[node|] st']; cbn [snd] in *; [|done].
    intros Ht. apply Hg in Ht. revert Ht. destruct requestId; cbn [snd]; tidy_prim.
  - destruct (messageContent opt), (_config st); cbn [snd]; try done.
    tidy_by checkPollingInterval_tidy. tidy_by checkPollingInterval_tidy.
    tidy_prim.
  - cbn [snd]. tidy_prim.
  - cbn [snd]. tidy_prim.
Qed.

Lemma onMessageQueued_tidy opt st : tidy st → tidy (_onMessageQueued opt st).2.
Proof.
  unfold _onMessageQueued, onMessageQueued_drop. case_match.
  - apply onMessageQueued_switch_tidy.
  - cbn [snd]. tidy_prim.
Qed.

Lemma onDequeue_tidy st : tidy st → tidy (onDequeue st).
Proof.
  unfold onDequeue. destruct (_queue st) as [|opt rest]; [done|].
  pose proof (onMessageQueued_tidy opt (set_queue rest st)) as H.
  destruct (_onMessageQueued opt (set_queue rest st)) as [[|what] st'];
    cbn [snd] in H.
  - intros Ht. apply H. revert Ht. tidy_prim.
  - intros Ht. assert (tidy st') as Hs by (apply H; revert Ht; tidy_prim).
    revert Hs. tidy_prim.
Qed.

Lemma onMqtt_tidy signal st : tidy st → tidy (onMqtt signal st).
Proof.
  destruct signal; cbn [onMqtt]; try tidy_prim.
  case_match; [|tidy_prim].
  tidy_by onConfig_tidy. tidy_prim.
Qed.

Lemma addNode_tidy node st : tidy st → tidy (addNode node st).2.
Proof.
  unfold addNode. repeat case_match; simplify_eq; cbn [snd];
    try done; try tidy_prim.
  match goal with H : sendMessageAsync ?k ?m ?t ?s = (_, ?s') |- _ =>
    pose proof (sendMessageAsync_tidy k m t s) as Hs; rewrite H in Hs;
    cbn [snd] in Hs
  end.
  intros Ht. apply Hs. revert Ht. tidy_prim.
Qed.

Lemma api_call_tidy c st : tidy st → tidy (api_call c st).
Proof.
  destruct c; cbn [api_call].
  - apply sendMessageAsync_tidy.
  - unfold sendMessage. case_match; [tidy_prim|done].
  - apply addNode_tidy.
  - apply (only_tidy [F_logs; F_published; F_emitted]);
      [grows_frame delNode_only|reflexivity..|apply delNode_only].
  - apply stop_tidy.
Qed.

Lemma run_tidy i st : tidy st → tidy (run i st).
Proof.
  destruct i; cbn [run].
  - apply onMqtt_tidy.
  - pose proof (onMessage_grows message st) as G.
    pose proof (onMessage_only message st) as O.
    destruct (_onMessage message st) as [[|what] st']; cbn [snd] in *.
    + apply (only_tidy message_footprint _ _ G); [reflexivity..|exact O].
    + intros H.
      assert (tidy st') as Hs
        by (revert H; apply (only_tidy message_footprint _ _ G);
            [reflexivity..|exact O]).
      revert Hs. tidy_prim.
  - apply onDequeue_tidy.
  - apply onTimeout_tidy.
  - apply (only_tidy [F_emitted]);
      [grows_frame tick_only|reflexivity..|apply tick_only].
  - revert st. induction calls as [|c calls IH]; intros st; [done|].
    cbn [foldl]. tidy_by IH. apply api_call_tidy.
Qed.

Lemma step_tidy i st : tidy st → tidy (step i st).
Proof. unfold step, drain. tidy_by run_microtasks_tidy. apply run_tidy. Qed.

Lemma reachable_tidy st : reachable st → tidy st.
Proof.
  induction 1 as [identity classes config|i st Hr IH].
  - split; [apply init_wf|]. split; cbn.
    + done.
    + intros t Ht. by apply elem_of_nil in Ht.
    + apply NoDup_nil_2.
    + intros h isLong d Ht. by apply elem_of_nil in Ht.
  - by apply step_tidy.
Qed.

(** X13: in every state the interface reaches, the loop counter is the
    number of decrement timers that are still to run, one for each
    snapshot applied in the last ten seconds; it is never negative, and it
    is zero exactly when no such timer is left. *)
Theorem configCounter_counts_pending_decrements st :
  reachable st →
  _configCounter st = Z.of_nat (pending_decrements st)
  ∧ (0 <= _configCounter st)%Z
  ∧ (_configCounter st = 0%Z
     ↔ ∀ t, t ∈ timeouts st → t.2 ≠ DecrementConfigCounter).
Proof.
  intros Hr. destruct (reachable_tidy st Hr) as [_ [Hc _ _ _]].
  split; [exact Hc|]. split; [lia|].
  rewrite Hc. unfold pending_decrements. split.
  - intros H0 t Hin Ht.
    assert (t ∈ filter (λ t, is_decrement t = true) (timeouts st)) as Hf.
    { apply list_elem_of_filter. split; [|done]. unfold is_decrement.
      by rewrite Ht. }
    destruct (filter _ (timeouts st)); [by apply elem_of_nil in Hf|].
    cbn [length] in H0. lia.
  - intros Hall.
    destruct (filter (λ t, is_decrement t = true) (timeouts st)) as [|t l] eqn:E;
      [done|].
    assert (t ∈ filter (λ t, is_decrement t = true) (timeouts st)) as Hf
      by (rewrite E; left).
    apply list_elem_of_filter in Hf as [Hd Hin]. apply Hall in Hin.
    unfold is_decrement in Hd. by destruct (t.2).
Qed.

Lemma configCounter_witness :
  _configCounter stormed = Z.of_nat (pending_decrements stormed)
  ∧ pending_decrements stormed = 30.
Proof.
  destruct (configCounter_counts_pending_decrements stormed) as [H _].
  - apply (reachable_steps
             (concat (replicate 29 [config_message no_nodes; OnDequeue])) started).
    repeat constructor.
  - split; [exact H|by vm_compute].
Defined.

Lemma bool_nodup_length (l : list bool) : NoDup l → length l ≤ 2.
Proof.
  intros Hd. destruct l as [|a [|b [|c l]]]; cbn [length]; try lia.
  exfalso.
  apply NoDup_cons in Hd as [Ha Hd]. apply NoDup_cons in Hd as [Hb _].
  destruct a, b, c;
    first [ apply Ha; by repeat constructor | apply Hb; by repeat constructor ].
Qed.

(** X14: in every state the interface reaches, an armed poll timer is the
    one stored for its class, and its delay is a thousand times the
    period stored for the class; so no class has two timers armed, and at
    most two timers are armed. *)
Theorem poll_timers_match_periods st :
  reachable st →
  (∀ h isLong d, (h, isLong, d) ∈ intervals st →
     pollTimer (poll_of isLong) st = Some h
     ∧ d = (λ v, v * 1000)%Z <$> pollValue (poll_of isLong) st)
  ∧ NoDup (intervals st)
  ∧ (∀ t1 t2, t1 ∈ intervals st → t2 ∈ intervals st →
              t1.1.2 = t2.1.2 → t1 = t2)
  ∧ length (intervals st) ≤ 2.
Proof.
  intros Hr. destruct (reachable_tidy st Hr) as [_ [_ _ Hd Hcur]].
  assert (∀ t1 t2, t1 ∈ intervals st → t2 ∈ intervals st →
                   t1.1.2 = t2.1.2 → t1 = t2) as Hone.
  { intros [[h1 c1] d1] [[h2 c2] d2] H1 H2 Hc. cbn in Hc. subst c2.
    destruct (Hcur _ _ _ H1) as [Ha ->]. destruct (Hcur _ _ _ H2) as [Hb ->].
    rewrite Ha in Hb. by injection Hb as ->. }
  split; [exact Hcur|]. split; [exact Hd|]. split; [exact Hone|].
  rewrite <-(length_fmap (λ t : nat * bool * option Z, t.1.2)).
  apply bool_nodup_length. by apply NoDup_fmap_2_strong.
Qed.

Lemma poll_timers_witness :
  intervals with_a1 = [(1, false, Some 30000%Z); (2, true, Some 60000%Z)]
  ∧ length (intervals with_a1) ≤ 2.
Proof.
  destruct (poll_timers_match_periods with_a1) as (_ & _ & _ & H).
  - apply (reachable_steps [config_message snapshot_a1; OnDequeue]).
    repeat constructor.
  - split; [by vm_compute|exact H].
Defined.

(** X15: after [stop()] no poll timer is armed, whatever the state the
    interface had reached, and the tick of any handle does nothing. *)
Theorem stop_disarms_polling st :
  reachable st →
  intervals (stop st) = [] ∧ ∀ id, tick id (stop st) = stop st.
Proof.
  intros Hr. destruct (reachable_tidy st Hr) as [_ [_ _ _ Hcur]].
  assert (intervals (stop st) = []) as He.
  { destruct (intervals (stop st)) as [|[[h isLong] d] l] eqn:E; [done|].
    assert ((h, isLong, d) ∈ intervals (stop st)) as Hin by (rewrite E; left).
    apply stop_intervals in Hin as (Hin & Hs & Hl). cbn [fst] in Hs, Hl.
    destruct (Hcur h isLong d Hin) as [Ht _].
    destruct isLong; cbn [poll_of pollTimer] in Ht; congruence. }
  split; [exact He|]. intros id. unfold tick. by rewrite He.
Qed.

Lemma stop_disarms_witness :
  intervals with_a1 ≠ [] ∧ intervals (stop with_a1) = [].
Proof.
  split; [by vm_compute|].
  apply (stop_disarms_polling with_a1).
  apply (reachable_steps [config_message snapshot_a1; OnDequeue]).
  repeat constructor.
Defined.

(** ** Custom parameters *)

Section CustomParamsProperties.

Variable customparams : option (gmap string string) → string.





End CustomParamsProperties.



(** ** The logger *)

Lemma zPad2_table :
  Forall (λ n : nat, String.length (zPad2 (Z.of_nat n)) = 2
                     ∧ parseInt10 (zPad2 (Z.of_nat n)) = Some (Z.of_nat n))
         (seq 0 100).
Proof. apply (bool_decide_unpack _). by vm_compute. Qed.

Lemma zPad2_below_100 x :
  (0 ≤ x < 100)%Z →
  String.length (zPad2 x) = 2 ∧ parseInt10 (zPad2 x) = Some x.
Proof.
  intros Hx. pose proof zPad2_table as H. rewrite Forall_forall in H.
  specialize (H (Z.to_nat x)). rewrite Z2Nat.id in H by lia.
  apply H. apply elem_of_seq. lia.
Qed.

(** X18: for an integer from 0 to 99, [zPad2] gives two characters, and
    [parseInt] of them in base 10 gives the integer back; an integer of two
    digits or more is printed as it is. *)
Theorem zPad2_round_trip x :
  ((0 ≤ x < 100)%Z →
   String.length (zPad2 x) = 2 ∧ parseInt10 (zPad2 x) = Some x)
  ∧ (2 ≤ String.length (pretty x) → zPad2 x = pretty x).
Proof.
  split; [apply zPad2_below_100|].
  intros H. unfold zPad2, padStart.
  replace (2 - String.length (pretty x)) with 0 by lia. done.
Qed.

Lemma year_table :
  Forall (λ n : nat, String.length (pretty (Z.of_nat n + 1000)%Z) = 4)
         (seq 0 (90 * 100)).
Proof. apply (bool_decide_unpack _). by vm_compute. Qed.

Lemma year_length y :
  (1000 ≤ y ≤ 9999)%Z → String.length (pretty y) = 4.
Proof.
  intros Hy. pose proof year_table as H. rewrite Forall_forall in H.
  specialize (H (Z.to_nat (y - 1000))). cbv beta in H.
  rewrite Z2Nat.id in H by lia.
  replace (y - 1000 + 1000)%Z with y in H by lia.
  apply H. apply elem_of_seq. lia.
Qed.

Lemma string_length_app (a b : string) :
  String.length (a +:+ b) = String.length a + String.length b.
Proof.
  induction a as [|c a IH]; [done|].
  simpl. f_equal. exact IH.
Qed.

Lemma string_app_inj_length (a1 a2 b1 b2 : string) :
  String.length a1 = String.length a2 → a1 +:+ b1 = a2 +:+ b2 →
  a1 = a2 ∧ b1 = b2.
Proof.
  revert a2. induction a1 as [|c a1 IH]; intros [|c2 a2] Hl H; try done.
  simpl in Hl, H. injection H as -> H. injection Hl as Hl.
  destruct (IH a2 Hl H) as [-> ->]. done.
Qed.

Lemma zPad2_inj x y :
  (0 ≤ x < 100)%Z → (0 ≤ y < 100)%Z → zPad2 x = zPad2 y → x = y.
Proof.
  intros Hx Hy H. destruct (zPad2_below_100 x Hx) as [_ Px].
  destruct (zPad2_below_100 y Hy) as [_ Py]. rewrite H in Px. congruence.
Qed.

(** X19: for a date of the years 1000 to 9999, the date text of the log
    lines has 19 characters, and two such dates that are printed alike
    have the same year, month, day, hours, minutes and seconds. *)
Theorem dStr_fixed_width d1 d2 :
  four_digit_date d1 → four_digit_date d2 →
  String.length (dStr d1) = 19 ∧ (dStr d1 = dStr d2 → d1 = d2).
Proof.
  intros (Hy1 & Hm1 & Hd1 & Hh1 & Hi1 & Hs1) (Hy2 & Hm2 & Hd2 & Hh2 & Hi2 & Hs2).
  assert (∀ x, (0 ≤ x < 100)%Z → String.length (zPad2 x) = 2) as Hz
    by (intros x Hx; by apply zPad2_below_100).
  unfold dStr. split.
  - rewrite !string_length_app, year_length, !Hz by lia. done.
  - intros H.
    apply string_app_inj_length in H as [Ey H];
      [|by rewrite !year_length].
    apply (string_app_inj_length "-" "-") in H as [_ H]; [|done].
    apply string_app_inj_length in H as [Em H]; [|by rewrite !Hz by lia].
    apply (string_app_inj_length "-" "-") in H as [_ H]; [|done].
    apply string_app_inj_length in H as [Ed H]; [|by rewrite !Hz by lia].
    apply (string_app_inj_length " " " ") in H as [_ H]; [|done].
    apply string_app_inj_length in H as [Eh H]; [|by rewrite !Hz by lia].
    apply (string_app_inj_length ":" ":") in H as [_ H]; [|done].
    apply string_app_inj_length in H as [Ei H]; [|by rewrite !Hz by lia].
    apply (string_app_inj_length ":" ":") in H as [_ Es]; [|done].
    apply (inj pretty) in Ey.
    apply zPad2_inj in Em; [|lia..]. apply zPad2_inj in Ed; [|lia..].
    apply zPad2_inj in Eh; [|lia..]. apply zPad2_inj in Ei; [|lia..].
    apply zPad2_inj in Es; [|lia..].
    destruct d1, d2. cbn in *. f_equal; lia.
Qed.

Lemma zPad2_witness :
  String.length (zPad2 7) = 2 ∧ parseInt10 (zPad2 7) = Some 7%Z.
Proof.
  destruct (zPad2_round_trip 7) as [H _]. apply H. lia.
Defined.

Lemma dStr_witness :
  String.length (dStr (mkDateParts 2026 10 2 9 5 0)) = 19.
Proof.
  destruct (dStr_fixed_width (mkDateParts 2026 10 2 9 5 0)
              (mkDateParts 2026 10 2 9 5 0)) as [H _].
  - unfold four_digit_date. cbn. lia.
  - unfold four_digit_date. cbn. lia.
  - exact H.
Defined.

(** ** Queued messages *)



(** X21: a queued polls message stores its two periods in the stored
    configuration and sets the timers from them, as a snapshot does; but it
    is not a snapshot: the registry, the parameters and the loop counter
    are left, and no config event is emitted. *)
Theorem polls_message_sets_periods shortPoll longPoll cid config st :
  _shuttingDown st = false → _config st = Some config →
  let r := _onMessageQueued {| messageKey := "polls";
                               messageContent := CPolls shortPoll longPoll;
                               clientId := cid |} st in
  r.1 = Normal
  ∧ pollValue short r.2 = shortPoll ∧ pollValue long r.2 = longPoll
  ∧ _config r.2
    = Some (set_longPoll_cfg longPoll (set_shortPoll_cfg shortPoll config))
  ∧ _nodes r.2 = _nodes st
  ∧ _configCounter r.2 = _configCounter st
  ∧ emitted r.2 = emitted st.
Proof.
  intros Hs Hc. cbv zeta. unfold _onMessageQueued. rewrite Hs. cbn [negb].
  unfold onMessageQueued_switch. cbn [messageKey messageContent].
  rewrite !decide_False by done. rewrite decide_True by done.
  rewrite Hc. cbn [fst snd]. split; [done|].
  split.
  { rewrite checkPollingInterval_other_value by done.
    apply checkPollingInterval_value. }
  split; [apply checkPollingInterval_value|].
  repeat split; do 2 frame checkPollingInterval_only; done.
Qed.

Lemma polls_message_witness :
  pollValue short
    (_onMessageQueued {| messageKey := "polls";
                         messageContent := CPolls (Some 5%Z) None;
                         clientId := None |} started).2 = Some 5%Z.
Proof.
  destruct (polls_message_sets_periods (Some 5%Z) None None
              (set_newParamsDetected false no_nodes) started)
    as (_ & H & _).
  - reflexivity.
  - by vm_compute.
  - exact H.
Defined.

(** ** Connecting *)


(** ** The queue *)

Lemma only_queue fs st st' :
  has fs F_queue = false → only fs st st' → _queue st' = _queue st.
Proof.
  intros H Ho. rewrite Ho. unfold part. cbn [_queue]. by rewrite H.
Qed.

Lemma onMessage_key_queue_keys message key content st :
  Forall (λ q, messageKey q ∈ queuedMessages) (_queue st) →
  Forall (λ q, messageKey q ∈ queuedMessages)
         (_queue (onMessage_key message key content st).2).
Proof.
  intros H. unfold onMessage_key.
  case_decide as Hr.
  { by rewrite (only_queue result_footprint _ _ eq_refl (onResult_only _ st)). }
  repeat case_decide; cbn [snd]; try done.
  all: st_red; apply Forall_app; split; [done|];
    apply Forall_singleton; done.
Qed.

Lemma onMessage_queue_keys message st :
  Forall (λ q, messageKey q ∈ queuedMessages) (_queue st) →
  Forall (λ q, messageKey q ∈ queuedMessages) (_queue (_onMessage message st).2).
Proof.
  unfold _onMessage. intros H.
  assert (Forall (λ q, messageKey q ∈ queuedMessages)
                 (_queue (emit (EMessageReceived message) st))) as H0 by exact H.
  revert H0. generalize (emit (EMessageReceived message) st).
  generalize message at 2.
  intros l. induction l as [|[key content] l IH]; intros s Hs; [done|].
  cbn [forEach fst snd].
  pose proof (onMessage_key_queue_keys message key content s Hs) as Hk.
  destruct (onMessage_key message key content s) as [[|what] s']; cbn [snd] in *;
    [by apply IH|done].
Qed.

Lemma step_queue_keys i st :
  Forall (λ q, messageKey q ∈ queuedMessages) (_queue st) →
  Forall (λ q, messageKey q ∈ queuedMessages) (_queue (step i st)).
Proof.
  intros H. unfold step.
  rewrite (only_queue ledger_footprint _ _ eq_refl (drain_only _)).
  destruct i as [signal|message| |id|id|calls]; cbn [run].
  - by rewrite (only_queue (F_mqttClientConnected :: F_subscriptions :: handler_footprint)
                   _ _ eq_refl (onMqtt_only signal st)).
  - pose proof (onMessage_queue_keys message st H) as Hm.
    by destruct (_onMessage message st) as [[|what] s].
  - unfold onDequeue. destruct (_queue st) as [|opt rest] eqn:E; [by rewrite E|].
    apply Forall_cons in H as [_ H].
    pose proof (only_queue handler_footprint _ _ eq_refl
                  (onMessageQueued_only opt (set_queue rest st))) as Hq.
    destruct (_onMessageQueued opt (set_queue rest st)) as [[|what] s];
      cbn [snd] in Hq.
    + by rewrite Hq.
    + change (_queue (log (LError what) s)) with (_queue s). by rewrite Hq.
  - by rewrite (only_queue [F_timeouts; F_configCounter; F_promises; F_awaiting;
                            F_microtasks] _ _ eq_refl (onTimeout_only id st)).
  - by rewrite (only_queue [F_emitted] _ _ eq_refl (tick_only id st)).
  - by rewrite (only_queue api_footprint _ _ eq_refl (api_calls_only calls st)).
Qed.

(** X23: in every state the interface reaches, each item waiting in the
    queue has one of the eight keys that [_onMessage] queues; so the item
    the worker takes is handled by one of the cases config, query, status,
    command, polls and oauth, or it is a startLogStream or stopLogStream
    item. *)
Theorem queue_holds_queued_keys st :
  reachable st →
  Forall (λ q, messageKey q ∈ queuedMessages) (_queue st)
  ∧ ∀ opt rest, _queue st = opt :: rest →
      messageKey opt ∈ ["config"; "query"; "status"; "command"; "polls"; "oauth"]
      ∨ messageKey opt = "startLogStream" ∨ messageKey opt = "stopLogStream".
Proof.
  intros Hr.
  assert (Forall (λ q, messageKey q ∈ queuedMessages) (_queue st)) as H.
  { induction Hr as [identity classes config|i st Hr IH]; [by constructor|].
    by apply step_queue_keys. }
  split; [exact H|]. intros opt rest E. rewrite E in H.
  apply Forall_cons in H as [H _]. unfold queuedMessages in H.
  repeat (apply elem_of_cons in H as [->|H];
          [first [ left; by repeat constructor | by right; left | by right; right ]|]).
  by apply elem_of_nil in H.
Qed.

Lemma queue_holds_queued_keys_witness :
  Forall (λ q, messageKey q ∈ queuedMessages)
         (_queue (step (config_message snapshot_a1) started)).
Proof.
  apply (queue_holds_queued_keys (step (config_message snapshot_a1) started)).
  repeat constructor.
Defined.

(** ** The ledger and the promises *)

Lemma only_sound fs st st' :
  grows st st' →
  has fs F_promises = false → has fs F_messageAsyncTracking = false →
  only fs st st' → sound st → sound st'.
Proof.
  intros G H1 H2 Ho [Hwf Hl]. split; [by apply (wf_grows st)|].
  unfold only in Ho.
  pose proof (f_equal promises Ho) as E1.
  pose proof (f_equal _messageAsyncTracking Ho) as E2.
  clear Ho. cbn [part promises _messageAsyncTracking] in *.
  rewrite H1 in E1. rewrite H2 in E2.
  unfold ledger_ok in *. st_red_all. rewrite E1, E2. exact Hl.
Qed.

Ltac sound_prim :=
  apply (only_sound handle_free_footprint);
  [grows_prim|reflexivity..|unfold only; st_eq].

Ltac sound_by lem := let H := fresh in intros H; apply lem; revert H.

Lemma settle_sound p v st : settled v → sound st → sound (settle p v st).
Proof.
  intros Hv [Hwf Hl]. split; [eapply wf_grows; [exact Hwf|by apply settle_grows]|].
  unfold settle. destruct (promises st !! p) as [[]|] eqn:E; try done.
  unfold ledger_ok in *. st_red_all. intros key tr Hk.
  destruct (Hl key tr Hk) as [Hs Hc].
  destruct (decide (p = promise tr)) as [->|Hne].
  - rewrite lookup_insert_eq. split; [by eexists|].
    intros Hf. apply Hc in Hf. congruence.
  - by rewrite lookup_insert_ne.
Qed.

Lemma resume_sound c st : sound st → sound (sendMessageAsync_resume c st).
Proof.
  intros [Hwf Hl]. split; [eapply wf_grows; [exact Hwf|apply resume_grows]|].
  assert (∀ key tr, _messageAsyncTracking st !! key = Some tr →
                    promise tr ≠ next_id st) as Hfresh.
  { intros key tr Hk Heq. destruct (Hl key tr Hk) as [Hs _].
    apply (wf_promises _ Hwf) in Hs. lia. }
  open_resume; unfold ledger_ok in *; st_red_all; intros key tr Hk;
    (apply lookup_insert_Some in Hk as [[<- <-]|[Hne Hk]];
     [cbn [promise has_callbacks]; rewrite lookup_insert_eq;
      split; [by eexists|done]
     |pose proof (Hfresh key tr Hk); rewrite lookup_insert_ne by done;
      exact (Hl key tr Hk)]).
Qed.

Lemma run_microtasks_sound fuel st : sound st → sound (run_microtasks fuel st).
Proof.
  revert st. induction fuel as [|fuel IH]; intros st; [done|].
  cbn [run_microtasks]. destruct (microtasks st) as [|c rest]; [done|].
  sound_by IH. sound_by resume_sound. sound_prim.
Qed.

Lemma sendMessageAsync_sound key message timeout st :
  sound st → sound (sendMessageAsync key message timeout st).2.
Proof.
  pose proof (sendMessageAsync_grows key message timeout st) as G.
  unfold sendMessageAsync, fresh in *.
  destruct (_messageAsyncTracking st !! key) as [tr|].
  - destruct (promises st !! promise tr) as [[]|]; cbn [snd] in *.
    + apply (only_sound [F_next_id; F_awaiting] _ _ G);
        [reflexivity..|unfold only; st_eq].
    + apply (only_sound [F_next_id; F_microtasks] _ _ G);
        [reflexivity..|unfold only; st_eq].
    + apply (only_sound [F_next_id; F_microtasks] _ _ G);
        [reflexivity..|unfold only; st_eq].
    + apply (only_sound [F_next_id; F_microtasks] _ _ G);
        [reflexivity..|unfold only; st_eq].
  - cbn [snd]. sound_by resume_sound. sound_prim.
Qed.

Lemma onResult_key_sound mc key entry st :
  sound st → sound (onResult_key mc key entry st).2.
Proof.
  unfold onResult_key.
  repeat (case_decide || case_match); cbn [snd];
    first [by apply settle_sound | done | sound_prim].
Qed.

Lemma forEach_sound {A} (f : A → State → Completion * State) l st :
  (∀ x s, sound s → sound (f x s).2) → sound st → sound (forEach f l st).2.
Proof.
  intros Hf. revert st. induction l as [|x l IH]; intros st Hs; [done|].
  cbn [forEach]. pose proof (Hf x st Hs) as Hx.
  destruct (f x st) as [[|what] st']; cbn [snd] in *; [by apply IH|done].
Qed.

Lemma onMessage_key_sound message key content st :
  sound st → sound (onMessage_key message key content st).2.
Proof.
  unfold onMessage_key.
  case_decide.
  { apply forEach_sound. intros. by apply onResult_key_sound. }
  repeat (case_decide || case_match); cbn [snd]; first [done | sound_prim].
Qed.

Lemma onMessage_sound message st : sound st → sound (_onMessage message st).2.
Proof.
  unfold _onMessage. intros H. apply forEach_sound.
  - intros. by apply onMessage_key_sound.
  - revert H. sound_prim.
Qed.

Lemma onTimeout_sound id st : sound st → sound (onTimeout id st).
Proof.
  unfold onTimeout. destruct (filter _ (timeouts st)) as [|[[h d] action] l];
    [done|].
  assert (sound st → sound (set_timeouts (filter (λ t, t.1.1 ≠ id) (timeouts st)) st))
    as Hrm.
  { apply (only_sound [F_timeouts]); [|reflexivity..|unfold only; st_eq].
    intros [Wp Wt Wd Wa]. split; evolves_goal.
    - intros x Hx. left. by apply filter_timeout_ids in Hx.
    - by apply filter_timeout_ids. }
  destruct action.
  - intros H. apply Hrm in H. revert H. sound_prim.
  - intros H. apply Hrm in H. by apply settle_sound.
Qed.

Lemma api_call_sound c st : sound st → sound (api_call c st).
Proof.
  destruct c; cbn [api_call].
  - apply sendMessageAsync_sound.
  - unfold sendMessage. case_match; [sound_prim|done].
  - unfold addNode. repeat case_match; simplify_eq; cbn [snd];
      try done; try sound_prim.
    match goal with H : sendMessageAsync ?k ?m ?t ?s = (_, ?s') |- _ =>
      pose proof (sendMessageAsync_sound k m t s) as Hs; rewrite H in Hs;
      cbn [snd] in Hs
    end.
    intros Ht. apply Hs. revert Ht. sound_prim.
  - apply (only_sound [F_logs; F_published; F_emitted]);
      [grows_frame delNode_only|reflexivity..|apply delNode_only].
  - apply (only_sound [F_published; F_emitted; F_mqttEnded; F_intervals]);
      [grows_frame stop_only|reflexivity..|apply stop_only].
Qed.

Lemma step_sound i st : sound st → sound (step i st).
Proof.
  unfold step, drain. sound_by run_microtasks_sound.
  destruct i as [signal|message| |id|id|calls]; cbn [run].
  - apply (only_sound (F_mqttClientConnected :: F_subscriptions :: handler_footprint));
      [apply onMqtt_grows|reflexivity..|apply onMqtt_only].
  - pose proof (onMessage_sound message st) as Hm.
    destruct (_onMessage message st) as [[|what] s]; cbn [snd] in Hm; [done|].
    intros H. apply Hm in H. revert H. sound_prim.
  - apply (only_sound (F_queue :: handler_footprint));
      [apply onDequeue_grows|reflexivity..|apply onDequeue_only].
  - apply onTimeout_sound.
  - apply (only_sound [F_emitted]);
      [grows_frame tick_only|reflexivity..|apply tick_only].
  - revert st. induction calls as [|c calls IH]; intros st; [done|].
    cbn [foldl]. sound_by IH. apply api_call_sound.
Qed.

Lemma reachable_sound st : reachable st → sound st.
Proof.
  induction 1 as [identity classes config|i st Hr IH].
  - split; [apply init_wf|]. intros key tr Hk.
    unfold init in Hk. cbn [_messageAsyncTracking] in Hk.
    by rewrite lookup_empty in Hk.
  - by apply step_sound.
Qed.

(** X24: in every state the interface reaches, the promise of each entry
    of the ledger exists; an entry made while not connected, which has no
    callbacks, has a promise that is rejected with the error of the missing
    connection; so an entry whose promise is pending has its callbacks, and
    the result message for it can be handled without exception. *)
Theorem ledger_entries_have_callbacks st key tr :
  reachable st → _messageAsyncTracking st !! key = Some tr →
  is_Some (promises st !! promise tr)
  ∧ (has_callbacks tr = false →
     promises st !! promise tr = Some (Rejected not_connected_error))
  ∧ (promises st !! promise tr = Some Pending → has_callbacks tr = true).
Proof.
  intros Hr Hk. destruct (reachable_sound st Hr) as [_ Hl].
  destruct (Hl key tr Hk) as [Hs Hc].
  split; [exact Hs|]. split; [exact Hc|].
  intros Hp. destruct (has_callbacks tr); [done|].
  rewrite Hc in Hp by done. discriminate.
Qed.

Lemma ledger_entries_witness : is_Some (promises one_sent !! 2).
Proof.
  destruct (ledger_entries_have_callbacks one_sent "addnode-a1"
              {| promise := 2; has_callbacks := true |}) as (H1 & _).
  - repeat constructor.
  - reflexivity.
  - exact H1.
Defined.
